(** * codegraph-mcp: the Python front end (py/ingest_py.py)

    A shallow embedding of the single-pass ingestion of one Python file:
    the stable identifier generator [make_id], the position helper
    [range_of], the [Visitor] class and [ingest_file].

    Conventions.
    - A Python [str] is represented by its UTF-8 encoding, a Rocq [string]
      (a sequence of bytes); [s.encode('utf-8')] is then the identity.  A
      file name that is not UTF-8 reaches Python as a string with lone
      surrogates, on which [encode] raises: it is represented by the bytes
      of the name, and [encodable] tells the two apart.  [make_id] is what
      the function returns when [encode] does.
    - Python integers are [Z].
    - [sys.stdout] is the list of records written so far, oldest first;
      [emit] appends one record.
    - [hashlib.sha1], [ast.parse], [open(...).read()] and [os.path.relpath]
      are library code.  SHA-1 is written out (FIPS 180-4) so that ids can
      be computed; the other three are fields of the record [Lib] and the
      file system the functions are run against.
    - [visit_expr], [visit_stmt], [ingest_file] and [ingest_dir] are the
      functions on a stack with room for the tree they visit and with a
      path that can be encoded.  [visit_expr_in], [visit_stmt_in],
      [ingest_file_in] and [ingest_dir_in] are the functions under the
      recursion limit of the interpreter, where the visit of a deep tree
      ends in RecursionError and a path that cannot be encoded in
      UnicodeEncodeError.  They do the same when there is room
      ([ingest_file_in_runs]) and a beginning of it when there is not
      ([ingest_file_in_cut]). *)

From Stdlib Require Import ZArith List String Ascii Bool Lia.
From Stdlib Require Import DecimalString.
Import ListNotations.
Local Open Scope string_scope.
Local Open Scope list_scope.
Local Open Scope Z_scope.
#[local] Set Warnings "-register-all".

(** ** SHA-1 on byte strings *)

Module Sha1.

Definition mask32 : Z := 0xFFFFFFFF.

Definition add32 (x y : Z) : Z := Z.land (x + y) mask32.

Definition rotl (n x : Z) : Z :=
  Z.land (Z.lor (Z.shiftl x n) (Z.shiftr x (32 - n))) mask32.

Definition not32 (x : Z) : Z := Z.lxor x mask32.

Definition bytes_of_string (s : string) : list Z :=
  map (fun c => Z.of_nat (nat_of_ascii c)) (list_ascii_of_string s).

(** Big-endian encoding of [x] on [n] bytes. *)
Fixpoint be_bytes (n : nat) (x : Z) : list Z :=
  match n with
  | O => []
  | S k => Z.land (Z.shiftr x (8 * Z.of_nat k)) 0xFF :: be_bytes k x
  end.

(** Message padding: a 1 bit, zeros up to 56 modulo 64, the bit length on
    eight bytes. *)
Definition pad (msg : list Z) : list Z :=
  let len := Z.of_nat (List.length msg) in
  let zeros := Z.to_nat ((55 - len) mod 64) in
  msg ++ 0x80 :: repeat 0 zeros ++ be_bytes 8 (8 * len).

Fixpoint words_of_bytes (fuel : nat) (bs : list Z) : list Z :=
  match fuel, bs with
  | S k, b0 :: b1 :: b2 :: b3 :: rest =>
      Z.lor (Z.shiftl b0 24) (Z.lor (Z.shiftl b1 16) (Z.lor (Z.shiftl b2 8) b3))
      :: words_of_bytes k rest
  | _, _ => []
  end.

(** The message schedule: sixteen words of the block extended to eighty. *)
Fixpoint schedule (n : nat) (w : list Z) : list Z :=
  match n with
  | O => w
  | S k =>
      let t := List.length w in
      let g i := nth (t - i) w 0 in
      schedule k (w ++ [rotl 1 (Z.lxor (Z.lxor (g 3%nat) (g 8%nat))
                                       (Z.lxor (g 14%nat) (g 16%nat)))])
  end.

Definition f_round (t : nat) (b c d : Z) : Z :=
  if (t <? 20)%nat then Z.lor (Z.land b c) (Z.land (not32 b) d)
  else if (t <? 40)%nat then Z.lxor b (Z.lxor c d)
  else if (t <? 60)%nat then
    Z.lor (Z.land b c) (Z.lor (Z.land b d) (Z.land c d))
  else Z.lxor b (Z.lxor c d).

Definition k_round (t : nat) : Z :=
  if (t <? 20)%nat then 0x5A827999
  else if (t <? 40)%nat then 0x6ED9EBA1
  else if (t <? 60)%nat then 0x8F1BBCDC
  else 0xCA62C1D6.

Record hstate := H5 { ha : Z; hb : Z; hc : Z; hd : Z; he : Z }.

Definition h_init : hstate :=
  H5 0x67452301 0xEFCDAB89 0x98BADCFE 0x10325476 0xC3D2E1F0.

Fixpoint rounds (t : nat) (ws : list Z) (s : hstate) : hstate :=
  match ws with
  | [] => s
  | w :: ws' =>
      let tmp := add32 (add32 (add32 (rotl 5 (ha s)) (f_round t (hb s) (hc s) (hd s)))
                              (add32 (he s) (k_round t))) w in
      rounds (S t) ws' (H5 tmp (ha s) (rotl 30 (hb s)) (hc s) (hd s))
  end.

Definition block (s : hstate) (bs : list Z) : hstate :=
  let r := rounds 0 (schedule 64 (words_of_bytes 16 bs)) s in
  H5 (add32 (ha s) (ha r)) (add32 (hb s) (hb r)) (add32 (hc s) (hc r))
     (add32 (hd s) (hd r)) (add32 (he s) (he r)).

Fixpoint blocks (fuel : nat) (s : hstate) (bs : list Z) : hstate :=
  match fuel with
  | O => s
  | S k =>
      match bs with
      | [] => s
      | _ => blocks k (block s (firstn 64 bs)) (skipn 64 bs)
      end
  end.

Definition digest (msg : list Z) : list Z :=
  let p := pad msg in
  let s := blocks (List.length p) h_init p in
  be_bytes 4 (ha s) ++ be_bytes 4 (hb s) ++ be_bytes 4 (hc s)
  ++ be_bytes 4 (hd s) ++ be_bytes 4 (he s).

Definition hex_digit (n : Z) : ascii :=
  if n <? 10 then ascii_of_nat (Z.to_nat (48 + n))
  else ascii_of_nat (Z.to_nat (87 + n)).

Fixpoint hex_of_bytes (bs : list Z) : string :=
  match bs with
  | [] => EmptyString
  | b :: r =>
      String (hex_digit (Z.shiftr b 4))
        (String (hex_digit (Z.land b 0xF)) (hex_of_bytes r))
  end.

(** [hashlib.sha1(s).hexdigest()] *)
Definition hexdigest (s : string) : string :=
  hex_of_bytes (digest (bytes_of_string s)).

End Sha1.

(** ** The stable identifier generator *)

(** The elements of the list handed to [make_id]: strings, integers and
    [None]. *)
Inductive part :=
| PStr (s : string)
| PInt (z : Z)
| PNone.

(** [str(z)] for an integer. *)
Definition str_of_int (z : Z) : string := NilZero.string_of_int (Z.to_int z).

(** [str(p if p is not None else '')] *)
Definition str_of_part (p : part) : string :=
  match p with
  | PStr s => s
  | PInt z => str_of_int z
  | PNone => ""
  end.

(** The hash object is represented by the bytes it has been fed;
    [h.update(b)] appends. *)
Definition update (h : string) (b : string) : string := (h ++ b)%string.

Definition make_id (parts : list part) : string :=
  let h := fold_left (fun h p => update h (str_of_part p)) parts "" in
  substring 0 16 (Sha1.hexdigest h).
Arguments make_id : simpl never.
#[global] Opaque make_id.

(** [p.replace('\\', '/')] *)
Fixpoint norm_path (p : string) : string :=
  match p with
  | EmptyString => EmptyString
  | String c r =>
      String (if Ascii.eqb c "\"%char then "/"%char else c) (norm_path r)
  end.

(** ** Positions and ranges *)

(** An optional attribute of a tree node as [getattr] sees it: not there at
    all (the interpreters before 3.8 have no end positions), or there, with
    an integer or with [None]. *)
Inductive attr :=
| Missing
| Present (v : option Z).

(** [getattr(node, a, default)]: the default is taken only when the
    attribute is missing. *)
Definition getattr (a : attr) (default : Z) : option Z :=
  match a with
  | Missing => Some default
  | Present v => v
  end.

(** The position attributes of a statement or expression node:
    [(int lineno, int col_offset, int? end_lineno, int? end_col_offset)]. *)
Record pos := {
  lineno : Z;
  col_offset : Z;
  end_lineno : attr;
  end_col_offset : attr
}.

(** The [range] dictionary; [None] is the JSON [null]. *)
Record Range := {
  startLine : Z;
  startCol : Z;
  endLine : option Z;
  endCol : option Z
}.

(** [lineno] and [col_offset] are there on every statement and expression
    node, so the defaults 1 and 0 of their [getattr] are never taken. *)
Definition range_of (node : pos) : Range :=
  let sl := lineno node in
  let sc := col_offset node + 1 in
  let el := getattr (end_lineno node) sl in
  let ec := getattr (end_col_offset node) sc in
  {| startLine := sl; startCol := sc; endLine := el; endCol := ec |}.

(** [dict(startLine=1,startCol=1,endLine=1,endCol=1)] *)
Definition range_1_1 : Range :=
  {| startLine := 1; startCol := 1; endLine := Some 1; endCol := Some 1 |}.

(** ** Records of the fact stream *)

Record symbol := {
  id : string;
  kind : string;
  name : string;
  file : string;
  range : Range;
  language : string;
  parentId : option string
}.

(** The name index is a Python dictionary from names to lists of symbols;
    it keeps its keys in insertion order. *)
Definition dict := list (string * list symbol).

Inductive record :=
| RSymbol (sym : symbol)
| REdge (src : string) (type : string) (dst : string)
| RCall (calleeName : string) (file : string) (modId : string)
| RNameIndex (file : string) (index : dict).

(** ** The syntax tree

    Expressions never contain statements.  The node classes the visitor
    has a method for, or tests with [isinstance], have a constructor of
    their own; every other class is [OtherExpr] or [OtherStmt], with its
    child nodes in the order [generic_visit] walks them. *)

Record alias := { alias_name : string; asname : option string }.

Inductive expr :=
| Name (id : string) (p : pos)
| Attribute (value : expr) (attr : string)
| Call (func : expr) (args : list expr)
| Tuple (elts : list expr)
| Subscript (value : expr) (slice : expr)
| OtherExpr (children : list expr).

(** [FunctionDef] and [ClassDef]: the expressions of the fields before
    [body] (arguments; bases and keywords), the body, the expressions of
    the fields after it (decorators, return annotation, type parameters). *)
Inductive stmt :=
| FunctionDef (name : string) (p : pos)
    (args : list expr) (body : list stmt) (rest : list expr)
| ClassDef (name : string) (p : pos)
    (bases : list expr) (body : list stmt) (rest : list expr)
| Assign (targets : list expr) (value : expr)
| Import (names : list alias)
| ImportFrom (module : option string) (names : list alias) (level : option Z)
| OtherStmt (children : list node)
with node :=
| NExpr (e : expr)
| NStmt (s : stmt).

(** [pass] *)
Definition Pass : stmt := OtherStmt [].

(** ** The visitor *)

Record state := {
  stdout : list record;
  name_index : dict
}.

(** A method of the visitor, or a statement of [ingest_file]: it returns
    nothing and changes the state. *)
Definition action := state -> state.

Definition skip : action := fun st => st.

Definition seq (a b : action) : action := fun st => b (a st).

Notation "a ;; b" := (seq a b) (at level 61, right associativity).

Section ForEach.
Variable A : Type.
Variable f : A -> action.

(** [for x in l: f(x)] *)
Fixpoint for_each (l : list A) : action :=
  match l with
  | [] => skip
  | x :: r => f x ;; for_each r
  end.
End ForEach.
Arguments for_each {A} f l.

Definition emit (obj : record) : action :=
  fun st => {| stdout := stdout st ++ [obj]; name_index := name_index st |}.

(** [d.setdefault(k, []).append(v)] *)
Fixpoint setdefault_append (k : string) (v : symbol) (d : dict) : dict :=
  match d with
  | [] => [(k, [v])]
  | (k', vs) :: r =>
      if String.eqb k' k then (k', vs ++ [v]) :: r
      else (k', vs) :: setdefault_append k v r
  end.

Definition index_append (k : string) (v : symbol) : action :=
  fun st => {| stdout := stdout st;
               name_index := setdefault_append k v (name_index st) |}.

(** Truth value of a string: [if name:] *)
Definition truthy (s : string) : bool :=
  match s with
  | EmptyString => false
  | _ => true
  end.

(** ['.' * n] *)
Definition dots (n : Z) : string :=
  string_of_list_ascii (repeat "."%char (Z.to_nat n)).

(** The pseudo-module symbol of an import specifier. *)
Definition pseudo_module (spec : string) : symbol :=
  {| id := make_id [PStr "module"; PStr spec; PStr spec; PInt 1; PInt 1];
     kind := "module"; name := spec; file := spec;
     range := range_1_1; language := "python"; parentId := None |}.

(** [(node.module or '') + ('.' * (node.level or 0))] *)
Definition import_from_spec (module : option string) (level : option Z) : string :=
  String.append
    (match module with Some m => if truthy m then m else "" | None => "" end)
    (dots (match level with Some l => if l =? 0 then 0 else l | None => 0 end)).

(** The name [visit_Call] extracts from [node.func]. *)
Definition callee_name (func : expr) : option string :=
  match func with
  | Name i _ => Some i
  | Attribute _ a => Some a
  | _ => None
  end.

Section Visitor.
(** The variables of [ingest_file] the methods close over. *)
Variable file_rel : string.
Variable mod_id : string.

Definition function_symbol (name : string) (p : pos) : symbol :=
  {| id := make_id [PStr "function"; PStr name; PStr file_rel;
                    PInt (lineno p); PInt (col_offset p + 1)];
     kind := "function"; name := name; file := file_rel;
     range := range_of p; language := "python"; parentId := None |}.

Definition class_symbol (name : string) (p : pos) : symbol :=
  {| id := make_id [PStr "class"; PStr name; PStr file_rel;
                    PInt (lineno p); PInt (col_offset p + 1)];
     kind := "class"; name := name; file := file_rel;
     range := range_of p; language := "python"; parentId := None |}.

Definition method_symbol (klass : symbol) (mname : string) (p : pos) : symbol :=
  {| id := make_id [PStr "method"; PStr mname; PStr file_rel;
                    PInt (lineno p); PInt (col_offset p + 1)];
     kind := "method"; name := mname; file := file_rel;
     range := range_of p; language := "python";
     parentId := Some (id klass) |}.

Definition variable_symbol (vname : string) (p : pos) : symbol :=
  {| id := make_id [PStr "variable"; PStr vname; PStr file_rel;
                    PInt (lineno p); PInt (col_offset p + 1)];
     kind := "variable"; name := vname; file := file_rel;
     range := range_of p; language := "python"; parentId := None |}.

(** The methods of [Visitor].  Each takes as [generic_visit] what
    [self.generic_visit(node)] does on its node: the visit of the child
    nodes, in the order of the fields. *)

Definition visit_FunctionDef (generic_visit : action)
    (name : string) (p : pos) : action :=
  let sym := function_symbol name p in
  emit (RSymbol sym) ;;
  emit (REdge mod_id "defines" (id sym)) ;;
  index_append name sym ;;
  generic_visit.

(** The body of the loop over [node.body] in [visit_ClassDef]. *)
Definition method_of (klass : symbol) (b : stmt) : action :=
  match b with
  | FunctionDef mname p _ _ _ =>
      let msym := method_symbol klass mname p in
      emit (RSymbol msym) ;;
      emit (REdge (id klass) "member_of" (id msym)) ;;
      index_append mname msym
  | _ => skip
  end.

Definition visit_ClassDef (generic_visit : action)
    (name : string) (p : pos) (body : list stmt) : action :=
  let klass := class_symbol name p in
  emit (RSymbol klass) ;;
  emit (REdge mod_id "defines" (id klass)) ;;
  for_each (method_of klass) body ;;
  generic_visit.

Definition visit_Assign (generic_visit : action)
    (targets : list expr) : action :=
  match targets with
  | Name vname p :: _ =>
      let sym := variable_symbol vname p in
      emit (RSymbol sym) ;;
      emit (REdge mod_id "defines" (id sym)) ;;
      index_append vname sym
  | _ => skip
  end ;;
  generic_visit.

Definition visit_Import (names : list alias) : action :=
  for_each
    (fun a =>
       let spec := alias_name a in
       let pm := pseudo_module spec in
       emit (RSymbol pm) ;;
       emit (REdge mod_id "import" (id pm)))
    names.

Definition visit_ImportFrom (module : option string) (level : option Z)
  : action :=
  let spec := import_from_spec module level in
  let pm := pseudo_module spec in
  emit (RSymbol pm) ;;
  emit (REdge mod_id "import" (id pm)).

Definition visit_Call (generic_visit : action) (func : expr) : action :=
  match callee_name func with
  | Some name =>
      if truthy name then emit (RCall name file_rel mod_id) else skip
  | None => skip
  end ;;
  generic_visit.

(** [Visitor.visit] on an expression: [visit_Call] on a call,
    [generic_visit] on every other node.  This is the visit on a stack
    with room for the whole tree; [visit_expr_in] and [visit_stmt_in]
    below are the visit under the recursion limit. *)
Fixpoint visit_expr (e : expr) : action :=
  match e with
  | Name _ _ => skip
  | Attribute value _ => visit_expr value
  | Call func args =>
      visit_Call (visit_expr func ;; for_each visit_expr args) func
  | Tuple elts => for_each visit_expr elts
  | Subscript value slice => visit_expr value ;; visit_expr slice
  | OtherExpr children => for_each visit_expr children
  end.

(** [Visitor.visit] on a statement. *)
Fixpoint visit_stmt (s : stmt) : action :=
  match s with
  | FunctionDef name p args body rest =>
      visit_FunctionDef
        (for_each visit_expr args ;;
         for_each visit_stmt body ;;
         for_each visit_expr rest)
        name p
  | ClassDef name p bases body rest =>
      visit_ClassDef
        (for_each visit_expr bases ;;
         for_each visit_stmt body ;;
         for_each visit_expr rest)
        name p body
  | Assign targets value =>
      visit_Assign (for_each visit_expr targets ;; visit_expr value) targets
  | Import names => visit_Import names
  | ImportFrom module _ level => visit_ImportFrom module level
  | OtherStmt children => for_each visit_node children
  end
with visit_node (n : node) : action :=
  match n with
  | NExpr e => visit_expr e
  | NStmt s => visit_stmt s
  end.
End Visitor.

(** ** ingest_file *)

(** What [ast.parse] does on a source text: a module with its body, a
    [SyntaxError], or another exception. *)
Inductive parse_result :=
| Parsed (body : list stmt)
| SyntaxError
| OtherError.

(** The library functions [ingest_file] calls: [ast.parse(src, filename)]
    and [os.path.relpath(path, start)]. *)
Record Lib := {
  ast_parse : string -> string -> parse_result;
  relpath : string -> string -> string
}.

(** The files that can be opened and decoded, with their text; [None] when
    [open] or [read] raises. *)
Definition filesystem := string -> option string.

(** How a call ends, with what stands on [sys.stdout] then. *)
Inductive outcome :=
| Returned (out : list record)
| Raised (out : list record).

Definition module_id (file_rel : string) : string :=
  make_id [PStr "module"; PStr "python"; PStr file_rel; PInt 1; PInt 1].

Definition module_symbol (file_rel : string) : symbol :=
  {| id := module_id file_rel; kind := "module";
     name := file_rel; file := file_rel;
     range := range_1_1; language := "python"; parentId := None |}.

Definition emit_name_index (file_rel : string) : action :=
  fun st => emit (RNameIndex file_rel (name_index st)) st.

(** The part of [ingest_file] after a successful parse. *)
Definition ingest_tree (file_rel : string) (body : list stmt) : action :=
  let mod_id := module_id file_rel in
  emit (RSymbol (module_symbol file_rel)) ;;
  for_each (visit_stmt file_rel mod_id) body ;;
  emit_name_index file_rel.

(** [ingest_file] with a path that can be encoded, on a stack with room
    for the tree; [ingest_file_in] below has the two other ways it can
    end. *)
Definition ingest_file (L : Lib) (fs : filesystem) (root path : string)
    (out : list record) : outcome :=
  match fs path with
  | None => Returned out
  | Some src =>
      match ast_parse L src path with
      | SyntaxError => Returned out
      | OtherError => Raised out
      | Parsed body =>
          let file_rel := norm_path (relpath L path root) in
          Returned (stdout (ingest_tree file_rel body
                              {| stdout := out; name_index := [] |}))
      end
  end.

(** The records a call has written: what stands on [sys.stdout] after it,
    without what stood there before. *)
Definition written (before : list record) (o : outcome) : list record :=
  match o with
  | Returned out | Raised out => skipn (List.length before) out
  end.

(** ** What a visit writes

    The records a visit appends to [sys.stdout] and the entries it appends
    to the name index, as functions of the tree alone.  [visit_stmt_framed]
    below shows that the visitor does exactly this to any state. *)

Definition entries := list (string * symbol).

Definition run (out : list record) (idx : entries) : action :=
  fun st =>
    {| stdout := stdout st ++ out;
       name_index :=
         fold_left (fun d e => setdefault_append (fst e) (snd e) d) idx
                   (name_index st) |}.

Section Traces.
Variable file_rel : string.
Variable mod_id : string.

Definition call_head_out (func : expr) : list record :=
  match callee_name func with
  | Some name => if truthy name then [RCall name file_rel mod_id] else []
  | None => []
  end.

Fixpoint expr_out (e : expr) : list record :=
  match e with
  | Name _ _ => []
  | Attribute value _ => expr_out value
  | Call func args =>
      call_head_out func ++ expr_out func ++ flat_map expr_out args
  | Tuple elts => flat_map expr_out elts
  | Subscript value slice => expr_out value ++ expr_out slice
  | OtherExpr children => flat_map expr_out children
  end.

Definition method_out (klass : symbol) (b : stmt) : list record :=
  match b with
  | FunctionDef mname p _ _ _ =>
      let msym := method_symbol file_rel klass mname p in
      [RSymbol msym; REdge (id klass) "member_of" (id msym)]
  | _ => []
  end.

Definition method_idx (klass : symbol) (b : stmt) : entries :=
  match b with
  | FunctionDef mname p _ _ _ =>
      [(mname, method_symbol file_rel klass mname p)]
  | _ => []
  end.

Definition import_out (spec : string) : list record :=
  [RSymbol (pseudo_module spec);
   REdge mod_id "import" (id (pseudo_module spec))].

Definition assign_head_out (targets : list expr) : list record :=
  match targets with
  | Name vname p :: _ =>
      let sym := variable_symbol file_rel vname p in
      [RSymbol sym; REdge mod_id "defines" (id sym)]
  | _ => []
  end.

Definition assign_head_idx (targets : list expr) : entries :=
  match targets with
  | Name vname p :: _ => [(vname, variable_symbol file_rel vname p)]
  | _ => []
  end.

Fixpoint stmt_out (s : stmt) : list record :=
  match s with
  | FunctionDef name p args body rest =>
      let sym := function_symbol file_rel name p in
      [RSymbol sym; REdge mod_id "defines" (id sym)]
      ++ flat_map expr_out args ++ flat_map stmt_out body
      ++ flat_map expr_out rest
  | ClassDef name p bases body rest =>
      let klass := class_symbol file_rel name p in
      [RSymbol klass; REdge mod_id "defines" (id klass)]
      ++ flat_map (method_out klass) body
      ++ flat_map expr_out bases ++ flat_map stmt_out body
      ++ flat_map expr_out rest
  | Assign targets value =>
      assign_head_out targets ++ flat_map expr_out targets ++ expr_out value
  | Import names => flat_map (fun a => import_out (alias_name a)) names
  | ImportFrom module _ level => import_out (import_from_spec module level)
  | OtherStmt children => flat_map node_out children
  end
with node_out (n : node) : list record :=
  match n with
  | NExpr e => expr_out e
  | NStmt s => stmt_out s
  end.

Fixpoint stmt_idx (s : stmt) : entries :=
  match s with
  | FunctionDef name p _ body _ =>
      (name, function_symbol file_rel name p) :: flat_map stmt_idx body
  | ClassDef name p _ body _ =>
      flat_map (method_idx (class_symbol file_rel name p)) body
      ++ flat_map stmt_idx body
  | Assign targets _ => assign_head_idx targets
  | Import _ => []
  | ImportFrom _ _ _ => []
  | OtherStmt children => flat_map node_idx children
  end
with node_idx (n : node) : entries :=
  match n with
  | NExpr _ => []
  | NStmt s => stmt_idx s
  end.
End Traces.

(** ** Vocabulary of the properties *)

(** The records an action writes when run from [st]. *)
Definition emitted (a : action) (st : state) : list record :=
  skipn (List.length (stdout st)) (stdout (a st)).

(** The symbols of a stream, in order. *)
Definition symbols (rs : list record) : list symbol :=
  flat_map (fun r => match r with RSymbol s => [s] | _ => [] end) rs.

Definition symbol_ids (rs : list record) : list string :=
  map id (symbols rs).


(** [d.get(k)] *)
Fixpoint dict_get (k : string) (d : dict) : option (list symbol) :=
  match d with
  | [] => None
  | (k', vs) :: r => if String.eqb k' k then Some vs else dict_get k r
  end.

(** The id [make_id] gives to the tuple (kind, name, file, line, column) of
    a symbol, line and column being the start of its range. *)
Definition tuple_id (sym : symbol) : string :=
  make_id [PStr (kind sym); PStr (name sym); PStr (file sym);
           PInt (startLine (range sym)); PInt (startCol (range sym))].

(** All four fields of a range are integers and at least 1. *)
Definition one_based (r : Range) : Prop :=
  1 <= startLine r /\ 1 <= startCol r
  /\ (exists el, endLine r = Some el /\ 1 <= el)
  /\ (exists ec, endCol r = Some ec /\ 1 <= ec).

(** What the parser guarantees of the positions of a node: lines count from
    1 and column offsets from 0; an end position, where there is one, is an
    integer, and the end offset, one past the last character, is at
    least 1. *)
Definition end_ok (a : attr) : bool :=
  match a with
  | Missing => true
  | Present (Some v) => 1 <=? v
  | Present None => false
  end.

Definition pos_ok (p : pos) : bool :=
  (1 <=? lineno p) && (0 <=? col_offset p)
  && end_ok (end_lineno p) && end_ok (end_col_offset p).

Section PositionsOk.
(** The check made on the positions of the nodes that give symbols. *)
Variable okp : pos -> bool.

Definition target_ok (targets : list expr) : bool :=
  match targets with
  | Name _ p :: _ => okp p
  | _ => true
  end.

Fixpoint stmt_ok (s : stmt) : bool :=
  match s with
  | FunctionDef _ p _ body _ => okp p && forallb stmt_ok body
  | ClassDef _ p _ body _ => okp p && forallb stmt_ok body
  | Assign targets _ => target_ok targets
  | Import _ => true
  | ImportFrom _ _ _ => true
  | OtherStmt children => forallb node_ok children
  end
with node_ok (n : node) : bool :=
  match n with
  | NExpr _ => true
  | NStmt s => stmt_ok s
  end.
End PositionsOk.

(** Every edge of the stream [rs] has both ends among [seen] or among the
    ids of the symbols that stand before it in [rs]. *)
Fixpoint edges_linked (seen : list string) (rs : list record) : Prop :=
  match rs with
  | [] => True
  | RSymbol s :: r => edges_linked (id s :: seen) r
  | REdge a _ b :: r => In a seen /\ In b seen /\ edges_linked seen r
  | _ :: r => edges_linked seen r
  end.

(** The edges of [rs] are linked from every set of ids that holds [base]. *)
Definition linked_above (base : list string) (rs : list record) : Prop :=
  forall seen, incl base seen -> edges_linked seen rs.


(** The edges of a stream, in order. *)
Definition edges (rs : list record) : list (string * string * string) :=
  flat_map (fun r => match r with REdge a t b => [(a, t, b)] | _ => [] end) rs.

(** The specifiers of an import statement: the names of a direct import,
    the computed specifier of a from-import. *)
Definition specifiers (s : stmt) : list string :=
  match s with
  | Import names => map alias_name names
  | ImportFrom module _ level => [import_from_spec module level]
  | _ => []
  end.

(** [c] is the statement [s] or stands somewhere inside it. *)
Inductive occurs (c : stmt) : stmt -> Prop :=
| occurs_here : occurs c c
| occurs_FunctionDef name p args body rest s :
    In s body -> occurs c s -> occurs c (FunctionDef name p args body rest)
| occurs_ClassDef name p bases body rest s :
    In s body -> occurs c s -> occurs c (ClassDef name p bases body rest)
| occurs_OtherStmt children s :
    In (NStmt s) children -> occurs c s -> occurs c (OtherStmt children).

(** The import statements. *)
Definition is_import (s : stmt) : Prop :=
  match s with
  | Import _ | ImportFrom _ _ _ => True
  | _ => False
  end.

(** A property of the statements among the children of a node. *)
Definition on_stmt (P : stmt -> Prop) (n : node) : Prop :=
  match n with
  | NExpr _ => True
  | NStmt s => P s
  end.

(** An action that does to every state what [run out idx] does. *)
Definition framed (a : action) (out : list record) (idx : entries) : Prop :=
  forall st, a st = run out idx st.

(** The name index built from a list of entries. *)
Definition index_of (idx : entries) : dict :=
  fold_left (fun d e => setdefault_append (fst e) (snd e) d) idx [].

(** The symbols entered under the name [k], in order. *)
Definition entries_for (k : string) (idx : entries) : list symbol :=
  map snd (filter (fun e => String.eqb (fst e) k) idx).

(** The records [ingest_file] writes for a file that parses to [body]. *)
Definition file_records (file_rel : string) (body : list stmt) : list record :=
  RSymbol (module_symbol file_rel)
  :: flat_map (stmt_out file_rel (module_id file_rel)) body
  ++ [RNameIndex file_rel (index_of (flat_map (stmt_idx file_rel) body))].

(** ** A file system and a library to run the examples in *)

Definition pos_at (l c el ec : Z) : pos :=
  {| lineno := l; col_offset := c;
     end_lineno := Present (Some el); end_col_offset := Present (Some ec) |}.

(** A top-level function [f] and a class [C] with one method [m]:
<<
def f(): pass
class C:
    def m(self): pass
>> *)
Definition scenario (pf pc pm : pos) : list stmt :=
  [FunctionDef "f" pf [] [Pass] [];
   ClassDef "C" pc [] [FunctionDef "m" pm [] [Pass] []] []].

Definition scenario_tree : list stmt :=
  scenario (pos_at 1 0 1 13) (pos_at 2 0 3 21) (pos_at 3 4 3 21).

(** The first line of example/py/beta.py. *)
Definition beta_import : stmt :=
  ImportFrom (Some "utils") [{| alias_name := "greet"; asname := None |}]
             (Some 1).

(** The statement [print(x)]. *)
Definition print_call : stmt :=
  OtherStmt [NExpr (Call (Name "print" (pos_at 1 0 1 5))
                         [Name "x" (pos_at 1 6 1 7)])].

Definition example_parse (src filename : string) : parse_result :=
  if String.eqb src "scenario" then Parsed scenario_tree
  else if String.eqb src "from .utils import greet" then Parsed [beta_import]
  else if String.eqb src "print(x)" then Parsed [print_call]
  else if String.eqb src "" then Parsed []
  else SyntaxError.

(** Paths below the root, without the root and the separator. *)
Definition example_relpath (path start : string) : string :=
  substring (S (String.length start))
            (String.length path - S (String.length start)) path.

Definition example_lib : Lib :=
  {| ast_parse := example_parse; relpath := example_relpath |}.

Definition example_fs : filesystem :=
  fun path =>
    if String.eqb path "repo/a.src" then Some "scenario"
    else if String.eqb path "repo/beta.py" then Some "from .utils import greet"
    else if String.eqb path "repo/call.py" then Some "print(x)"
    else if String.eqb path "repo/empty.py" then Some ""
    else if String.eqb path "repo/bad.py" then Some "def ("
    else None.

(** ** Vocabulary of the further properties *)

(** Every character of a string passes the test. *)
Fixpoint string_forall (p : ascii -> bool) (s : string) : bool :=
  match s with
  | EmptyString => true
  | String c r => p c && string_forall p r
  end.


(** The text a list of parts is hashed as: their strings, one after the
    other. *)
Fixpoint text_of (parts : list part) : string :=
  match parts with
  | [] => ""
  | p :: r => String.append (str_of_part p) (text_of r)
  end.

Definition not_backslash (c : ascii) : bool := negb (Ascii.eqb c "\"%char).

(** The keys of a dictionary, in its order. *)
Definition keys (d : dict) : list string := map fst d.

(** The distinct elements of a list, in the order of their first
    occurrence. *)
Definition first_occurrences (l : list string) : list string :=
  fold_left
    (fun acc k => if existsb (String.eqb k) acc then acc else acc ++ [k])
    l [].

(** The symbols that go into the name index: functions, methods and
    variables. *)
Definition indexable (sym : symbol) : bool :=
  String.eqb (kind sym) "function" || String.eqb (kind sym) "method"
  || String.eqb (kind sym) "variable".

(** The entries the symbols of a stream make in the name index. *)
Definition indexed (rs : list record) : entries :=
  map (fun sym => (name sym, sym)) (filter indexable (symbols rs)).

(** The symbols of a stream that are indexable and have the name [k]. *)
Definition declared (k : string) (rs : list record) : list symbol :=
  filter (fun sym => String.eqb (name sym) k) (filter indexable (symbols rs)).

(** The forms of the records the visitor writes. *)
Inductive visitor_record (file_rel mod_id : string) : record -> Prop :=
| vr_call n :
    truthy n = true -> visitor_record file_rel mod_id (RCall n file_rel mod_id)
| vr_function n p :
    visitor_record file_rel mod_id (RSymbol (function_symbol file_rel n p))
| vr_class n p :
    visitor_record file_rel mod_id (RSymbol (class_symbol file_rel n p))
| vr_method c pc n p :
    visitor_record file_rel mod_id
      (RSymbol (method_symbol file_rel (class_symbol file_rel c pc) n p))
| vr_variable n p :
    visitor_record file_rel mod_id (RSymbol (variable_symbol file_rel n p))
| vr_pseudo spec :
    visitor_record file_rel mod_id (RSymbol (pseudo_module spec))
| vr_edge a t b :
    visitor_record file_rel mod_id (REdge a t b).

(** The edge [(a, t, b)] is the one written for the symbol [sym] in a file
    with module id [m]. *)
Definition edge_fits (m : string) (sym : symbol) (a t b : string) : Prop :=
  b = id sym
  /\ ((kind sym = "method" /\ t = "member_of" /\ parentId sym = Some a)
      \/ (kind sym = "module" /\ t = "import" /\ a = m)
      \/ ((kind sym = "function" \/ kind sym = "class"
           \/ kind sym = "variable")
          /\ t = "defines" /\ a = m)).

(** A stream of calls and of symbols each followed at once by its edge. *)
Fixpoint paired (m : string) (rs : list record) : Prop :=
  match rs with
  | [] => True
  | RSymbol sym :: REdge a t b :: r => edge_fits m sym a t b /\ paired m r
  | RCall _ _ _ :: r => paired m r
  | _ => False
  end.

(** What holds of the fields of every symbol written for the file
    [file_rel]. *)
Definition symbol_fields_ok (file_rel : string) (sym : symbol) : Prop :=
  language sym = "python"
  /\ (kind sym = "module" \/ kind sym = "function" \/ kind sym = "class"
      \/ kind sym = "method" \/ kind sym = "variable")
  /\ (parentId sym <> None <-> kind sym = "method")
  /\ (kind sym = "module" -> file sym = name sym /\ range sym = range_1_1)
  /\ (kind sym <> "module" -> file sym = file_rel).

(** A function in a function, and a function under a conditional in a
    class body:
<<
def outer():
    def inner(): pass
class K:
    if x:
        def hidden(): pass
>> *)
Definition nested_tree : list stmt :=
  [FunctionDef "outer" (pos_at 1 0 2 21) []
     [FunctionDef "inner" (pos_at 2 4 2 21) [] [Pass] []] [];
   ClassDef "K" (pos_at 3 0 5 26) []
     [OtherStmt [NExpr (Name "x" (pos_at 4 7 4 8));
                 NStmt (FunctionDef "hidden" (pos_at 5 8 5 26) [] [Pass] [])]]
     []].

Definition nested_lib : Lib :=
  {| ast_parse := fun _ _ => Parsed nested_tree; relpath := example_relpath |}.

Definition nested_fs : filesystem := fun _ => Some "".

(** ** ingest_dir *)

(** [s.endswith(suffix)] *)
Definition endswith (s suffix : string) : bool :=
  (String.length suffix <=? String.length s)%nat
  && String.eqb (substring (String.length s - String.length suffix)
                           (String.length suffix) s)
                suffix.

(** A directory as [os.walk] meets it: its subdirectories by name and its
    other entries, in the order the listing gives them.  [Unlisted] is an
    entry that is named among the subdirectories of its parent and is
    never walked: a directory that cannot be listed, or a symbolic link to
    a directory. *)
Inductive dirtree :=
| Dir (dirs : list (string * dirtree)) (files : list string)
| Unlisted.

(** [dirnames.remove(x)] when [x in dirnames]: the first entry named [x]
    goes; the entries are the names, each with what the walk of the
    directory of that name will do. *)
Fixpoint remove_dir {A} (x : string) (dirnames : list (string * A))
  : list (string * A) :=
  match dirnames with
  | [] => []
  | d :: r => if String.eqb (fst d) x then r else d :: remove_dir x r
  end.

(** The result of a call that may raise, handed on to what follows it. *)
Definition and_then (o : outcome) (k : list record -> outcome) : outcome :=
  match o with
  | Returned out => k out
  | Raised out => Raised out
  end.

Section IngestDir.
Variable L : Lib.
Variable fs : filesystem.
(** [os.path.join] *)
Variable join : string -> string -> string.
Variable root : string.

(** The loop over [filenames]. *)
Fixpoint ingest_filenames (dirpath : string) (filenames : list string)
    (out : list record) : outcome :=
  match filenames with
  | [] => Returned out
  | fn :: r =>
      if endswith fn ".py"
      then and_then (ingest_file L fs root (join dirpath fn) out)
                    (ingest_filenames dirpath r)
      else ingest_filenames dirpath r out
  end.

(** The walk goes on into the directories left in [dirnames]. *)
Fixpoint walk_dirs (dirpath : string)
    (dirnames : list (string * (string -> list record -> outcome)))
    (out : list record) : outcome :=
  match dirnames with
  | [] => Returned out
  | d :: r => and_then (snd d (join dirpath (fst d)) out) (walk_dirs dirpath r)
  end.

(** The body of the loop of [ingest_dir] for the directory [dirpath], and
    the walk below it. *)
Fixpoint walk (t : dirtree) (dirpath : string) (out : list record)
  : outcome :=
  match t with
  | Unlisted => Returned out
  | Dir dirs files =>
      let dirnames := map (fun d => (fst d, walk (snd d))) dirs in
      let dirnames := remove_dir "node_modules" dirnames in
      let dirnames := remove_dir ".git" dirnames in
      and_then (ingest_filenames dirpath files out) (walk_dirs dirpath dirnames)
  end.

Definition ingest_dir (t : dirtree) (out : list record) : outcome :=
  walk t root out.

(** [ingest_file] on a list of paths, one after the other. *)
Fixpoint ingest_all (paths : list string) (out : list record) : outcome :=
  match paths with
  | [] => Returned out
  | path :: r => and_then (ingest_file L fs root path out) (ingest_all r)
  end.

(** The paths [ingest_dir] hands to [ingest_file], in order: in each
    directory the files ending in .py, then the subdirectories but the
    first named node_modules and the first named .git. *)
Fixpoint py_paths (t : dirtree) (dirpath : string) : list string :=
  match t with
  | Unlisted => []
  | Dir dirs files =>
      let dirnames := map (fun d => (fst d, py_paths (snd d))) dirs in
      let dirnames := remove_dir "node_modules" dirnames in
      let dirnames := remove_dir ".git" dirnames in
      map (join dirpath) (filter (fun fn => endswith fn ".py") files)
      ++ flat_map (fun d => snd d (join dirpath (fst d))) dirnames
  end.

(** What [ingest_file] writes for a path when run on its own. *)
Definition records_of (path : string) : list record :=
  written [] (ingest_file L fs root path []).
End IngestDir.

(** What stands on the output when a call ends. *)
Definition output (o : outcome) : list record :=
  match o with
  | Returned out | Raised out => out
  end.

(** [posixpath.join] of a directory and a name. *)
Definition posix_join (a b : string) : string :=
  if prefix "/" b then b
  else if String.eqb a "" || endswith a "/" then String.append a b
  else String.append a (String.append "/" b).

(** A tree to walk:
<<
repo/a.src  repo/call.py  repo/notes.txt
repo/node_modules/x.py
repo/pkg/beta.py  repo/pkg/.git/hook.py
>> *)
Definition example_tree : dirtree :=
  Dir [("node_modules", Dir [] ["x.py"]);
       ("pkg", Dir [(".git", Dir [] ["hook.py"])] ["beta.py"])]
      ["a.src"; "call.py"; "notes.txt"].

Definition tree_fs : filesystem :=
  fun path =>
    if String.eqb path "repo/call.py" then Some "print(x)"
    else if String.eqb path "repo/pkg/beta.py"
    then Some "from .utils import greet"
    else if String.eqb path "repo/node_modules/x.py" then Some "print(x)"
    else if String.eqb path "repo/pkg/.git/hook.py" then Some "print(x)"
    else None.

(** ** emit: one JSON text per line

    [json.dumps(obj, ensure_ascii=False)], on the values [emit] is called
    with: dictionaries (with their keys in insertion order), lists,
    strings, integers and [None]. *)

Inductive json :=
| JNull
| JInt (z : Z)
| JStr (s : string)
| JList (items : list json)
| JDict (items : list (string * json)).

Definition dquote : ascii := "034"%char.

Definition newline : ascii := "010"%char.

Definition hex2 (n : nat) : string :=
  String (Sha1.hex_digit (Z.of_nat (n / 16)))
         (String (Sha1.hex_digit (Z.of_nat (n mod 16))) "").

(** What a character of a string becomes between the quotes: the quote and
    the backslash get a backslash, the control characters their letter or
    their code, every other character stays. *)
Definition escape_char (c : ascii) : string :=
  let n := nat_of_ascii c in
  if Ascii.eqb c dquote then String "\"%char (String dquote "")
  else if Ascii.eqb c "\"%char then "\\"
  else if (n =? 8)%nat then "\b"
  else if (n =? 12)%nat then "\f"
  else if (n =? 10)%nat then "\n"
  else if (n =? 13)%nat then "\r"
  else if (n =? 9)%nat then "\t"
  else if (n <? 32)%nat then String.append "\u00" (hex2 n)
  else String c "".

Fixpoint escape (s : string) : string :=
  match s with
  | EmptyString => ""
  | String c r => String.append (escape_char c) (escape r)
  end.

Definition json_string (s : string) : string :=
  String dquote (String.append (escape s) (String dquote "")).

(** [', '.join(l)] *)
Fixpoint join_comma (l : list string) : string :=
  match l with
  | [] => ""
  | x :: r =>
      match r with
      | [] => x
      | _ => String.append x (String.append ", " (join_comma r))
      end
  end.

Fixpoint dumps (j : json) : string :=
  match j with
  | JNull => "null"
  | JInt z => str_of_int z
  | JStr s => json_string s
  | JList items =>
      String.append "[" (String.append (join_comma (map dumps items)) "]")
  | JDict items =>
      String.append "{"
        (String.append
           (join_comma
              (map (fun kv =>
                      String.append (json_string (fst kv))
                        (String.append ": " (dumps (snd kv))))
                   items))
           "}")
  end.

Definition json_opt_int (v : option Z) : json :=
  match v with
  | Some z => JInt z
  | None => JNull
  end.

Definition range_json (r : Range) : json :=
  JDict [("startLine", JInt (startLine r)); ("startCol", JInt (startCol r));
         ("endLine", json_opt_int (endLine r));
         ("endCol", json_opt_int (endCol r))].

Definition symbol_json (sym : symbol) : json :=
  JDict ([("id", JStr (id sym)); ("kind", JStr (kind sym));
          ("name", JStr (name sym)); ("file", JStr (file sym));
          ("range", range_json (range sym));
          ("language", JStr (language sym))]
         ++ match parentId sym with
            | Some c => [("parentId", JStr c)]
            | None => []
            end).

(** The object [emit] is called with for each record. *)
Definition record_json (r : record) : json :=
  match r with
  | RSymbol sym => JDict [("type", JStr "symbol"); ("symbol", symbol_json sym)]
  | REdge a t b =>
      JDict [("type", JStr "edge");
             ("edge", JDict [("src", JStr a); ("type", JStr t);
                             ("dst", JStr b)])]
  | RCall c f m =>
      JDict [("type", JStr "call"); ("calleeName", JStr c);
             ("file", JStr f); ("modId", JStr m)]
  | RNameIndex f idx =>
      JDict [("type", JStr "name_index"); ("file", JStr f);
             ("index",
              JDict (map (fun e => (fst e, JList (map symbol_json (snd e))))
                         idx))]
  end.

(** What [emit] writes: [json.dumps(obj, ensure_ascii=False) + '\n']. *)
Definition emit_text (r : record) : string :=
  String.append (dumps (record_json r)) (String newline "").

(** The text on [sys.stdout] for a sequence of records. *)
Fixpoint stdout_text (out : list record) : string :=
  match out with
  | [] => ""
  | r :: rest => String.append (emit_text r) (stdout_text rest)
  end.

(** The lines of a text, each ended by a newline; [acc] is the line being
    read. *)
Fixpoint lines_from (acc : string) (s : string) : list string :=
  match s with
  | EmptyString => match acc with EmptyString => [] | _ => [acc] end
  | String c r =>
      if Ascii.eqb c newline then acc :: lines_from "" r
      else lines_from (String.append acc (String c "")) r
  end.

Definition lines (s : string) : list string := lines_from "" s.

Definition not_newline (c : ascii) : bool := negb (Ascii.eqb c newline).

(** ** The nodes that give symbols *)

(** The nodes of a statement for which the visitor makes a symbol, in the
    order it meets them: each with the kind of the symbol, the name, and
    the position attributes of the node as the parser set them. *)
Definition method_node (b : stmt) : list (string * string * pos) :=
  match b with
  | FunctionDef mname p _ _ _ => [("method", mname, p)]
  | _ => []
  end.

Definition target_node (targets : list expr) : list (string * string * pos) :=
  match targets with
  | Name vname p :: _ => [("variable", vname, p)]
  | _ => []
  end.

Fixpoint decl_nodes (s : stmt) : list (string * string * pos) :=
  match s with
  | FunctionDef name p _ body _ =>
      ("function", name, p) :: flat_map decl_nodes body
  | ClassDef name p _ body _ =>
      ("class", name, p)
      :: flat_map method_node body ++ flat_map decl_nodes body
  | Assign targets _ => target_node targets
  | Import _ => []
  | ImportFrom _ _ _ => []
  | OtherStmt children => flat_map node_decls children
  end
with node_decls (n : node) : list (string * string * pos) :=
  match n with
  | NExpr _ => []
  | NStmt s => decl_nodes s
  end.

(** The range [r] is the one of a node with the position attributes [p]:
    it starts at the line the parser counts from 1 and at the column after
    the parser's offset, which counts from 0; it ends where the parser
    says, and at its start when the parser says nothing. *)
Definition range_at (p : pos) (r : Range) : Prop :=
  startLine r = lineno p
  /\ startCol r = col_offset p + 1
  /\ endLine r = match end_lineno p with
                 | Missing => Some (lineno p)
                 | Present v => v
                 end
  /\ endCol r = match end_col_offset p with
                | Missing => Some (col_offset p + 1)
                | Present v => v
                end.

(** A function whose node has no end position, as a parser before
    Python 3.8 builds it. *)
Definition no_end_pos : pos :=
  {| lineno := 7; col_offset := 4;
     end_lineno := Missing; end_col_offset := Missing |}.

Definition no_end_tree : list stmt :=
  [FunctionDef "g" no_end_pos [] [Pass] []].

Definition no_end_lib : Lib :=
  {| ast_parse := fun _ _ => Parsed no_end_tree; relpath := example_relpath |}.

(** ** The visit under the recursion limit

    [Visitor.visit] is recursive: [visit] calls the method of the node,
    the method calls [generic_visit], and [generic_visit] calls [visit] on
    every child.  When the calls are nested deeper than the recursion
    limit of the interpreter allows, the call raises RecursionError.
    Nothing in [ingest_file] catches it: the visit ends there,
    [ingest_file] raises, and what was written stays on the output.

    [visit_expr] and [visit_stmt] above are the visit on a stack with room
    for the whole tree.  [visit_expr_in room] and [visit_stmt_in room] are
    the visit with room for [room] nested calls of [visit] on the nodes of
    the tree: each call takes one, and hands what is left to the visits of
    the children.  How many that is for a given recursion limit is a
    matter of the interpreter: every level takes the frames of [visit]
    and of the method it calls, and the nodes the tree here leaves out
    (expression contexts, argument lists) take levels of their own. *)

(** How a visit ends: it returns, or RecursionError is raised; either way
    with the state it has reached. *)
Inductive result :=
| Done (st : state)
| Overflow (st : state).

Definition bounded := state -> result.

(** A step that makes no call of [visit]. *)
Definition lift (a : action) : bounded := fun st => Done (a st).

(** One step after the other; an exception ends both. *)
Definition then_ (a b : bounded) : bounded :=
  fun st =>
    match a st with
    | Done st' => b st'
    | Overflow st' => Overflow st'
    end.

Notation "a ;;; b" := (then_ a b) (at level 61, right associativity).

Section ForEachIn.
Variable A : Type.
Variable f : A -> bounded.

Fixpoint for_each_in (l : list A) : bounded :=
  match l with
  | [] => lift skip
  | x :: r => f x ;;; for_each_in r
  end.
End ForEachIn.
Arguments for_each_in {A} f l.

Section VisitorIn.
Variable file_rel : string.
Variable mod_id : string.

(** [Visitor.visit] on an expression, with room for [room] nested calls. *)
Fixpoint visit_expr_in (room : nat) (e : expr) : bounded :=
  match room with
  | O => Overflow
  | S room' =>
      match e with
      | Name _ _ => lift skip
      | Attribute value _ => visit_expr_in room' value
      | Call func args =>
          lift (visit_Call file_rel mod_id skip func) ;;;
          visit_expr_in room' func ;;;
          for_each_in (visit_expr_in room') args
      | Tuple elts => for_each_in (visit_expr_in room') elts
      | Subscript value slice =>
          visit_expr_in room' value ;;; visit_expr_in room' slice
      | OtherExpr children => for_each_in (visit_expr_in room') children
      end
  end.

(** [Visitor.visit] on a statement, with room for [room] nested calls.
    The methods write their records first and call [generic_visit]
    last. *)
Fixpoint visit_stmt_in (room : nat) (s : stmt) : bounded :=
  match room with
  | O => Overflow
  | S room' =>
      match s with
      | FunctionDef name p args body rest =>
          lift (visit_FunctionDef file_rel mod_id skip name p) ;;;
          for_each_in (visit_expr_in room') args ;;;
          for_each_in (visit_stmt_in room') body ;;;
          for_each_in (visit_expr_in room') rest
      | ClassDef name p bases body rest =>
          lift (visit_ClassDef file_rel mod_id skip name p body) ;;;
          for_each_in (visit_expr_in room') bases ;;;
          for_each_in (visit_stmt_in room') body ;;;
          for_each_in (visit_expr_in room') rest
      | Assign targets value =>
          lift (visit_Assign file_rel mod_id skip targets) ;;;
          for_each_in (visit_expr_in room') targets ;;;
          visit_expr_in room' value
      | Import names => lift (visit_Import mod_id names)
      | ImportFrom module _ level => lift (visit_ImportFrom mod_id module level)
      | OtherStmt children =>
          for_each_in
            (fun n =>
               match n with
               | NExpr e => visit_expr_in room' e
               | NStmt s' => visit_stmt_in room' s'
               end)
            children
      end
  end.

(** [Visitor().visit(tree)]: the module node has no method of its own, its
    generic visit goes through the body. *)
Definition visit_Module_in (room : nat) (body : list stmt) : bounded :=
  match room with
  | O => Overflow
  | S room' => for_each_in (visit_stmt_in room') body
  end.
End VisitorIn.

(** The number of nested calls of [visit] the visit of a node makes. *)
Fixpoint expr_depth (e : expr) : nat :=
  S (match e with
     | Name _ _ => 0
     | Attribute value _ => expr_depth value
     | Call func args =>
         Nat.max (expr_depth func) (list_max (map expr_depth args))
     | Tuple elts => list_max (map expr_depth elts)
     | Subscript value slice =>
         Nat.max (expr_depth value) (expr_depth slice)
     | OtherExpr children => list_max (map expr_depth children)
     end)%nat.

Fixpoint stmt_depth (s : stmt) : nat :=
  S (match s with
     | FunctionDef _ _ args body rest =>
         Nat.max (list_max (map expr_depth args))
           (Nat.max (list_max (map stmt_depth body))
                    (list_max (map expr_depth rest)))
     | ClassDef _ _ bases body rest =>
         Nat.max (list_max (map expr_depth bases))
           (Nat.max (list_max (map stmt_depth body))
                    (list_max (map expr_depth rest)))
     | Assign targets value =>
         Nat.max (list_max (map expr_depth targets)) (expr_depth value)
     | Import _ => 0
     | ImportFrom _ _ _ => 0
     | OtherStmt children => list_max (map node_depth children)
     end)%nat
with node_depth (n : node) : nat :=
  match n with
  | NExpr e => expr_depth e
  | NStmt s => stmt_depth s
  end.

Definition tree_depth (body : list stmt) : nat :=
  S (list_max (map stmt_depth body)).

(** [s.encode('utf-8')] returns for a string without lone surrogates.  A
    file name comes from [os.walk] as the bytes the file system has,
    decoded as UTF-8 with the surrogateescape handler: the bytes that do
    not decode become lone surrogates.  With a string standing for those
    bytes, it can be encoded when the bytes are well-formed UTF-8.
    [utf8_from lo hi more bs]: [more] continuation bytes are due, the
    next of them between [lo] and [hi]. *)
Fixpoint utf8_from (lo hi more : nat) (bs : list nat) : bool :=
  match bs with
  | [] => (more =? 0)%nat
  | b :: r =>
      match more with
      | O =>
          if (b <=? 127)%nat then utf8_from 128 191 0 r
          else if ((194 <=? b) && (b <=? 223))%nat then utf8_from 128 191 1 r
          else if (b =? 224)%nat then utf8_from 160 191 2 r
          else if (b =? 237)%nat then utf8_from 128 159 2 r
          else if ((225 <=? b) && (b <=? 239))%nat then utf8_from 128 191 2 r
          else if (b =? 240)%nat then utf8_from 144 191 3 r
          else if ((241 <=? b) && (b <=? 243))%nat then utf8_from 128 191 3 r
          else if (b =? 244)%nat then utf8_from 128 143 3 r
          else false
      | S m => ((lo <=? b) && (b <=? hi))%nat && utf8_from 128 191 m r
      end
  end.

Definition encodable (s : string) : bool :=
  utf8_from 128 191 0 (map nat_of_ascii (list_ascii_of_string s)).

(** The part of [ingest_file] after a successful parse. *)
Definition ingest_tree_in (room : nat) (file_rel : string)
    (body : list stmt) : bounded :=
  let mod_id := module_id file_rel in
  lift (emit (RSymbol (module_symbol file_rel))) ;;;
  visit_Module_in file_rel mod_id room body ;;;
  lift (emit_name_index file_rel).

(** [ingest_file] as an interpreter runs it that has room for [room]
    nested calls of [visit] on the nodes of the tree when [ingest_file]
    calls [Visitor().visit(tree)].  The path is the only string [make_id]
    is given that does not come from the text of the file, which [open]
    has decoded as UTF-8; the first [make_id], for [mod_id], is called
    with it before anything is written. *)
Definition ingest_file_in (room : nat) (L : Lib) (fs : filesystem)
    (root path : string) (out : list record) : outcome :=
  match fs path with
  | None => Returned out
  | Some src =>
      match ast_parse L src path with
      | SyntaxError => Returned out
      | OtherError => Raised out
      | Parsed body =>
          let file_rel := norm_path (relpath L path root) in
          if encodable file_rel
          then match ingest_tree_in room file_rel body
                       {| stdout := out; name_index := [] |} with
               | Done st => Returned (stdout st)
               | Overflow st => Raised (stdout st)
               end
          else Raised out
      end
  end.

(** The call [ingest_file(path, root)] meets no exception but those it
    catches: the parser raises nothing but [SyntaxError], the path can be
    encoded, and the stack has room for the tree. *)
Definition runs_through (room : nat) (L : Lib) (fs : filesystem)
    (root path : string) : bool :=
  match fs path with
  | None => true
  | Some src =>
      match ast_parse L src path with
      | SyntaxError => true
      | OtherError => false
      | Parsed body =>
          encodable (norm_path (relpath L path root))
          && (tree_depth body <=? room)%nat
      end
  end.

(** What [ingest_file] writes for a path when run on its own. *)
Definition records_of_in (room : nat) (L : Lib) (fs : filesystem)
    (root path : string) : list record :=
  written [] (ingest_file_in room L fs root path []).

(** A bounded visit does what the action [a] does, writing [out], or is
    cut short by RecursionError after a beginning of [out]. *)
Definition within (b : bounded) (a : action) (out : list record) : Prop :=
  forall st,
    match b st with
    | Done st' => st' = a st
    | Overflow st' =>
        exists w1 w2, out = w1 ++ w2 /\ stdout st' = stdout st ++ w1
    end.

(** A bounded visit that returns, having done what [a] does. *)
Definition completes (b : bounded) (a : action) : Prop :=
  forall st, b st = Done (a st).

(** A bounded visit that raises RecursionError from every state. *)
Definition overflows (b : bounded) : Prop :=
  forall st, exists st', b st = Overflow st'.

Section IngestDirIn.
Variable room : nat.
Variable L : Lib.
Variable fs : filesystem.
Variable join : string -> string -> string.
Variable root : string.

(** The loop over [filenames]. *)
Fixpoint ingest_filenames_in (dirpath : string) (filenames : list string)
    (out : list record) : outcome :=
  match filenames with
  | [] => Returned out
  | fn :: r =>
      if endswith fn ".py"
      then and_then (ingest_file_in room L fs root (join dirpath fn) out)
                    (ingest_filenames_in dirpath r)
      else ingest_filenames_in dirpath r out
  end.

Fixpoint walk_in (t : dirtree) (dirpath : string) (out : list record)
  : outcome :=
  match t with
  | Unlisted => Returned out
  | Dir dirs files =>
      let dirnames := map (fun d => (fst d, walk_in (snd d))) dirs in
      let dirnames := remove_dir "node_modules" dirnames in
      let dirnames := remove_dir ".git" dirnames in
      and_then (ingest_filenames_in dirpath files out)
               (walk_dirs join dirpath dirnames)
  end.

Definition ingest_dir_in (t : dirtree) (out : list record) : outcome :=
  walk_in t root out.

(** [ingest_file] on a list of paths, one after the other. *)
Fixpoint ingest_all_in (paths : list string) (out : list record) : outcome :=
  match paths with
  | [] => Returned out
  | path :: r => and_then (ingest_file_in room L fs root path out) (ingest_all_in r)
  end.
End IngestDirIn.

(** Room for 500 nested visits: about what the default recursion limit of
    1000 frames leaves when each level takes the frame of [visit] and the
    frame of [generic_visit]. *)
Definition default_room : nat := 500.

(** The expression [a.b.b...b] with [n] attributes. *)
Fixpoint attribute_chain (n : nat) : expr :=
  match n with
  | O => Name "a" (pos_at 2 8 2 9)
  | S k => Attribute (attribute_chain k) "b"
  end.

(** A class with a long expression before its method:
<<
class C:
    x = a.b.b...b
    def m(self): pass
>> *)
Definition deep_tree : list stmt :=
  [ClassDef "C" (pos_at 1 0 3 21) []
     [Assign [Name "x" (pos_at 2 4 2 5)] (attribute_chain 600);
      FunctionDef "m" (pos_at 3 4 3 21) [] [Pass] []]
     []].

Definition deep_lib : Lib :=
  {| ast_parse := fun src filename =>
       if String.eqb src "deep" then Parsed deep_tree
       else example_parse src filename;
     relpath := example_relpath |}.

Definition deep_fs : filesystem :=
  fun path =>
    if String.eqb path "repo/call.py" then Some "print(x)"
    else if String.eqb path "repo/pkg/deep.py" then Some "deep"
    else if String.eqb path "repo/pkg/late.py" then Some "print(x)"
    else None.

(** A tree with a file that parses, then the deep one, then another. *)
Definition deep_dir : dirtree :=
  Dir [("pkg", Dir [] ["deep.py"; "late.py"])] ["call.py"].

(** A file name in Latin-1, [caf\xe9.py]: the byte [0xE9] is no UTF-8. *)
Definition latin1_name : string :=
  String.append "caf" (String "233"%char ".py").


Example sha1_empty :
  Sha1.hexdigest "" = "da39a3ee5e6b4b0d3255bfef95601890afd80709".
Proof. vm_compute. reflexivity. Qed.

Example sha1_abc :
  Sha1.hexdigest "abc" = "a9993e364706816aba3e25717850c26c9cd0d89d".
Proof. vm_compute. reflexivity. Qed.

(** Ids as [hashlib] computes them. *)
Example make_id_module :
  make_id [PStr "module"; PStr "python"; PStr "a.src"; PInt 1; PInt 1]
  = "d0bb812cb4525269".
Proof. vm_compute. reflexivity. Qed.

Example make_id_function :
  make_id [PStr "function"; PStr "f"; PStr "a.src"; PInt 1; PInt 1]
  = "3c34060e4db7ce70".
Proof. vm_compute. reflexivity. Qed.

Example make_id_method :
  make_id [PStr "method"; PStr "m"; PStr "a.src"; PInt 3; PInt 5]
  = "34f297e9fc6f5b22".
Proof. vm_compute. reflexivity. Qed.

Example make_id_none :
  make_id [PNone; PStr "a"] = "86f7e437faa5a7fc".
Proof. vm_compute. reflexivity. Qed.

Example str_of_int_examples :
  (str_of_int 0, str_of_int 12, str_of_int (-5)) = ("0", "12", "-5").
Proof. vm_compute. reflexivity. Qed.

Example norm_path_example : norm_path "pkg\sub/a.py" = "pkg/sub/a.py".
Proof. vm_compute. reflexivity. Qed.

Example sha1_two_blocks :
  Sha1.hexdigest "abcdbcdecdefdefgefghfghighijhijkijkljklmklmnlmnomnopnopq"
  = "84983e441c3bd26ebaae4aa1f95129e5e54670f1".
Proof. vm_compute. reflexivity. Qed.

(** ** Induction on trees *)

Lemma expr_nested_ind (P : expr -> Prop) :
  (forall i p, P (Name i p)) ->
  (forall value a, P value -> P (Attribute value a)) ->
  (forall func args, P func -> Forall P args -> P (Call func args)) ->
  (forall elts, Forall P elts -> P (Tuple elts)) ->
  (forall value slice, P value -> P slice -> P (Subscript value slice)) ->
  (forall children, Forall P children -> P (OtherExpr children)) ->
  forall e, P e.
Proof.
  intros HName HAttr HCall HTuple HSub HOther.
  fix IH 1.
  intros [i p | value a | func args | elts | value slice | children].
  - apply HName.
  - apply HAttr, IH.
  - apply HCall; [apply IH |].
    induction args as [| x r IHr]; constructor; [apply IH | exact IHr].
  - apply HTuple.
    induction elts as [| x r IHr]; constructor; [apply IH | exact IHr].
  - apply HSub; apply IH.
  - apply HOther.
    induction children as [| x r IHr]; constructor; [apply IH | exact IHr].
Qed.

Lemma stmt_nested_ind (P : stmt -> Prop) :
  (forall name p args body rest,
      Forall P body -> P (FunctionDef name p args body rest)) ->
  (forall name p bases body rest,
      Forall P body -> P (ClassDef name p bases body rest)) ->
  (forall targets value, P (Assign targets value)) ->
  (forall names, P (Import names)) ->
  (forall module names level, P (ImportFrom module names level)) ->
  (forall children, Forall (on_stmt P) children -> P (OtherStmt children)) ->
  forall s, P s.
Proof.
  intros HFun HClass HAssign HImport HFrom HOther.
  fix IH 1.
  intros [name p args body rest | name p bases body rest
         | targets value | names | module names level | children].
  - apply HFun.
    induction body as [| x r IHr]; constructor; [apply IH | exact IHr].
  - apply HClass.
    induction body as [| x r IHr]; constructor; [apply IH | exact IHr].
  - apply HAssign.
  - apply HImport.
  - apply HFrom.
  - apply HOther.
    induction children as [| x r IHr]; constructor; [| exact IHr].
    destruct x as [e | s]; simpl; [exact I | apply IH].
Qed.

(** ** The visitor does what the traces say *)

Lemma run_nil st : run [] [] st = st.
Proof. destruct st; unfold run; simpl. now rewrite app_nil_r. Qed.

Lemma run_app o1 i1 o2 i2 st :
  run o2 i2 (run o1 i1 st) = run (o1 ++ o2) (i1 ++ i2) st.
Proof.
  unfold run; simpl. now rewrite app_assoc, fold_left_app.
Qed.

Lemma framed_skip : framed skip [] [].
Proof. intros st. now rewrite run_nil. Qed.

Lemma framed_emit r : framed (emit r) [r] [].
Proof. intros st. reflexivity. Qed.

Lemma framed_index k v : framed (index_append k v) [] [(k, v)].
Proof. intros st. unfold index_append, run; simpl. now rewrite app_nil_r. Qed.

Lemma framed_seq a b o1 i1 o2 i2 :
  framed a o1 i1 -> framed b o2 i2 -> framed (a ;; b) (o1 ++ o2) (i1 ++ i2).
Proof.
  intros Ha Hb st. unfold seq. now rewrite Ha, Hb, run_app.
Qed.

Lemma framed_eq a o i o' i' :
  framed a o i -> o = o' -> i = i' -> framed a o' i'.
Proof. now intros H -> ->. Qed.

Lemma framed_for_each {A} (f : A -> action) fo fi (l : list A) :
  Forall (fun x => framed (f x) (fo x) (fi x)) l ->
  framed (for_each f l) (flat_map fo l) (flat_map fi l).
Proof.
  induction 1 as [| x r Hx _ IH]; simpl.
  - apply framed_skip.
  - now apply framed_seq.
Qed.

Lemma flat_map_nil {A B} (l : list A) :
  flat_map (fun _ => @nil B) l = [].
Proof. induction l; simpl; auto. Qed.

Lemma framed_for_each_out {A} (f : A -> action) fo (l : list A) :
  Forall (fun x => framed (f x) (fo x) []) l ->
  framed (for_each f l) (flat_map fo l) [].
Proof.
  intros H. eapply framed_eq.
  - apply (framed_for_each f fo (fun _ => [])), H.
  - reflexivity.
  - apply flat_map_nil.
Qed.

Section VisitorRuns.
Variable file_rel : string.
Variable mod_id : string.

Lemma visit_Call_framed g func out :
  framed g out [] ->
  framed (visit_Call file_rel mod_id g func)
         (call_head_out file_rel mod_id func ++ out) [].
Proof.
  intros Hg. unfold visit_Call, call_head_out.
  apply (framed_seq _ _ _ [] _ []); [| exact Hg].
  destruct (callee_name func) as [n |]; [destruct (truthy n) |];
    auto using framed_skip, framed_emit.
Qed.

Lemma visit_expr_framed e :
  framed (visit_expr file_rel mod_id e) (expr_out file_rel mod_id e) [].
Proof.
  induction e using expr_nested_ind; simpl.
  - apply framed_skip.
  - assumption.
  - apply visit_Call_framed.
    apply (framed_seq _ _ _ [] _ []);
      [assumption | now apply framed_for_each_out].
  - now apply framed_for_each_out.
  - eapply framed_eq; [apply framed_seq; eassumption | reflexivity ..].
  - now apply framed_for_each_out.
Qed.

Lemma visit_exprs_framed l :
  framed (for_each (visit_expr file_rel mod_id) l)
         (flat_map (expr_out file_rel mod_id) l) [].
Proof.
  apply framed_for_each_out, Forall_forall.
  intros e _. apply visit_expr_framed.
Qed.

Lemma method_of_framed klass b :
  framed (method_of file_rel klass b)
         (method_out file_rel klass b) (method_idx file_rel klass b).
Proof.
  destruct b; simpl; try apply framed_skip.
  eapply framed_eq;
    [ apply framed_seq;
      [ apply framed_emit
      | apply framed_seq; [apply framed_emit | apply framed_index] ]
    | reflexivity .. ].
Qed.

Lemma visit_FunctionDef_framed g name p out idx :
  framed g out idx ->
  framed (visit_FunctionDef file_rel mod_id g name p)
         ([RSymbol (function_symbol file_rel name p);
           REdge mod_id "defines" (id (function_symbol file_rel name p))]
          ++ out)
         ((name, function_symbol file_rel name p) :: idx).
Proof.
  intros Hg. unfold visit_FunctionDef.
  apply (framed_seq _ _ [_] [] _ (_ :: _)); [apply framed_emit |].
  apply (framed_seq _ _ [_] [] _ (_ :: _)); [apply framed_emit |].
  apply (framed_seq _ _ [] [_] _ _); [apply framed_index | exact Hg].
Qed.

Lemma visit_ClassDef_framed g name p body out idx :
  framed g out idx ->
  framed (visit_ClassDef file_rel mod_id g name p body)
         ([RSymbol (class_symbol file_rel name p);
           REdge mod_id "defines" (id (class_symbol file_rel name p))]
          ++ flat_map (method_out file_rel (class_symbol file_rel name p)) body
          ++ out)
         (flat_map (method_idx file_rel (class_symbol file_rel name p)) body
          ++ idx).
Proof.
  intros Hg. unfold visit_ClassDef.
  apply (framed_seq _ _ [_] [] _ _); [apply framed_emit |].
  apply (framed_seq _ _ [_] [] _ _); [apply framed_emit |].
  apply framed_seq; [| exact Hg].
  apply (framed_for_each _
           (method_out file_rel (class_symbol file_rel name p))
           (method_idx file_rel (class_symbol file_rel name p))),
    Forall_forall.
  intros b _. apply method_of_framed.
Qed.

Lemma visit_Assign_framed g targets out :
  framed g out [] ->
  framed (visit_Assign file_rel mod_id g targets)
         (assign_head_out file_rel mod_id targets ++ out)
         (assign_head_idx file_rel targets).
Proof.
  intros Hg. unfold visit_Assign.
  eapply framed_eq;
    [apply framed_seq; [| exact Hg] | reflexivity | apply app_nil_r].
  destruct targets as [| [] ts]; simpl; try apply framed_skip.
  apply (framed_seq _ _ [_] [] [_] [_]); [apply framed_emit |].
  apply (framed_seq _ _ [_] [] [] [_]); [apply framed_emit | apply framed_index].
Qed.

Lemma import_framed spec :
  framed (emit (RSymbol (pseudo_module spec)) ;;
          emit (REdge mod_id "import" (id (pseudo_module spec))))
         (import_out mod_id spec) [].
Proof.
  apply (framed_seq _ _ [_] [] [_] []); apply framed_emit.
Qed.

Lemma visit_Import_framed names :
  framed (visit_Import mod_id names)
         (flat_map (fun a => import_out mod_id (alias_name a)) names) [].
Proof.
  apply (framed_for_each_out _ (fun a => import_out mod_id (alias_name a))),
    Forall_forall.
  intros a _. apply import_framed.
Qed.

Lemma visit_ImportFrom_framed module level :
  framed (visit_ImportFrom mod_id module level)
         (import_out mod_id (import_from_spec module level)) [].
Proof. apply import_framed. Qed.

Lemma visit_stmt_framed s :
  framed (visit_stmt file_rel mod_id s)
         (stmt_out file_rel mod_id s) (stmt_idx file_rel s).
Proof.
  induction s as [name p args body rest IHb | name p bases body rest IHb
                 | targets value | names | module names level
                 | children IHc] using stmt_nested_ind; simpl.
  - apply visit_FunctionDef_framed.
    eapply framed_eq.
    + apply framed_seq; [apply visit_exprs_framed |].
      apply framed_seq; [| apply visit_exprs_framed].
      apply (framed_for_each _ (stmt_out file_rel mod_id)
               (stmt_idx file_rel)), IHb.
    + reflexivity.
    + simpl. apply app_nil_r.
  - apply visit_ClassDef_framed.
    eapply framed_eq.
    + apply framed_seq; [apply visit_exprs_framed |].
      apply framed_seq; [| apply visit_exprs_framed].
      apply (framed_for_each _ (stmt_out file_rel mod_id)
               (stmt_idx file_rel)), IHb.
    + reflexivity.
    + simpl. apply app_nil_r.
  - apply visit_Assign_framed.
    apply (framed_seq _ _ _ [] _ []);
      [apply visit_exprs_framed | apply visit_expr_framed].
  - apply visit_Import_framed.
  - apply visit_ImportFrom_framed.
  - apply (framed_for_each _ (node_out file_rel mod_id) (node_idx file_rel)).
    induction IHc as [| n r Hn _ IHr]; constructor; [| exact IHr].
    destruct n as [e | s]; simpl; [apply visit_expr_framed | exact Hn].
Qed.

Lemma visit_stmts_framed body :
  framed (for_each (visit_stmt file_rel mod_id) body)
         (flat_map (stmt_out file_rel mod_id) body)
         (flat_map (stmt_idx file_rel) body).
Proof.
  apply framed_for_each, Forall_forall.
  intros s _. apply visit_stmt_framed.
Qed.
End VisitorRuns.

Lemma emitted_framed a out idx st :
  framed a out idx -> emitted a st = out.
Proof.
  intros H. unfold emitted. rewrite H. unfold run; simpl.
  rewrite skipn_app, skipn_all, Nat.sub_diag. reflexivity.
Qed.

Lemma ingest_tree_stdout file_rel body out :
  stdout (ingest_tree file_rel body {| stdout := out; name_index := [] |})
  = out ++ file_records file_rel body.
Proof.
  unfold ingest_tree, seq, emit_name_index.
  rewrite (visit_stmts_framed file_rel (module_id file_rel) body).
  unfold file_records, index_of, emit, run; simpl.
  rewrite <- !app_assoc. reflexivity.
Qed.

(** What a call of [ingest_file] writes. *)
Lemma written_app (out rs : list record) : skipn (List.length out) (out ++ rs) = rs.
Proof.
  rewrite skipn_app, skipn_all, Nat.sub_diag. reflexivity.
Qed.

Lemma written_nothing (out : list record) : skipn (List.length out) out = [].
Proof. apply skipn_all. Qed.

Lemma ingest_file_parsed L fs root path out src body :
  fs path = Some src ->
  ast_parse L src path = Parsed body ->
  ingest_file L fs root path out
  = Returned (out ++ file_records (norm_path (relpath L path root)) body).
Proof.
  intros Hr Hp. unfold ingest_file. rewrite Hr, Hp.
  now rewrite ingest_tree_stdout.
Qed.

(** ** Streams: symbols, edges, index entries *)

Lemma symbols_app a b : symbols (a ++ b) = symbols a ++ symbols b.
Proof. apply flat_map_app. Qed.

Lemma edges_app a b : edges (a ++ b) = edges a ++ edges b.
Proof. apply flat_map_app. Qed.

Lemma flat_map_flat_map {A B C} (f : A -> list B) (g : B -> list C) l :
  flat_map g (flat_map f l) = flat_map (fun x => flat_map g (f x)) l.
Proof.
  induction l as [| x r IH]; simpl; [reflexivity |].
  now rewrite flat_map_app, IH.
Qed.

Lemma symbols_flat_map {A} (f : A -> list record) l :
  symbols (flat_map f l) = flat_map (fun x => symbols (f x)) l.
Proof. apply flat_map_flat_map. Qed.

Lemma edges_flat_map {A} (f : A -> list record) l :
  edges (flat_map f l) = flat_map (fun x => edges (f x)) l.
Proof. apply flat_map_flat_map. Qed.

Lemma flat_map_nil_ext {A B} (f : A -> list B) l :
  Forall (fun x => f x = []) l -> flat_map f l = [].
Proof. induction 1 as [| x r Hx _ IH]; simpl; [| rewrite Hx, IH]; auto. Qed.

Lemma Forall_app_intro {A} (Q : A -> Prop) l1 l2 :
  Forall Q l1 -> Forall Q l2 -> Forall Q (l1 ++ l2).
Proof. intros. apply Forall_app. now split. Qed.

Lemma Forall_flat_map {A B} (Q : B -> Prop) (f : A -> list B) l :
  Forall (fun x => Forall Q (f x)) l -> Forall Q (flat_map f l).
Proof.
  induction 1 as [| x r Hx _ IH]; simpl; [constructor |].
  apply Forall_app; auto.
Qed.


Section Symbols.
Variable file_rel : string.
Variable mod_id : string.

Lemma call_head_out_symbols func :
  symbols (call_head_out file_rel mod_id func) = [].
Proof.
  unfold call_head_out.
  destruct (callee_name func) as [n |]; [destruct (truthy n) |]; reflexivity.
Qed.

Lemma call_head_out_edges func :
  edges (call_head_out file_rel mod_id func) = [].
Proof.
  unfold call_head_out.
  destruct (callee_name func) as [n |]; [destruct (truthy n) |]; reflexivity.
Qed.

Lemma expr_out_symbols e : symbols (expr_out file_rel mod_id e) = [].
Proof.
  induction e as [i p | value a IH | func args IHf IHa | elts IH
                 | value slice IHv IHs | children IH]
    using expr_nested_ind; simpl; auto.
  - now rewrite !symbols_app, IHf, call_head_out_symbols, symbols_flat_map,
      (flat_map_nil_ext _ args IHa).
  - rewrite symbols_flat_map. now apply flat_map_nil_ext.
  - now rewrite symbols_app, IHv, IHs.
  - rewrite symbols_flat_map. now apply flat_map_nil_ext.
Qed.

Lemma exprs_out_symbols l :
  symbols (flat_map (expr_out file_rel mod_id) l) = [].
Proof.
  rewrite symbols_flat_map.
  apply flat_map_nil_ext, Forall_forall.
  intros e _. apply expr_out_symbols.
Qed.

Lemma expr_out_edges e : edges (expr_out file_rel mod_id e) = [].
Proof.
  induction e as [i p | value a IH | func args IHf IHa | elts IH
                 | value slice IHv IHs | children IH]
    using expr_nested_ind; simpl; auto.
  - now rewrite !edges_app, IHf, call_head_out_edges, edges_flat_map,
      (flat_map_nil_ext _ args IHa).
  - rewrite edges_flat_map. now apply flat_map_nil_ext.
  - now rewrite edges_app, IHv, IHs.
  - rewrite edges_flat_map. now apply flat_map_nil_ext.
Qed.

(** Every record a visit writes satisfies [Q], when the calls, the edges
    and the symbols of each kind do, on the positions that pass [okp]. *)
Section EveryRecord.
Variable okp : pos -> bool.
Variable Q : record -> Prop.
Hypothesis Q_call : forall n, Q (RCall n file_rel mod_id).
Hypothesis Q_edge : forall a t b, Q (REdge a t b).
Hypothesis Q_function :
  forall n p, okp p = true -> Q (RSymbol (function_symbol file_rel n p)).
Hypothesis Q_class :
  forall n p, okp p = true -> Q (RSymbol (class_symbol file_rel n p)).
Hypothesis Q_method :
  forall k n p, okp p = true -> Q (RSymbol (method_symbol file_rel k n p)).
Hypothesis Q_variable :
  forall n p, okp p = true -> Q (RSymbol (variable_symbol file_rel n p)).
Hypothesis Q_pseudo : forall spec, Q (RSymbol (pseudo_module spec)).

Lemma expr_out_records e : Forall Q (expr_out file_rel mod_id e).
Proof.
  induction e as [i p | value a IH | func args IHf IHa | elts IH
                 | value slice IHv IHs | children IH]
    using expr_nested_ind; simpl; auto using Forall_flat_map.
  - repeat apply Forall_app_intro; auto using Forall_flat_map.
    unfold call_head_out.
    destruct (callee_name func) as [n |]; [destruct (truthy n) |]; auto.
  - apply Forall_app_intro; auto.
Qed.

Lemma exprs_out_records l :
  Forall Q (flat_map (expr_out file_rel mod_id) l).
Proof.
  apply Forall_flat_map, Forall_forall.
  intros e _. apply expr_out_records.
Qed.

Lemma stmt_out_records s :
  stmt_ok okp s = true -> Forall Q (stmt_out file_rel mod_id s).
Proof.
  induction s as [n p args body rest IHb | n p bases body rest IHb
                 | targets value | names | module names level
                 | children IHc] using stmt_nested_ind; simpl; intros Hok.
  - apply andb_prop in Hok as [Hp Hb].
    rewrite forallb_forall in Hb. rewrite Forall_forall in IHb.
    repeat constructor; auto.
    repeat apply Forall_app_intro; auto using exprs_out_records.
    apply Forall_flat_map, Forall_forall. auto.
  - apply andb_prop in Hok as [Hp Hb].
    rewrite forallb_forall in Hb. rewrite Forall_forall in IHb.
    repeat constructor; auto.
    repeat apply Forall_app_intro; auto using exprs_out_records.
    + apply Forall_flat_map, Forall_forall. intros b Hin.
      specialize (Hb b Hin).
      destruct b; simpl; repeat constructor; auto.
      apply Q_method. simpl in Hb. now apply andb_prop in Hb as [Hb _].
    + apply Forall_flat_map, Forall_forall. auto.
  - repeat apply Forall_app_intro;
      auto using exprs_out_records, expr_out_records.
    destruct targets as [| [] ts]; simpl; repeat constructor; auto.
  - apply Forall_flat_map, Forall_forall. intros a _.
    repeat constructor; auto.
  - repeat constructor; auto.
  - apply Forall_flat_map.
    rewrite forallb_forall in Hok.
    rewrite Forall_forall in IHc |- *. intros [e | s] Hin; simpl.
    + apply expr_out_records.
    + apply (IHc _ Hin), (Hok _ Hin).
Qed.
End EveryRecord.
End Symbols.

Lemma stmt_ok_true s : stmt_ok (fun _ => true) s = true.
Proof.
  induction s as [n p args body rest IHb | n p bases body rest IHb
                 | targets value | names | module names level
                 | children IHc] using stmt_nested_ind; simpl; auto.
  - apply forallb_forall. now rewrite Forall_forall in IHb.
  - apply forallb_forall. now rewrite Forall_forall in IHb.
  - now destruct targets as [| [] ts].
  - apply forallb_forall. rewrite Forall_forall in IHc.
    intros [e | s] Hin; simpl; [reflexivity | apply (IHc _ Hin)].
Qed.

(** A call writes nothing, or the records of the parsed file. *)
Lemma written_cases L fs root path out :
  written out (ingest_file L fs root path out) = []
  \/ exists body,
      written out (ingest_file L fs root path out)
      = file_records (norm_path (relpath L path root)) body.
Proof.
  unfold ingest_file.
  destruct (fs path) as [src |];
    [destruct (ast_parse L src path) as [body | |] |];
    unfold written;
    rewrite ?ingest_tree_stdout, ?written_app, ?written_nothing; eauto.
Qed.

(** ** Symbol ids (C1) *)

Lemma file_records_symbols file_rel body :
  symbols (file_records file_rel body)
  = module_symbol file_rel
    :: symbols (flat_map (stmt_out file_rel (module_id file_rel)) body).
Proof.
  unfold file_records. simpl. rewrite symbols_app. simpl.
  now rewrite app_nil_r.
Qed.

Lemma Forall_symbols (Q : symbol -> Prop) rs :
  Forall (fun r => match r with RSymbol sym => Q sym | _ => True end) rs ->
  Forall Q (symbols rs).
Proof.
  induction 1 as [| r rs Hr _ IH]; simpl; [constructor |].
  destruct r; simpl; auto.
Qed.

Lemma stmts_out_records file_rel mod_id okp (Q : record -> Prop) body :
  (forall s, stmt_ok okp s = true -> Forall Q (stmt_out file_rel mod_id s)) ->
  forallb (stmt_ok okp) body = true ->
  Forall Q (flat_map (stmt_out file_rel mod_id) body).
Proof.
  intros H Hok. rewrite forallb_forall in Hok.
  apply Forall_flat_map, Forall_forall. auto.
Qed.

Lemma forallb_stmt_ok_true body : forallb (stmt_ok (fun _ => true)) body = true.
Proof. apply forallb_forall. intros s _. apply stmt_ok_true. Qed.

Lemma visited_symbols_tuple_id file_rel mod_id body :
  Forall (fun sym => id sym = tuple_id sym)
         (symbols (flat_map (stmt_out file_rel mod_id) body)).
Proof.
  apply Forall_symbols.
  apply (stmts_out_records file_rel mod_id (fun _ => true));
    [| apply forallb_stmt_ok_true].
  intros s. apply stmt_out_records; try reflexivity; auto.
Qed.

(** C1 as stated does not hold: the module root symbol of a file has the
    language tag, not its name, in the second place of the hashed tuple.
    For the empty file repo/empty.py the root symbol has id
    make_id(module, python, empty.py, 1, 1), which is not the hash of its
    tuple (module, empty.py, empty.py, 1, 1). *)
Lemma C1_counterexample :
  exists sym,
    In (RSymbol sym)
       (written [] (ingest_file example_lib example_fs "repo" "repo/empty.py" []))
    /\ kind sym = "module" /\ name sym = "empty.py"
    /\ id sym = "d3d5037a9a3e62da"
    /\ tuple_id sym = "e88034d1cda40337"
    /\ id sym <> tuple_id sym.
Proof.
  exists (module_symbol "empty.py").
  split; [vm_compute; left; reflexivity |].
  vm_compute. repeat split; try reflexivity; discriminate.
Qed.

(** C1, amended: the first record written for a file is its module root
    symbol, whose id is make_id(module, python, file, 1, 1); every other
    symbol written for the file (function, class, method, variable and
    pseudo-module) has the id make_id gives to its tuple
    (kind, name, file, line, column). *)
Theorem C1_symbol_ids L fs root path out src body :
  fs path = Some src ->
  ast_parse L src path = Parsed body ->
  let file_rel := norm_path (relpath L path root) in
  exists rest,
    written out (ingest_file L fs root path out)
    = RSymbol (module_symbol file_rel) :: rest
    /\ id (module_symbol file_rel)
       = make_id [PStr "module"; PStr "python"; PStr file_rel; PInt 1; PInt 1]
    /\ Forall (fun sym => id sym = tuple_id sym) (symbols rest).
Proof.
  intros Hr Hp file_rel.
  rewrite (ingest_file_parsed _ _ _ _ _ _ _ Hr Hp). simpl written.
  rewrite written_app. unfold file_records. fold file_rel.
  eexists. split; [reflexivity |]. split; [reflexivity |].
  rewrite symbols_app. simpl. rewrite app_nil_r.
  apply visited_symbols_tuple_id.
Qed.

Lemma C1_symbol_ids_witness :
  exists rest,
    written [] (ingest_file example_lib example_fs "repo" "repo/a.src" [])
    = RSymbol (module_symbol "a.src") :: rest
    /\ id (module_symbol "a.src")
       = make_id [PStr "module"; PStr "python"; PStr "a.src"; PInt 1; PInt 1]
    /\ Forall (fun sym => id sym = tuple_id sym) (symbols rest).
Proof.
  apply (C1_symbol_ids example_lib example_fs "repo" "repo/a.src" []
           "scenario" scenario_tree); reflexivity.
Defined.

(** ** Determinism (C3) *)

(** C3: what a run of [ingest_file] writes for a path is the same whatever
    stands on the output already and whatever else the file system holds:
    two runs on the same content at the same path write the same sequence
    of symbol ids. *)
Theorem C3_same_ids L (fs1 fs2 : filesystem) root path out1 out2 :
  fs1 path = fs2 path ->
  symbol_ids (written out1 (ingest_file L fs1 root path out1))
  = symbol_ids (written out2 (ingest_file L fs2 root path out2)).
Proof.
  intros Hfs. unfold ingest_file. rewrite Hfs.
  destruct (fs2 path) as [src |]; [destruct (ast_parse L src path) |];
    unfold written;
    rewrite ?ingest_tree_stdout, ?written_app, ?written_nothing; reflexivity.
Qed.

Lemma C3_same_ids_witness :
  symbol_ids (written [] (ingest_file example_lib example_fs
                            "repo" "repo/a.src" []))
  = symbol_ids
      (written [RCall "g" "b.py" "0"]
         (ingest_file example_lib
            (fun p => if String.eqb p "repo/a.src" then Some "scenario"
                      else Some "")
            "repo" "repo/a.src" [RCall "g" "b.py" "0"])).
Proof.
  apply (C3_same_ids example_lib example_fs _ "repo" "repo/a.src").
  reflexivity.
Defined.

(** ** Files that cannot be read or parsed (C5) *)

(** C5: when reading the file fails, or parsing it ends in a syntax error,
    [ingest_file] returns with the output as it was: no record of any kind
    is written. *)
Theorem C5_skipped_file L (fs : filesystem) root path out :
  fs path = None
  \/ (exists src, fs path = Some src /\ ast_parse L src path = SyntaxError) ->
  ingest_file L fs root path out = Returned out
  /\ written out (ingest_file L fs root path out) = [].
Proof.
  intros [Hr | (src & Hr & Hp)]; unfold ingest_file; rewrite Hr;
    [| rewrite Hp]; simpl; (split; [reflexivity | apply written_nothing]).
Qed.

Lemma C5_skipped_file_witness :
  (ingest_file example_lib example_fs "repo" "repo/bad.py" [] = Returned []
   /\ written [] (ingest_file example_lib example_fs "repo" "repo/bad.py" [])
      = [])
  /\ (ingest_file example_lib example_fs "repo" "repo/gone.py" [] = Returned []
      /\ written [] (ingest_file example_lib example_fs "repo" "repo/gone.py" [])
         = []).
Proof.
  split.
  - apply (C5_skipped_file example_lib example_fs "repo" "repo/bad.py" []).
    right. exists "def (". split; reflexivity.
  - apply (C5_skipped_file example_lib example_fs "repo" "repo/gone.py" []).
    left. reflexivity.
Defined.

(** ** The end-to-end scenario (C2) *)

(** C2 as stated does not hold: for the file repo/a.src (a function f and
    a class C with one method m) the stream has five symbols and four
    edges, not four and three.  The method m is written a second time, as
    a function symbol with a defines edge from the module. *)
Lemma C2_counterexample :
  let w := written [] (ingest_file example_lib example_fs "repo" "repo/a.src" []) in
  let fm := function_symbol "a.src" "m" (pos_at 3 4 3 21) in
  map (fun sym => (kind sym, name sym)) (symbols w)
  = [("module", "a.src"); ("function", "f"); ("class", "C");
     ("method", "m"); ("function", "m")]
  /\ In (RSymbol fm) w
  /\ In (REdge (module_id "a.src") "defines" (id fm)) w
  /\ List.length (symbols w) = 5%nat
  /\ List.length (edges w) = 4%nat.
Proof.
  vm_compute. repeat split; auto 12.
Qed.

(** C2, amended: ingesting a file at relative path a.src that consists of
    a top-level function f and a class C with a single method m writes
    exactly: the module symbol with file a.src; the function symbol f and
    a defines edge module to f; the class symbol C and a defines edge
    module to C; the method symbol m with parentId the id of C and a
    member_of edge C to m; a function symbol m and a defines edge module
    to it; and last the name_index record of a.src, with the entry f for
    the function f and the entry m for the method and the function m, and
    no entry for C.  Nothing else is written. *)
Theorem C2_scenario_records L fs root path out src pf pc pm :
  fs path = Some src ->
  ast_parse L src path = Parsed (scenario pf pc pm) ->
  norm_path (relpath L path root) = "a.src" ->
  let ms := module_symbol "a.src" in
  let f := function_symbol "a.src" "f" pf in
  let c := class_symbol "a.src" "C" pc in
  let m := method_symbol "a.src" c "m" pm in
  let fm := function_symbol "a.src" "m" pm in
  written out (ingest_file L fs root path out)
  = [RSymbol ms;
     RSymbol f; REdge (id ms) "defines" (id f);
     RSymbol c; REdge (id ms) "defines" (id c);
     RSymbol m; REdge (id c) "member_of" (id m);
     RSymbol fm; REdge (id ms) "defines" (id fm);
     RNameIndex "a.src" [("f", [f]); ("m", [m; fm])]]
  /\ file ms = "a.src" /\ kind ms = "module"
  /\ parentId m = Some (id c)
  /\ dict_get "C" [("f", [f]); ("m", [m; fm])] = None.
Proof.
  intros Hr Hp Hrel.
  rewrite (ingest_file_parsed _ _ _ _ _ _ _ Hr Hp), Hrel.
  unfold written. rewrite written_app.
  repeat split; reflexivity.
Qed.

Lemma C2_scenario_records_witness :
  let pf := pos_at 1 0 1 13 in
  let pc := pos_at 2 0 3 21 in
  let pm := pos_at 3 4 3 21 in
  let ms := module_symbol "a.src" in
  let f := function_symbol "a.src" "f" pf in
  let c := class_symbol "a.src" "C" pc in
  let m := method_symbol "a.src" c "m" pm in
  let fm := function_symbol "a.src" "m" pm in
  written [] (ingest_file example_lib example_fs "repo" "repo/a.src" [])
  = [RSymbol ms;
     RSymbol f; REdge (id ms) "defines" (id f);
     RSymbol c; REdge (id ms) "defines" (id c);
     RSymbol m; REdge (id c) "member_of" (id m);
     RSymbol fm; REdge (id ms) "defines" (id fm);
     RNameIndex "a.src" [("f", [f]); ("m", [m; fm])]]
  /\ file ms = "a.src" /\ kind ms = "module"
  /\ parentId m = Some (id c)
  /\ dict_get "C" [("f", [f]); ("m", [m; fm])] = None.
Proof.
  apply (C2_scenario_records example_lib example_fs "repo" "repo/a.src" []
           "scenario"); reflexivity.
Defined.

(** ** Edges and calls refer to what was written before (C4) *)

Lemma edges_linked_mono seen seen' rs :
  incl seen seen' -> edges_linked seen rs -> edges_linked seen' rs.
Proof.
  revert seen seen'.
  induction rs as [| r rs IH]; intros seen seen' Hincl; simpl; [auto |].
  destruct r.
  - apply IH. intros x [<- | Hx]; [now left | right; auto].
  - intros (Ha & Hb & Hrs). repeat split; auto. now apply (IH seen).
  - now apply IH.
  - now apply IH.
Qed.

Lemma edges_linked_app seen a b :
  edges_linked seen a -> linked_above seen b -> edges_linked seen (a ++ b).
Proof.
  revert seen.
  induction a as [| r a IH]; intros seen Ha Hb; simpl.
  - apply Hb, incl_refl.
  - destruct r; simpl in Ha.
    + apply IH; [exact Ha |].
      intros seen' Hincl. apply Hb.
      intros x Hx. apply Hincl. now right.
    + destruct Ha as (H1 & H2 & Ha). auto.
    + auto.
    + auto.
Qed.

Lemma linked_above_app base a b :
  linked_above base a -> linked_above base b -> linked_above base (a ++ b).
Proof.
  intros Ha Hb seen Hincl.
  apply edges_linked_app; [now apply Ha |].
  intros seen' Hincl'. apply Hb. eapply incl_tran; eassumption.
Qed.

Lemma linked_above_flat_map {A} base (f : A -> list record) l :
  Forall (fun x => linked_above base (f x)) l ->
  linked_above base (flat_map f l).
Proof.
  induction 1 as [| x r Hx _ IH]; simpl.
  - intros seen _. exact I.
  - now apply linked_above_app.
Qed.

Lemma linked_above_weaken base base' rs :
  incl base base' -> linked_above base rs -> linked_above base' rs.
Proof.
  intros Hincl H seen Hseen. apply H. eapply incl_tran; eassumption.
Qed.

Lemma linked_above_no_edges base rs : edges rs = [] -> linked_above base rs.
Proof.
  intros He seen _. revert seen.
  induction rs as [| r rs IH]; intros seen; simpl; [exact I |].
  destruct r; simpl in He; try discriminate; auto.
Qed.

Lemma linked_above_symbol_edge base sym a t :
  In a base ->
  linked_above base [RSymbol sym; REdge a t (id sym)].
Proof.
  intros Ha seen Hincl. simpl. repeat split; auto.
Qed.

Lemma linked_above_cons_symbol base sym rs :
  linked_above (id sym :: base) rs -> linked_above base (RSymbol sym :: rs).
Proof.
  intros H seen Hincl. simpl. apply H.
  intros x [-> | Hx]; [now left | right; auto].
Qed.

Section Linked.
Variable file_rel : string.
Variable mod_id : string.

Lemma exprs_out_linked base l :
  linked_above base (flat_map (expr_out file_rel mod_id) l).
Proof.
  apply linked_above_flat_map, Forall_forall. intros e _.
  apply linked_above_no_edges, expr_out_edges.
Qed.

Lemma stmt_out_linked s : linked_above [mod_id] (stmt_out file_rel mod_id s).
Proof.
  induction s as [n p args body rest IHb | n p bases body rest IHb
                 | targets value | names | module names level
                 | children IHc] using stmt_nested_ind; simpl.
  - apply (linked_above_app _ [_; _]);
      [apply linked_above_symbol_edge; now left |].
    repeat apply linked_above_app; try apply exprs_out_linked.
    now apply linked_above_flat_map.
  - apply linked_above_cons_symbol.
    apply (linked_above_app _ [_]).
    { intros seen Hincl. simpl. repeat split; apply Hincl; simpl; auto. }
    apply linked_above_app.
    + apply linked_above_flat_map, Forall_forall. intros b _.
      destruct b; simpl; try (intros seen _; exact I).
      apply linked_above_symbol_edge. now left.
    + apply (linked_above_weaken [mod_id]);
        [intros x [-> | []]; right; now left |].
      repeat apply linked_above_app; try apply exprs_out_linked.
      now apply linked_above_flat_map.
  - repeat apply linked_above_app; try apply exprs_out_linked.
    + destruct targets as [| [] ts]; simpl; try (intros seen _; exact I).
      apply linked_above_symbol_edge. now left.
    + apply linked_above_no_edges, expr_out_edges.
  - apply linked_above_flat_map, Forall_forall. intros a _.
    apply linked_above_symbol_edge. now left.
  - apply linked_above_symbol_edge. now left.
  - apply linked_above_flat_map.
    rewrite Forall_forall in IHc |- *. intros [e | s] Hin; simpl.
    + apply linked_above_no_edges, expr_out_edges.
    + apply (IHc _ Hin).
Qed.
End Linked.

Lemma file_records_linked file_rel body :
  edges_linked [] (file_records file_rel body).
Proof.
  assert (H : linked_above [module_id file_rel]
                (flat_map (stmt_out file_rel (module_id file_rel)) body
                 ++ [RNameIndex file_rel
                       (index_of (flat_map (stmt_idx file_rel) body))])).
  { apply linked_above_app.
    - apply linked_above_flat_map, Forall_forall. intros s _.
      apply stmt_out_linked.
    - intros seen _. exact I. }
  exact (H _ (incl_refl _)).
Qed.

Lemma edges_linked_split seen pre a t b post :
  edges_linked seen (pre ++ REdge a t b :: post) ->
  In a (symbol_ids pre ++ seen) /\ In b (symbol_ids pre ++ seen).
Proof.
  revert seen.
  induction pre as [| r pre IH]; intros seen H; simpl in H.
  - simpl. tauto.
  - destruct r; try (now apply IH).
    apply IH in H. unfold symbol_ids in *. simpl.
    rewrite !in_app_iff in H. simpl in H. rewrite !in_app_iff.
    tauto.
Qed.

Lemma file_records_calls file_rel body c f m :
  In (RCall c f m) (file_records file_rel body) ->
  f = file_rel /\ m = module_id file_rel.
Proof.
  unfold file_records. intros [H | H]; [discriminate |].
  apply in_app_or in H as [H | [H | []]]; [| discriminate].
  assert (HQ : Forall (fun r => match r with
                                | RCall _ f' m' =>
                                    f' = file_rel /\ m' = module_id file_rel
                                | _ => True
                                end)
                      (flat_map (stmt_out file_rel (module_id file_rel)) body)).
  { apply (stmts_out_records file_rel _ (fun _ => true));
      [| apply forallb_stmt_ok_true].
    intros s. apply stmt_out_records; simpl; auto. }
  rewrite Forall_forall in HQ. apply (HQ _ H).
Qed.

(** C4: in what [ingest_file] writes for a file, the two ends of every
    edge are ids of symbols written before the edge, and the modId of
    every call is the id of the module symbol, which is the first record
    written. *)
Theorem C4_edges_and_calls L fs root path out :
  let w := written out (ingest_file L fs root path out) in
  (forall pre a t b post,
      w = pre ++ REdge a t b :: post ->
      In a (symbol_ids pre) /\ In b (symbol_ids pre))
  /\ (forall c f m,
         In (RCall c f m) w ->
         exists ms rest,
           w = RSymbol ms :: rest /\ kind ms = "module" /\ m = id ms).
Proof.
  intros w. subst w.
  destruct (written_cases L fs root path out) as [-> | (body & ->)]; split.
  - intros [| ? ?] ? ? ? ? H; discriminate.
  - intros ? ? ? [].
  - intros pre a t b post H.
    pose proof (file_records_linked (norm_path (relpath L path root)) body)
      as Hl.
    rewrite H in Hl. apply edges_linked_split in Hl.
    now rewrite !app_nil_r in Hl.
  - intros c f m H. apply file_records_calls in H as [_ ->].
    eexists _, _. split; [reflexivity |]. split; reflexivity.
Qed.

Lemma C4_edges_and_calls_witness :
  (In (module_id "a.src")
      (symbol_ids [RSymbol (module_symbol "a.src");
                   RSymbol (function_symbol "a.src" "f" (pos_at 1 0 1 13))])
   /\ In (id (function_symbol "a.src" "f" (pos_at 1 0 1 13)))
         (symbol_ids [RSymbol (module_symbol "a.src");
                      RSymbol (function_symbol "a.src" "f" (pos_at 1 0 1 13))]))
  /\ (exists ms rest,
         written [] (ingest_file example_lib example_fs "repo" "repo/call.py" [])
         = RSymbol ms :: rest
         /\ kind ms = "module" /\ module_id "call.py" = id ms).
Proof.
  split.
  - apply (proj1 (C4_edges_and_calls example_lib example_fs
                    "repo" "repo/a.src" [])
             _ _ "defines" _
             (skipn 3 (written [] (ingest_file example_lib example_fs
                                     "repo" "repo/a.src" [])))).
    reflexivity.
  - apply (proj2 (C4_edges_and_calls example_lib example_fs
                    "repo" "repo/call.py" [])
             "print" "call.py" (module_id "call.py")).
    right. left. reflexivity.
Defined.

(** ** Imports (C6, C7) *)

Lemma emitted_visit_stmt file_rel mod_id s st :
  emitted (visit_stmt file_rel mod_id s) st = stmt_out file_rel mod_id s.
Proof. apply (emitted_framed _ _ _ _ (visit_stmt_framed file_rel mod_id s)). Qed.

(** What [visit_ImportFrom] writes: one pseudo-module symbol and one import
    edge, for the specifier it computes. *)
Lemma visit_ImportFrom_emitted file_rel mod_id module names level st :
  emitted (visit_stmt file_rel mod_id (ImportFrom module names level)) st
  = [RSymbol (pseudo_module (import_from_spec module level));
     REdge mod_id "import" (id (pseudo_module (import_from_spec module level)))].
Proof. now rewrite emitted_visit_stmt. Qed.

(** The specifier computed for a named module and a level: the module
    path first, the dots after it. *)
Lemma import_from_spec_named m l :
  truthy m = true -> 0 <= l ->
  import_from_spec (Some m) (Some l) = String.append m (dots l).
Proof.
  intros Hm Hl. unfold import_from_spec. rewrite Hm.
  destruct (Z.eqb_spec l 0) as [-> |]; reflexivity.
Qed.

(** C6 on the first line of example/py/beta.py, [from .utils import greet]
    (module utils, level 1): the specifier computed is the module path
    followed by the dot, not the dot followed by the module path, and the
    pseudo-module symbol and the import edge written are those of that
    specifier. *)
Lemma C6_relative_import_specifier :
  import_from_spec (Some "utils") (Some 1) = "utils."
  /\ String.append (dots 1) "utils" = ".utils"
  /\ import_from_spec (Some "utils") (Some 1) <> String.append (dots 1) "utils"
  /\ emitted (visit_stmt "beta.py" (module_id "beta.py") beta_import)
             {| stdout := []; name_index := [] |}
     = [RSymbol (pseudo_module "utils.");
        REdge (module_id "beta.py") "import" (id (pseudo_module "utils."))]
  /\ name (pseudo_module "utils.") = "utils.".
Proof.
  repeat split; try reflexivity.
  vm_compute. discriminate.
Qed.

Lemma import_symbols file_rel mod_id s st :
  is_import s ->
  symbols (emitted (visit_stmt file_rel mod_id s) st)
  = map pseudo_module (specifiers s).
Proof.
  intros Hs. rewrite emitted_visit_stmt.
  destruct s; simpl in Hs; try contradiction; simpl; [| reflexivity].
  induction names as [| a r IH]; simpl; [reflexivity |].
  f_equal. exact IH.
Qed.

(** C7: the pseudo-module symbols written for import statements, in
    whatever file, run and state, have ids that depend on the specifier
    alone: two of them with the same specifier have the same id, the hash
    of (module, specifier, specifier, 1, 1). *)
Theorem C7_pseudo_module_ids
    file_rel1 mod_id1 st1 s1 file_rel2 mod_id2 st2 s2 y1 y2 :
  is_import s1 -> is_import s2 ->
  In y1 (symbols (emitted (visit_stmt file_rel1 mod_id1 s1) st1)) ->
  In y2 (symbols (emitted (visit_stmt file_rel2 mod_id2 s2) st2)) ->
  name y1 = name y2 ->
  id y1 = id y2
  /\ kind y1 = "module"
  /\ In (name y1) (specifiers s1)
  /\ id y1 = make_id [PStr "module"; PStr (name y1); PStr (name y1);
                      PInt 1; PInt 1].
Proof.
  intros H1 H2 Hy1 Hy2 Hname.
  rewrite import_symbols in Hy1, Hy2 by assumption.
  apply in_map_iff in Hy1 as (spec1 & <- & Hin1).
  apply in_map_iff in Hy2 as (spec2 & <- & Hin2).
  simpl in Hname. subst spec2. auto.
Qed.

Lemma C7_pseudo_module_ids_witness :
  id (pseudo_module "utils.") = id (pseudo_module "utils.")
  /\ kind (pseudo_module "utils.") = "module"
  /\ In (name (pseudo_module "utils."))
        (specifiers (Import [{| alias_name := "os"; asname := None |};
                             {| alias_name := "utils."; asname := None |}]))
  /\ id (pseudo_module "utils.")
     = make_id [PStr "module"; PStr (name (pseudo_module "utils."));
                PStr (name (pseudo_module "utils.")); PInt 1; PInt 1].
Proof.
  apply (C7_pseudo_module_ids
           "a.py" (module_id "a.py") {| stdout := []; name_index := [] |}
           (Import [{| alias_name := "os"; asname := None |};
                    {| alias_name := "utils."; asname := None |}])
           "beta.py" (module_id "beta.py")
           {| stdout := [RCall "g" "beta.py" (module_id "beta.py")];
              name_index := [] |}
           beta_import
           (pseudo_module "utils.") (pseudo_module "utils."));
    try exact I; try reflexivity.
  - right. left. reflexivity.
  - left. reflexivity.
Defined.

(** ** Assignments (C8) *)



(** ** Ranges (C9) *)

Lemma range_of_one_based p : pos_ok p = true -> one_based (range_of p).
Proof.
  unfold pos_ok, one_based, range_of. intros H.
  apply andb_prop in H as [H Hec]. apply andb_prop in H as [H Hel].
  apply andb_prop in H as [Hl Hc].
  apply Z.leb_le in Hl, Hc. simpl.
  split; [lia |]. split; [lia |]. split.
  - destruct (end_lineno p) as [| [v |]]; simpl in *; try discriminate.
    + eexists; split; [reflexivity | lia].
    + apply Z.leb_le in Hel. eauto.
  - destruct (end_col_offset p) as [| [v |]]; simpl in *; try discriminate.
    + eexists; split; [reflexivity | lia].
    + apply Z.leb_le in Hec. eauto.
Qed.

Lemma range_1_1_one_based : one_based range_1_1.
Proof.
  unfold one_based; simpl.
  split; [lia |]. split; [lia |].
  split; exists 1; split; (reflexivity || lia).
Qed.

(** Where the end attributes are missing, the end of the range is its
    start. *)
Lemma range_of_missing_end p :
  end_lineno p = Missing -> end_col_offset p = Missing ->
  endLine (range_of p) = Some (startLine (range_of p))
  /\ endCol (range_of p) = Some (startCol (range_of p)).
Proof. unfold range_of. intros -> ->. split; reflexivity. Qed.

(** An end attribute that is there and holds [None] is passed on as it
    is: [getattr] takes its default only for a missing attribute.  The
    parser never builds such a node. *)
Remark range_of_none_end p :
  end_lineno p = Present None -> endLine (range_of p) = None.
Proof. unfold range_of. now intros ->. Qed.

(** ** Methods are written twice (C10) *)

Lemma dict_get_setdefault_append k k' v d :
  dict_get k (setdefault_append k' v d)
  = if String.eqb k' k
    then Some (match dict_get k d with Some vs => vs | None => [] end ++ [v])
    else dict_get k d.
Proof.
  induction d as [| [k0 vs] r IH]; simpl.
  - destruct (String.eqb k' k); reflexivity.
  - destruct (String.eqb_spec k0 k') as [-> | Hne]; simpl.
    + destruct (String.eqb k' k); reflexivity.
    + destruct (String.eqb_spec k0 k) as [-> | Hne'].
      * destruct (String.eqb_spec k' k) as [-> | _]; [congruence | reflexivity].
      * exact IH.
Qed.

Lemma dict_get_fold k idx d :
  dict_get k (fold_left (fun d e => setdefault_append (fst e) (snd e) d) idx d)
  = match entries_for k idx with
    | [] => dict_get k d
    | es => Some (match dict_get k d with Some vs => vs | None => [] end ++ es)
    end.
Proof.
  revert d.
  induction idx as [| [k' v] r IH]; intros d; simpl; [reflexivity |].
  rewrite IH, dict_get_setdefault_append. unfold entries_for. simpl.
  destruct (String.eqb k' k); simpl; [| reflexivity].
  destruct (map snd (filter _ r)); [reflexivity |].
  now rewrite <- app_assoc.
Qed.



Section Occurs.
Variable file_rel : string.
Variable mod_id : string.




End Occurs.



(** ** The identifier generator: shape and collisions *)

Lemma append_length a b :
  String.length (String.append a b) = (String.length a + String.length b)%nat.
Proof. induction a; simpl; auto. Qed.

Lemma append_assoc a b c :
  String.append (String.append a b) c = String.append a (String.append b c).
Proof. induction a; simpl; [reflexivity | now f_equal]. Qed.

Lemma append_empty_r a : String.append a "" = a.
Proof. induction a; simpl; [reflexivity | now f_equal]. Qed.

Lemma string_forall_append p a b :
  string_forall p (String.append a b) = string_forall p a && string_forall p b.
Proof.
  induction a as [| c a IH]; simpl; [reflexivity |].
  now rewrite IH, andb_assoc.
Qed.











Lemma fold_update_text parts h :
  fold_left (fun h p => update h (str_of_part p)) parts h
  = String.append h (text_of parts).
Proof.
  revert h. induction parts as [| p r IH]; intros h; simpl.
  - now rewrite append_empty_r.
  - rewrite IH. unfold update. apply append_assoc.
Qed.

(** X2: the parts are hashed one after the other with nothing between
    them, so two lists of parts whose strings concatenate to the same text
    get the same id, [None] counting as the empty string: a symbol at line
    1, column 11 and one of the same kind, name and file at line 11,
    column 1 share their id. *)
Theorem make_id_concatenation parts1 parts2 :
  text_of parts1 = text_of parts2 -> make_id parts1 = make_id parts2.
Proof.
  intros H.
  with_strategy transparent [make_id] unfold make_id. cbv zeta.
  now rewrite !fold_update_text, H.
Qed.

Lemma make_id_concatenation_witness :
  make_id [PStr "function"; PStr "f"; PStr "a.py"; PInt 1; PInt 11]
  = make_id [PStr "function"; PNone; PStr "fa.py"; PInt 11; PInt 1].
Proof. apply make_id_concatenation. reflexivity. Defined.

(** ** Paths *)

(** X3: [norm_path] leaves no backslash, keeps the length, changes nothing
    in a path without backslash, and is idempotent; the path of a
    concatenation is the concatenation of the paths. *)
Theorem norm_path_properties p q :
  string_forall not_backslash (norm_path p) = true
  /\ String.length (norm_path p) = String.length p
  /\ (string_forall not_backslash p = true -> norm_path p = p)
  /\ norm_path (norm_path p) = norm_path p
  /\ norm_path (String.append p q)
     = String.append (norm_path p) (norm_path q).
Proof.
  assert (Hno : forall p, string_forall not_backslash (norm_path p) = true).
  { induction p0 as [| c r IH]; simpl; [reflexivity |].
    rewrite IH, andb_true_r. unfold not_backslash.
    destruct (Ascii.eqb c "\") eqn:E; [reflexivity | now rewrite E]. }
  assert (Hid : forall p, string_forall not_backslash p = true ->
                          norm_path p = p).
  { induction p0 as [| c r IH]; simpl; [reflexivity |].
    intros H. apply andb_prop in H as [Hc Hr]. rewrite (IH Hr).
    unfold not_backslash in Hc. apply negb_true_iff in Hc. now rewrite Hc. }
  repeat split.
  - apply Hno.
  - induction p as [| c r IH]; simpl; [reflexivity | now rewrite IH].
  - apply Hid.
  - apply Hid, Hno.
  - induction p as [| c r IH]; simpl; [reflexivity | now rewrite IH].
Qed.

Lemma norm_path_properties_witness :
  norm_path "pkg/a.py" = "pkg/a.py".
Proof.
  apply (proj1 (proj2 (proj2 (norm_path_properties "pkg/a.py" "")))).
  reflexivity.
Defined.

(** ** The name index as a dictionary *)

(** X4: after [d.setdefault(k, []).append(v)] the list under [k] is the
    list that was there, or the empty list if [k] was missing, with [v] at
    its end; the list under any other key is as before. *)
Theorem setdefault_append_lookup k v d k' :
  dict_get k' (setdefault_append k v d)
  = if String.eqb k k'
    then Some (match dict_get k' d with Some vs => vs | None => [] end ++ [v])
    else dict_get k' d.
Proof. apply dict_get_setdefault_append. Qed.

Lemma keys_setdefault_append k v d :
  keys (setdefault_append k v d)
  = if existsb (String.eqb k) (keys d) then keys d else keys d ++ [k].
Proof.
  unfold keys. induction d as [| [k0 vs] r IH]; simpl; [reflexivity |].
  rewrite (String.eqb_sym k k0).
  destruct (String.eqb k0 k); simpl; [reflexivity |].
  rewrite IH. now destruct (existsb (String.eqb k) (map fst r)).
Qed.

Lemma keys_fold idx d :
  keys (fold_left (fun d e => setdefault_append (fst e) (snd e) d) idx d)
  = fold_left
      (fun acc k => if existsb (String.eqb k) acc then acc else acc ++ [k])
      (map fst idx) (keys d).
Proof.
  revert d. induction idx as [| [k v] r IH]; intros d; simpl; [reflexivity |].
  now rewrite IH, keys_setdefault_append.
Qed.

Lemma existsb_eqb_false k l : existsb (String.eqb k) l = false -> ~ In k l.
Proof.
  intros H Hin.
  assert (Ht : existsb (String.eqb k) l = true).
  { apply existsb_exists. exists k. split; [exact Hin | apply String.eqb_refl]. }
  congruence.
Qed.

Lemma first_occurrences_from l acc :
  NoDup acc ->
  let r := fold_left
             (fun acc k => if existsb (String.eqb k) acc then acc else acc ++ [k])
             l acc in
  NoDup r /\ (forall k, In k r <-> In k acc \/ In k l).
Proof.
  revert acc. induction l as [| k l IH]; intros acc Hacc; simpl.
  - split; [exact Hacc | tauto].
  - destruct (existsb (String.eqb k) acc) eqn:E.
    + destruct (IH acc Hacc) as [Hn Hin]. split; [exact Hn |].
      intros k'. rewrite Hin.
      apply existsb_exists in E as (x & Hx & Hk).
      apply String.eqb_eq in Hk. subst x.
      split; [tauto |]. intros [H | [<- | H]]; auto.
    + assert (Hacc' : NoDup (acc ++ [k])).
      { apply NoDup_app; [exact Hacc | repeat constructor; simpl; tauto |].
        intros x Hx [<- | []].
        exact (existsb_eqb_false _ _ E Hx). }
      destruct (IH _ Hacc') as [Hn Hin]. split; [exact Hn |].
      intros k'. rewrite Hin, in_app_iff. simpl. tauto.
Qed.

(** X5: [d.setdefault(k, []).append(v)] keeps the keys in their order and
    adds [k] at the end when it is new; a dictionary without repeated keys
    stays so. *)
Theorem setdefault_append_keys k v d :
  keys (setdefault_append k v d)
  = (if existsb (String.eqb k) (keys d) then keys d else keys d ++ [k])
  /\ (NoDup (keys d) -> NoDup (keys (setdefault_append k v d))).
Proof.
  split; [apply keys_setdefault_append |].
  intros Hd. rewrite keys_setdefault_append.
  destruct (existsb (String.eqb k) (keys d)) eqn:E; [exact Hd |].
  apply NoDup_app; [exact Hd | repeat constructor; simpl; tauto |].
  intros x Hx [<- | []]. exact (existsb_eqb_false _ _ E Hx).
Qed.

Lemma setdefault_append_keys_witness :
  NoDup (keys (setdefault_append "g" (pseudo_module "g")
                 [("f", [pseudo_module "f"])])).
Proof.
  apply (proj2 (setdefault_append_keys "g" (pseudo_module "g")
                  [("f", [pseudo_module "f"])])).
  repeat constructor; simpl; tauto.
Defined.

Lemma index_of_keys idx :
  keys (index_of idx) = first_occurrences (map fst idx)
  /\ NoDup (keys (index_of idx)).
Proof.
  unfold index_of. rewrite keys_fold. fold (first_occurrences (map fst idx)).
  split; [reflexivity |].
  apply (first_occurrences_from (map fst idx) [] (NoDup_nil _)).
Qed.

(** ** The shape of the stream of a file *)

Lemma paired_app m : forall a b, paired m a -> paired m b -> paired m (a ++ b).
Proof.
  fix IH 1.
  intros [| [sym | a0 t0 b0 | c f md | f idx] a] b Ha Hb; simpl in *; auto.
  - destruct a as [| [sym' | a1 t1 b1 | c f md | f idx] a']; simpl in *;
      try contradiction.
    destruct Ha as [H1 H2]. split; [exact H1 | now apply IH].
Qed.

Lemma paired_flat_map {A} m (f : A -> list record) l :
  Forall (fun x => paired m (f x)) l -> paired m (flat_map f l).
Proof.
  induction 1 as [| x r Hx _ IH]; simpl; [exact I | now apply paired_app].
Qed.

Lemma paired_symbol_edge m sym a t b rs :
  edge_fits m sym a t b -> paired m rs ->
  paired m ([RSymbol sym; REdge a t b] ++ rs).
Proof. intros H Hrs. simpl. now split. Qed.

Section Paired.
Variable file_rel : string.
Variable mod_id : string.

Lemma call_head_out_paired func :
  paired mod_id (call_head_out file_rel mod_id func).
Proof.
  unfold call_head_out.
  destruct (callee_name func) as [n |]; [destruct (truthy n) |]; exact I.
Qed.

Lemma expr_out_paired e : paired mod_id (expr_out file_rel mod_id e).
Proof.
  induction e as [i p | value a IH | func args IHf IHa | elts IH
                 | value slice IHv IHs | children IH]
    using expr_nested_ind; simpl; auto using paired_flat_map.
  - repeat apply paired_app;
      auto using paired_flat_map, call_head_out_paired.
  - now apply paired_app.
Qed.

Lemma exprs_out_paired l :
  paired mod_id (flat_map (expr_out file_rel mod_id) l).
Proof.
  apply paired_flat_map, Forall_forall. intros e _. apply expr_out_paired.
Qed.

Lemma function_edge_fits n p :
  edge_fits mod_id (function_symbol file_rel n p)
            mod_id "defines" (id (function_symbol file_rel n p)).
Proof. split; [reflexivity |]. right. right. simpl. tauto. Qed.

Lemma class_edge_fits n p :
  edge_fits mod_id (class_symbol file_rel n p)
            mod_id "defines" (id (class_symbol file_rel n p)).
Proof. split; [reflexivity |]. right. right. simpl. tauto. Qed.

Lemma variable_edge_fits n p :
  edge_fits mod_id (variable_symbol file_rel n p)
            mod_id "defines" (id (variable_symbol file_rel n p)).
Proof. split; [reflexivity |]. right. right. simpl. tauto. Qed.

Lemma method_edge_fits klass n p :
  edge_fits mod_id (method_symbol file_rel klass n p)
            (id klass) "member_of" (id (method_symbol file_rel klass n p)).
Proof. split; [reflexivity |]. left. simpl. tauto. Qed.

Lemma import_edge_fits spec :
  edge_fits mod_id (pseudo_module spec)
            mod_id "import" (id (pseudo_module spec)).
Proof. split; [reflexivity |]. right. left. simpl. tauto. Qed.

Lemma stmt_out_paired s : paired mod_id (stmt_out file_rel mod_id s).
Proof.
  induction s as [n p args body rest IHb | n p bases body rest IHb
                 | targets value | names | module names level
                 | children IHc] using stmt_nested_ind.
  - apply paired_symbol_edge; [apply function_edge_fits |].
    repeat apply paired_app; auto using exprs_out_paired, paired_flat_map.
  - apply paired_symbol_edge; [apply class_edge_fits |].
    repeat apply paired_app; auto using exprs_out_paired, paired_flat_map.
    apply paired_flat_map, Forall_forall. intros b _.
    destruct b; try exact I.
    apply (paired_symbol_edge _ _ _ _ _ []); [apply method_edge_fits | exact I].
  - change (stmt_out file_rel mod_id (Assign targets value))
      with (assign_head_out file_rel mod_id targets
            ++ flat_map (expr_out file_rel mod_id) targets
            ++ expr_out file_rel mod_id value).
    repeat apply paired_app; auto using exprs_out_paired, expr_out_paired.
    destruct targets as [| [] ts]; try exact I.
    apply (paired_symbol_edge _ _ _ _ _ []);
      [apply variable_edge_fits | exact I].
  - apply (paired_flat_map mod_id
             (fun a => import_out mod_id (alias_name a))), Forall_forall.
    intros a _.
    apply (paired_symbol_edge _ _ _ _ _ []);
      [apply import_edge_fits | exact I].
  - apply (paired_symbol_edge _ _ _ _ _ []);
      [apply import_edge_fits | exact I].
  - apply (paired_flat_map mod_id (node_out file_rel mod_id)).
    rewrite Forall_forall in IHc |- *. intros [e | s] Hin.
    + apply expr_out_paired.
    + apply (IHc _ Hin).
Qed.
End Paired.

Lemma paired_edge m rs :
  paired m rs ->
  forall pre a t b post,
    rs = pre ++ REdge a t b :: post ->
    exists pre' sym, pre = pre' ++ [RSymbol sym] /\ edge_fits m sym a t b.
Proof.
  revert rs. fix IH 1.
  intros [| [sym | a0 t0 b0 | c f md | f idx] rs] H pre a t b post E;
    simpl in H; try contradiction.
  - destruct pre; discriminate.
  - destruct rs as [| [sym' | a1 t1 b1 | c f md | f idx] rs'];
      try contradiction.
    destruct H as [Hfit Hrs].
    destruct pre as [| r0 [| r1 pre]]; simpl in E.
    + discriminate.
    + injection E as <- <- <- <- <-. exists [], sym. now split.
    + injection E as <- <- E.
      destruct (IH rs' Hrs pre a t b post E) as (pre' & sym' & -> & Hf).
      exists (RSymbol sym :: REdge a1 t1 b1 :: pre'), sym'. now split.
  - destruct pre as [| r0 pre]; simpl in E; [discriminate |].
    injection E as <- E.
    destruct (IH rs H pre a t b post E) as (pre' & sym' & -> & Hf).
    exists (RCall c f md :: pre'), sym'. now split.
Qed.

Lemma paired_symbol m rs :
  paired m rs ->
  forall pre sym post,
    rs = pre ++ RSymbol sym :: post ->
    exists a t b post', post = REdge a t b :: post' /\ edge_fits m sym a t b.
Proof.
  revert rs. fix IH 1.
  intros [| [sym0 | a0 t0 b0 | c f md | f idx] rs] H pre sym post E;
    simpl in H; try contradiction.
  - destruct pre; discriminate.
  - destruct rs as [| [sym' | a1 t1 b1 | c f md | f idx] rs'];
      try contradiction.
    destruct H as [Hfit Hrs].
    destruct pre as [| r0 [| r1 pre]]; simpl in E.
    + injection E as <- <-. exists a1, t1, b1, rs'. now split.
    + discriminate.
    + injection E as <- <- E. exact (IH rs' Hrs pre sym post E).
  - destruct pre as [| r0 pre]; simpl in E; [discriminate |].
    injection E as <- E. exact (IH rs H pre sym post E).
Qed.

Lemma paired_count m : forall rs,
  paired m rs -> List.length (edges rs) = List.length (symbols rs).
Proof.
  fix IH 1.
  intros [| [sym | a0 t0 b0 | c f md | f idx] rs] H; simpl in H;
    try contradiction; [reflexivity | | exact (IH rs H)].
  destruct rs as [| [sym' | a1 t1 b1 | c f md | f idx] rs'];
    try contradiction.
  destruct H as [_ Hrs]. simpl. f_equal. exact (IH rs' Hrs).
Qed.

Lemma paired_no_name_index m rs f idx :
  paired m rs -> ~ In (RNameIndex f idx) rs.
Proof.
  revert rs. fix IH 1.
  intros [| [sym | a0 t0 b0 | c f0 md | f0 idx0] rs] H; simpl in H;
    try contradiction; simpl.
  - tauto.
  - destruct rs as [| [sym' | a1 t1 b1 | c f0 md | f0 idx0] rs'];
      try contradiction.
    destruct H as [_ Hrs]. simpl.
    intros [E | [E | Hin]]; try discriminate. exact (IH rs' Hrs Hin).
  - intros [E | Hin]; [discriminate | exact (IH rs H Hin)].
Qed.

Lemma file_records_paired file_rel body :
  paired (module_id file_rel)
         (flat_map (stmt_out file_rel (module_id file_rel)) body).
Proof.
  apply paired_flat_map, Forall_forall. intros s _. apply stmt_out_paired.
Qed.

(** When the visit runs to its end, what is written for the file starts
    with the module symbol and ends with the name index; there is no other
    name index record, and there is one edge for every symbol but the
    module symbol. *)
Lemma full_visit_frame L fs root path out src body :
  fs path = Some src ->
  ast_parse L src path = Parsed body ->
  let file_rel := norm_path (relpath L path root) in
  exists mid idx,
    written out (ingest_file L fs root path out)
    = RSymbol (module_symbol file_rel) :: mid ++ [RNameIndex file_rel idx]
    /\ (forall f i, ~ In (RNameIndex f i) mid)
    /\ List.length (symbols (written out (ingest_file L fs root path out)))
       = S (List.length (edges (written out (ingest_file L fs root path out)))).
Proof.
  intros Hr Hp file_rel.
  rewrite (ingest_file_parsed _ _ _ _ _ _ _ Hr Hp).
  unfold written. rewrite written_app. fold file_rel. unfold file_records.
  pose proof (file_records_paired file_rel body) as Hpaired.
  eexists _, _. split; [reflexivity |]. split.
  - intros f i. now apply (paired_no_name_index (module_id file_rel)).
  - simpl. rewrite symbols_app, edges_app, !length_app. simpl.
    rewrite (paired_count _ _ Hpaired). lia.
Qed.

Lemma app_last_inv {A} (mid pre post : list A) x y :
  mid ++ [x] = pre ++ y :: post ->
  (post = [] /\ mid = pre /\ x = y)
  \/ exists post', post = post' ++ [x] /\ mid = pre ++ y :: post'.
Proof.
  intros E. induction post as [| z post' _] using rev_ind.
  - apply app_inj_tail in E as [-> ->]. now left.
  - right.
    assert (E' : mid ++ [x] = (pre ++ y :: post') ++ [z])
      by now rewrite E, <- app_assoc.
    apply app_inj_tail in E' as [-> ->]. now exists post'.
Qed.

(** X7: in what [ingest_file] writes, every edge stands right after the
    symbol it points to, and every symbol but the first is followed at
    once by its edge: a member_of edge from the class named by parentId
    for a method, an import edge from the module for a pseudo-module, a
    defines edge from the module for a function, class or variable. *)
Theorem ingest_file_symbol_edge_pairs L fs root path out :
  let w := written out (ingest_file L fs root path out) in
  let m := module_id (norm_path (relpath L path root)) in
  (forall pre a t b post,
      w = pre ++ REdge a t b :: post ->
      exists pre' sym, pre = pre' ++ [RSymbol sym] /\ edge_fits m sym a t b)
  /\ (forall r pre sym post,
         w = r :: pre ++ RSymbol sym :: post ->
         exists a t b post',
           post = REdge a t b :: post' /\ edge_fits m sym a t b).
Proof.
  intros w m. subst w m.
  destruct (written_cases L fs root path out) as [-> | (body & ->)]; split.
  - intros [| ? ?] ? ? ? ? H; discriminate.
  - intros ? ? ? ? H; discriminate.
  - intros pre a t b post E. unfold file_records in E.
    pose proof (file_records_paired (norm_path (relpath L path root)) body)
      as Hp.
    destruct pre as [| r pre]; [discriminate |].
    injection E as <- E.
    apply app_last_inv in E as [(_ & _ & E) | (post' & -> & E)];
      [discriminate |].
    destruct (paired_edge _ _ Hp _ _ _ _ _ E) as (pre' & sym & -> & Hf).
    exists (RSymbol (module_symbol (norm_path (relpath L path root))) :: pre'),
      sym.
    now split.
  - intros r pre sym post E. unfold file_records in E.
    pose proof (file_records_paired (norm_path (relpath L path root)) body)
      as Hp.
    injection E as <- E.
    apply app_last_inv in E as [(_ & _ & E) | (post' & -> & E)];
      [discriminate |].
    destruct (paired_symbol _ _ Hp _ _ _ E) as (a & t & b & post'' & -> & Hf).
    exists a, t, b, (post'' ++ [RNameIndex (norm_path (relpath L path root))
                                  (index_of
                                     (flat_map
                                        (stmt_idx
                                           (norm_path (relpath L path root)))
                                        body))]).
    now split.
Qed.

Lemma ingest_file_symbol_edge_pairs_witness :
  (exists pre' sym,
      [RSymbol (module_symbol "a.src");
       RSymbol (function_symbol "a.src" "f" (pos_at 1 0 1 13))]
      = pre' ++ [RSymbol sym]
      /\ edge_fits (module_id "a.src") sym (module_id "a.src") "defines"
           (id (function_symbol "a.src" "f" (pos_at 1 0 1 13))))
  /\ (exists a t b post',
         skipn 6 (written [] (ingest_file example_lib example_fs
                                "repo" "repo/a.src" []))
         = REdge a t b :: post'
         /\ edge_fits (module_id "a.src")
              (method_symbol "a.src"
                 (class_symbol "a.src" "C" (pos_at 2 0 3 21))
                 "m" (pos_at 3 4 3 21)) a t b).
Proof.
  split.
  - apply (proj1 (ingest_file_symbol_edge_pairs example_lib example_fs
                    "repo" "repo/a.src" [])
             _ _ "defines" _
             (skipn 3 (written [] (ingest_file example_lib example_fs
                                     "repo" "repo/a.src" [])))).
    reflexivity.
  - apply (proj2 (ingest_file_symbol_edge_pairs example_lib example_fs
                    "repo" "repo/a.src" [])
             (RSymbol (module_symbol "a.src"))
             (firstn 4 (skipn 1 (written [] (ingest_file example_lib example_fs
                                               "repo" "repo/a.src" []))))).
    reflexivity.
Defined.

(** ** The fields of the records *)

Section VisitorRecords.
Variable file_rel : string.
Variable mod_id : string.

Lemma expr_out_visitor e :
  Forall (visitor_record file_rel mod_id) (expr_out file_rel mod_id e).
Proof.
  induction e as [i p | value a IH | func args IHf IHa | elts IH
                 | value slice IHv IHs | children IH]
    using expr_nested_ind; simpl; auto using Forall_flat_map.
  - repeat apply Forall_app_intro; auto using Forall_flat_map.
    unfold call_head_out.
    destruct (callee_name func) as [n |]; [| constructor].
    destruct (truthy n) eqn:E; constructor; [| constructor].
    now apply vr_call.
  - now apply Forall_app_intro.
Qed.

Lemma exprs_out_visitor l :
  Forall (visitor_record file_rel mod_id)
         (flat_map (expr_out file_rel mod_id) l).
Proof.
  apply Forall_flat_map, Forall_forall. intros e _. apply expr_out_visitor.
Qed.

Lemma stmt_out_visitor s :
  Forall (visitor_record file_rel mod_id) (stmt_out file_rel mod_id s).
Proof.
  induction s as [n p args body rest IHb | n p bases body rest IHb
                 | targets value | names | module names level
                 | children IHc] using stmt_nested_ind.
  - apply (Forall_app_intro _ [_; _]).
    { constructor; [apply vr_function |].
      constructor; [apply vr_edge | constructor]. }
    repeat apply Forall_app_intro;
      auto using exprs_out_visitor, Forall_flat_map.
  - apply (Forall_app_intro _ [_; _]).
    { constructor; [apply vr_class |].
      constructor; [apply vr_edge | constructor]. }
    repeat apply Forall_app_intro;
      auto using exprs_out_visitor, Forall_flat_map.
    apply Forall_flat_map, Forall_forall. intros b _.
    destruct b; try (now constructor).
    constructor; [apply vr_method |].
    constructor; [apply vr_edge | constructor].
  - change (stmt_out file_rel mod_id (Assign targets value))
      with (assign_head_out file_rel mod_id targets
            ++ flat_map (expr_out file_rel mod_id) targets
            ++ expr_out file_rel mod_id value).
    repeat apply Forall_app_intro;
      auto using exprs_out_visitor, expr_out_visitor.
    destruct targets as [| [] ts]; try (now constructor).
    constructor; [apply vr_variable |].
    constructor; [apply vr_edge | constructor].
  - apply (Forall_flat_map _ (fun a => import_out mod_id (alias_name a))),
      Forall_forall.
    intros a _.
    constructor; [apply vr_pseudo |].
    constructor; [apply vr_edge | constructor].
  - constructor; [apply vr_pseudo |].
    constructor; [apply vr_edge | constructor].
  - apply (Forall_flat_map _ (node_out file_rel mod_id)).
    rewrite Forall_forall in IHc |- *. intros [e | s] Hin.
    + apply expr_out_visitor.
    + apply (IHc _ Hin).
Qed.
End VisitorRecords.

Lemma file_records_visitor file_rel body r :
  In r (file_records file_rel body) ->
  r = RSymbol (module_symbol file_rel)
  \/ visitor_record file_rel (module_id file_rel) r
  \/ exists idx, r = RNameIndex file_rel idx.
Proof.
  unfold file_records. intros [<- | H]; [now left |].
  apply in_app_or in H as [H | [<- | []]]; [| right; right; eauto].
  right. left.
  apply in_flat_map in H as (s & _ & H).
  pose proof (stmt_out_visitor file_rel (module_id file_rel) s) as Hv.
  rewrite Forall_forall in Hv. now apply Hv.
Qed.

Lemma module_symbol_fields file_rel :
  symbol_fields_ok file_rel (module_symbol file_rel).
Proof.
  unfold symbol_fields_ok; simpl.
  repeat split; auto; try discriminate; try congruence.
Qed.

Lemma visitor_symbol_fields file_rel mod_id sym :
  visitor_record file_rel mod_id (RSymbol sym) ->
  symbol_fields_ok file_rel sym.
Proof.
  intros H. inversion H; subst; unfold symbol_fields_ok; simpl;
    (split; [reflexivity |]); (split; [tauto |]);
    (split; [split; [congruence | discriminate || reflexivity] |]);
    (split; [discriminate || (intros _; split; reflexivity) |]);
    (reflexivity || congruence).
Qed.

(** X8: every symbol written for a file has language python and one of
    the five kinds; parentId is there on method symbols and on no other;
    a module symbol has its name as file and the range (1,1)-(1,1); every
    other symbol has the relative path of the file as file. *)
Theorem ingest_file_symbol_fields L fs root path out sym :
  In (RSymbol sym) (written out (ingest_file L fs root path out)) ->
  symbol_fields_ok (norm_path (relpath L path root)) sym.
Proof.
  destruct (written_cases L fs root path out) as [-> | (body & ->)];
    [intros [] |].
  intros H. apply file_records_visitor in H as [E | [H | (idx & E)]].
  - injection E as ->. apply module_symbol_fields.
  - now apply visitor_symbol_fields in H.
  - discriminate.
Qed.

Lemma ingest_file_symbol_fields_witness :
  symbol_fields_ok "a.src"
    (method_symbol "a.src" (class_symbol "a.src" "C" (pos_at 2 0 3 21))
       "m" (pos_at 3 4 3 21)).
Proof.
  apply (ingest_file_symbol_fields example_lib example_fs
           "repo" "repo/a.src" []).
  do 5 right. left. reflexivity.
Defined.

(** X9: every call record written for a file has a callee name that is
    not empty and carries the relative path of the file. *)
Theorem ingest_file_call_fields L fs root path out c f m :
  In (RCall c f m) (written out (ingest_file L fs root path out)) ->
  c <> "" /\ f = norm_path (relpath L path root).
Proof.
  destruct (written_cases L fs root path out) as [-> | (body & ->)];
    [intros [] |].
  intros H. apply file_records_visitor in H as [E | [H | (idx & E)]];
    try discriminate.
  inversion H; subst. split; [| reflexivity].
  intros ->. discriminate.
Qed.

Lemma ingest_file_call_fields_witness :
  "print" <> "" /\ "call.py" = norm_path (relpath example_lib "repo/call.py" "repo").
Proof.
  apply (ingest_file_call_fields example_lib example_fs "repo" "repo/call.py"
           [] "print" "call.py" (module_id "call.py")).
  right. left. reflexivity.
Defined.

(** ** The name index and the stream *)

Lemma indexed_app a b : indexed (a ++ b) = indexed a ++ indexed b.
Proof. unfold indexed. now rewrite symbols_app, filter_app, map_app. Qed.

Lemma indexed_flat_map {A} (f : A -> list record) l :
  indexed (flat_map f l) = flat_map (fun x => indexed (f x)) l.
Proof.
  induction l as [| x r IH]; simpl; [reflexivity |].
  now rewrite indexed_app, IH.
Qed.

Lemma indexed_symbol_edge sym a t b :
  indexed [RSymbol sym; REdge a t b]
  = if indexable sym then [(name sym, sym)] else [].
Proof. unfold indexed. simpl. now destruct (indexable sym). Qed.

Lemma flat_map_ext_in {A B} (f g : A -> list B) l :
  Forall (fun x => f x = g x) l -> flat_map f l = flat_map g l.
Proof. induction 1 as [| x r Hx _ IH]; simpl; [| rewrite Hx, IH]; auto. Qed.

Section Indexed.
Variable file_rel : string.
Variable mod_id : string.

Lemma expr_out_indexed e : indexed (expr_out file_rel mod_id e) = [].
Proof. unfold indexed. now rewrite expr_out_symbols. Qed.

Lemma exprs_out_indexed l :
  indexed (flat_map (expr_out file_rel mod_id) l) = [].
Proof. unfold indexed. now rewrite exprs_out_symbols. Qed.

Lemma method_out_indexed klass b :
  indexed (method_out file_rel klass b) = method_idx file_rel klass b.
Proof. destruct b; reflexivity. Qed.

Lemma stmt_out_indexed s :
  indexed (stmt_out file_rel mod_id s) = stmt_idx file_rel s.
Proof.
  induction s as [n p args body rest IHb | n p bases body rest IHb
                 | targets value | names | module names level
                 | children IHc] using stmt_nested_ind.
  - change (stmt_out file_rel mod_id (FunctionDef n p args body rest))
      with ([RSymbol (function_symbol file_rel n p);
             REdge mod_id "defines" (id (function_symbol file_rel n p))]
            ++ flat_map (expr_out file_rel mod_id) args
            ++ flat_map (stmt_out file_rel mod_id) body
            ++ flat_map (expr_out file_rel mod_id) rest).
    rewrite !indexed_app, !exprs_out_indexed, indexed_flat_map, app_nil_r.
    rewrite (flat_map_ext_in _ _ _ IHb). reflexivity.
  - change (stmt_out file_rel mod_id (ClassDef n p bases body rest))
      with ([RSymbol (class_symbol file_rel n p);
             REdge mod_id "defines" (id (class_symbol file_rel n p))]
            ++ flat_map (method_out file_rel (class_symbol file_rel n p)) body
            ++ flat_map (expr_out file_rel mod_id) bases
            ++ flat_map (stmt_out file_rel mod_id) body
            ++ flat_map (expr_out file_rel mod_id) rest).
    rewrite !indexed_app, !exprs_out_indexed, !indexed_flat_map, app_nil_r.
    rewrite (flat_map_ext_in _ _ _ IHb).
    rewrite (flat_map_ext_in
               (fun x => indexed (method_out file_rel
                                    (class_symbol file_rel n p) x))
               (method_idx file_rel (class_symbol file_rel n p)) body).
    + reflexivity.
    + apply Forall_forall. intros b _. apply method_out_indexed.
  - change (stmt_out file_rel mod_id (Assign targets value))
      with (assign_head_out file_rel mod_id targets
            ++ flat_map (expr_out file_rel mod_id) targets
            ++ expr_out file_rel mod_id value).
    rewrite !indexed_app, exprs_out_indexed, expr_out_indexed, !app_nil_r.
    now destruct targets as [| [] ts].
  - change (stmt_out file_rel mod_id (Import names))
      with (flat_map (fun a => import_out mod_id (alias_name a)) names).
    rewrite indexed_flat_map. apply flat_map_nil_ext, Forall_forall.
    intros a _. reflexivity.
  - reflexivity.
  - change (stmt_out file_rel mod_id (OtherStmt children))
      with (flat_map (node_out file_rel mod_id) children).
    rewrite indexed_flat_map.
    change (stmt_idx file_rel (OtherStmt children))
      with (flat_map (node_idx file_rel) children).
    apply flat_map_ext_in.
    rewrite Forall_forall in IHc |- *. intros [e | s] Hin.
    + apply expr_out_indexed.
    + apply (IHc _ Hin).
Qed.
End Indexed.

Lemma entries_for_indexed k rs : entries_for k (indexed rs) = declared k rs.
Proof.
  unfold entries_for, indexed, declared.
  induction (filter indexable (symbols rs)) as [| sym l IH]; simpl;
    [reflexivity |].
  destruct (String.eqb (name sym) k); simpl; now rewrite IH.
Qed.

Lemma file_records_indexed file_rel body :
  indexed (file_records file_rel body)
  = flat_map (stmt_idx file_rel) body.
Proof.
  unfold file_records.
  change (RSymbol (module_symbol file_rel)
          :: flat_map (stmt_out file_rel (module_id file_rel)) body
          ++ [RNameIndex file_rel
                (index_of (flat_map (stmt_idx file_rel) body))])
    with ([RSymbol (module_symbol file_rel)]
          ++ flat_map (stmt_out file_rel (module_id file_rel)) body
          ++ [RNameIndex file_rel
                (index_of (flat_map (stmt_idx file_rel) body))]).
  rewrite !indexed_app, indexed_flat_map.
  rewrite (flat_map_ext_in _ (stmt_idx file_rel) body).
  - change (indexed [RSymbol (module_symbol file_rel)]) with (@nil (string * symbol)).
    change (indexed [RNameIndex file_rel
                       (index_of (flat_map (stmt_idx file_rel) body))])
      with (@nil (string * symbol)).
    now rewrite app_nil_r.
  - apply Forall_forall. intros s _. apply stmt_out_indexed.
Qed.

(** When the visit runs to its end, the name index written last holds,
    under each name, the function, method and variable symbols of that
    name written before it, in the order they were written. *)
Lemma full_visit_name_index L fs root path out src body :
  fs path = Some src ->
  ast_parse L src path = Parsed body ->
  let w := written out (ingest_file L fs root path out) in
  exists front idx,
    w = front ++ [RNameIndex (norm_path (relpath L path root)) idx]
    /\ (forall k,
           dict_get k idx
           = match declared k w with [] => None | l => Some l end)
    /\ keys idx
       = first_occurrences (map name (filter indexable (symbols w)))
    /\ NoDup (keys idx).
Proof.
  intros Hr Hp w. subst w.
  rewrite (ingest_file_parsed _ _ _ _ _ _ _ Hr Hp).
  unfold written. rewrite written_app.
  set (file_rel := norm_path (relpath L path root)).
  pose proof (file_records_indexed file_rel body) as Hidx.
  exists (RSymbol (module_symbol file_rel)
          :: flat_map (stmt_out file_rel (module_id file_rel)) body),
    (index_of (flat_map (stmt_idx file_rel) body)).
  split; [reflexivity |]. split; [| split].
  - intros k. unfold index_of. rewrite dict_get_fold. simpl.
    now rewrite <- Hidx, entries_for_indexed.
  - rewrite (proj1 (index_of_keys _)), <- Hidx. unfold indexed.
    now rewrite map_map.
  - apply index_of_keys.
Qed.

(** ** Declarations at any depth *)

Lemma in_symbols sym rs : In (RSymbol sym) rs -> In sym (symbols rs).
Proof.
  intros H. unfold symbols. apply in_flat_map.
  exists (RSymbol sym). split; [exact H | now left].
Qed.


Lemma file_records_app file_rel body :
  file_records file_rel body
  = [RSymbol (module_symbol file_rel)]
    ++ flat_map (stmt_out file_rel (module_id file_rel)) body
    ++ [RNameIndex file_rel (index_of (flat_map (stmt_idx file_rel) body))].
Proof. reflexivity. Qed.


Section MethodsDirect.
Variable file_rel : string.
Variable mod_id : string.

Lemma exprs_out_no_symbol l sym :
  ~ In (RSymbol sym) (flat_map (expr_out file_rel mod_id) l).
Proof.
  intros H. apply in_symbols in H.
  now rewrite exprs_out_symbols in H.
Qed.

Lemma expr_out_no_symbol e sym :
  ~ In (RSymbol sym) (expr_out file_rel mod_id e).
Proof.
  intros H. apply in_symbols in H.
  now rewrite expr_out_symbols in H.
Qed.

Lemma method_symbols_direct s sym :
  In (RSymbol sym) (stmt_out file_rel mod_id s) ->
  kind sym = "method" ->
  exists c pc bases cbody rest n p a b r,
    occurs (ClassDef c pc bases cbody rest) s
    /\ In (FunctionDef n p a b r) cbody
    /\ sym = method_symbol file_rel (class_symbol file_rel c pc) n p.
Proof.
  revert sym.
  induction s as [n p args body rest IHb | n p bases body rest IHb
                 | targets value | names | module names level
                 | children IHc] using stmt_nested_ind; intros sym Hin Hk.
  - change (stmt_out file_rel mod_id (FunctionDef n p args body rest))
      with ([RSymbol (function_symbol file_rel n p);
             REdge mod_id "defines" (id (function_symbol file_rel n p))]
            ++ flat_map (expr_out file_rel mod_id) args
            ++ flat_map (stmt_out file_rel mod_id) body
            ++ flat_map (expr_out file_rel mod_id) rest) in Hin.
    rewrite !in_app_iff in Hin.
    destruct Hin as [[E | [E | []]] | [H | [H | H]]].
    + injection E as <-. discriminate.
    + discriminate.
    + now apply exprs_out_no_symbol in H.
    + apply in_flat_map in H as (s & Hs & H).
      rewrite Forall_forall in IHb.
      destruct (IHb s Hs sym H Hk)
        as (c & pc & bs & cb & rs & n' & p' & a' & b' & r' & Ho & Hm & E).
      exists c, pc, bs, cb, rs, n', p', a', b', r'.
      split; [| now split]. exact (occurs_FunctionDef _ _ _ _ _ _ _ Hs Ho).
    + now apply exprs_out_no_symbol in H.
  - change (stmt_out file_rel mod_id (ClassDef n p bases body rest))
      with ([RSymbol (class_symbol file_rel n p);
             REdge mod_id "defines" (id (class_symbol file_rel n p))]
            ++ flat_map (method_out file_rel (class_symbol file_rel n p)) body
            ++ flat_map (expr_out file_rel mod_id) bases
            ++ flat_map (stmt_out file_rel mod_id) body
            ++ flat_map (expr_out file_rel mod_id) rest) in Hin.
    rewrite !in_app_iff in Hin.
    destruct Hin as [[E | [E | []]] | [H | [H | [H | H]]]].
    + injection E as <-. discriminate.
    + discriminate.
    + apply in_flat_map in H as (b & Hb & H).
      destruct b as [mn mp ma mb mr | | | | |]; try contradiction.
      destruct H as [E | [E | []]]; [| discriminate].
      injection E as <-.
      exists n, p, bases, body, rest, mn, mp, ma, mb, mr.
      split; [apply occurs_here | now split].
    + now apply exprs_out_no_symbol in H.
    + apply in_flat_map in H as (s & Hs & H).
      rewrite Forall_forall in IHb.
      destruct (IHb s Hs sym H Hk)
        as (c & pc & bs & cb & rs & n' & p' & a' & b' & r' & Ho & Hm & E).
      exists c, pc, bs, cb, rs, n', p', a', b', r'.
      split; [| now split]. exact (occurs_ClassDef _ _ _ _ _ _ _ Hs Ho).
    + now apply exprs_out_no_symbol in H.
  - change (stmt_out file_rel mod_id (Assign targets value))
      with (assign_head_out file_rel mod_id targets
            ++ flat_map (expr_out file_rel mod_id) targets
            ++ expr_out file_rel mod_id value) in Hin.
    rewrite !in_app_iff in Hin. destruct Hin as [H | [H | H]].
    + destruct targets as [| [] ts]; try contradiction.
      destruct H as [E | [E | []]]; [| discriminate].
      injection E as <-. discriminate.
    + now apply exprs_out_no_symbol in H.
    + now apply expr_out_no_symbol in H.
  - change (stmt_out file_rel mod_id (Import names))
      with (flat_map (fun a => import_out mod_id (alias_name a)) names) in Hin.
    apply in_flat_map in Hin as (a & _ & [E | [E | []]]); [| discriminate].
    injection E as <-. discriminate.
  - destruct Hin as [E | [E | []]]; [| discriminate].
    injection E as <-. discriminate.
  - change (stmt_out file_rel mod_id (OtherStmt children))
      with (flat_map (node_out file_rel mod_id) children) in Hin.
    apply in_flat_map in Hin as ([e | s] & Hn & H).
    + now apply expr_out_no_symbol in H.
    + rewrite Forall_forall in IHc.
      destruct (IHc _ Hn sym H Hk)
        as (c & pc & bs & cb & rs & n' & p' & a' & b' & r' & Ho & Hm & E).
      exists c, pc, bs, cb, rs, n', p', a', b', r'.
      split; [| now split]. exact (occurs_OtherStmt _ _ _ Hn Ho).
Qed.
End MethodsDirect.

(** X12: a method symbol is written only for a function declaration that
    stands directly in the body of a class of the file: every method
    symbol of the stream is the one of such a declaration, with the id of
    that class as parentId.  A function deeper in a class body, under a
    conditional say, gives no method symbol. *)
Theorem method_symbols_only_direct L fs root path out sym :
  In (RSymbol sym) (written out (ingest_file L fs root path out)) ->
  kind sym = "method" ->
  let file_rel := norm_path (relpath L path root) in
  exists src body t c pc bases cbody rest n p a b r,
    fs path = Some src /\ ast_parse L src path = Parsed body
    /\ In t body
    /\ occurs (ClassDef c pc bases cbody rest) t
    /\ In (FunctionDef n p a b r) cbody
    /\ sym = method_symbol file_rel (class_symbol file_rel c pc) n p.
Proof.
  intros Hin Hk file_rel. unfold ingest_file in Hin.
  destruct (fs path) as [src |] eqn:Hr;
    [destruct (ast_parse L src path) as [body | |] eqn:Hp |];
    unfold written in Hin;
    rewrite ?ingest_tree_stdout, ?written_app, ?written_nothing in Hin;
    try contradiction.
  fold file_rel in Hin. rewrite file_records_app in Hin.
  rewrite !in_app_iff in Hin. destruct Hin as [[E | []] | [H | [E | []]]].
  - injection E as <-. discriminate.
  - apply in_flat_map in H as (t & Ht & H).
    destruct (method_symbols_direct file_rel (module_id file_rel) t sym H Hk)
      as (c & pc & bs & cb & rs & n' & p' & a' & b' & r' & Ho & Hm & E).
    exists src, body, t, c, pc, bs, cb, rs, n', p', a', b', r'.
    repeat split; assumption.
  - discriminate.
Qed.

Lemma method_symbols_only_direct_witness :
  exists src body t c pc bases cbody rest n p a b r,
    example_fs "repo/a.src" = Some src
    /\ ast_parse example_lib src "repo/a.src" = Parsed body
    /\ In t body
    /\ occurs (ClassDef c pc bases cbody rest) t
    /\ In (FunctionDef n p a b r) cbody
    /\ method_symbol "a.src" (class_symbol "a.src" "C" (pos_at 2 0 3 21))
         "m" (pos_at 3 4 3 21)
       = method_symbol "a.src" (class_symbol "a.src" c pc) n p.
Proof.
  apply (method_symbols_only_direct example_lib example_fs
           "repo" "repo/a.src" []).
  - do 5 right. left. reflexivity.
  - reflexivity.
Defined.

(** In [nested_tree] the function under the conditional in the class body
    gives a function symbol and no method symbol. *)
Example hidden_is_no_method :
  map (fun sym => (kind sym, name sym))
      (symbols (written [] (ingest_file nested_lib nested_fs
                              "repo" "repo/n.py" [])))
  = [("module", "n.py"); ("function", "outer"); ("function", "inner");
     ("class", "K"); ("function", "hidden")].
Proof. vm_compute. reflexivity. Qed.

(** ** The walk of a directory *)

Lemma filter_filter_same {A} (f : A -> bool) l :
  filter f (filter f l) = filter f l.
Proof.
  induction l as [| x r IH]; simpl; [reflexivity |].
  destruct (f x) eqn:E; simpl; [now rewrite E, IH | exact IH].
Qed.

Lemma dirtree_nested_ind (P : dirtree -> Prop) :
  (forall dirs files,
      Forall (fun d => P (snd d)) dirs -> P (Dir dirs files)) ->
  P Unlisted ->
  forall t, P t.
Proof.
  intros HDir HUn. fix IH 1. intros [dirs files |]; [| exact HUn].
  apply HDir.
  induction dirs as [| [n sub] r IHr]; constructor; [apply IH | exact IHr].
Qed.

Lemma remove_dir_Forall2 {A B} (R : A -> B -> Prop) x
    (l1 : list (string * A)) (l2 : list (string * B)) :
  Forall2 (fun a b => fst a = fst b /\ R (snd a) (snd b)) l1 l2 ->
  Forall2 (fun a b => fst a = fst b /\ R (snd a) (snd b))
          (remove_dir x l1) (remove_dir x l2).
Proof.
  induction 1 as [| a b r1 r2 [Hn HR] Hr IH]; simpl; [constructor |].
  rewrite <- Hn. destruct (String.eqb (fst a) x); [exact Hr |].
  constructor; [now split | exact IH].
Qed.

Section WalkProofs.
Variable L : Lib.
Variable fs : filesystem.
Variable join : string -> string -> string.
Variable root : string.

Lemma ingest_all_app a b out :
  ingest_all L fs root (a ++ b) out
  = and_then (ingest_all L fs root a out) (ingest_all L fs root b).
Proof.
  revert out. induction a as [| p r IH]; intros out; simpl; [reflexivity |].
  destruct (ingest_file L fs root p out); simpl; [apply IH | reflexivity].
Qed.

Lemma ingest_filenames_all dirpath filenames out :
  ingest_filenames L fs join root dirpath filenames out
  = ingest_all L fs root
      (map (join dirpath) (filter (fun fn => endswith fn ".py") filenames))
      out.
Proof.
  revert out.
  induction filenames as [| fn r IH]; intros out; simpl; [reflexivity |].
  destruct (endswith fn ".py"); simpl; [| apply IH].
  destruct (ingest_file L fs root (join dirpath fn) out); simpl;
    [apply IH | reflexivity].
Qed.

Lemma walk_dirs_all dirpath l1 l2 out :
  Forall2 (fun a b =>
             fst a = fst b
             /\ forall dp o, snd a dp o = ingest_all L fs root (snd b dp) o)
          l1 l2 ->
  walk_dirs join dirpath l1 out
  = ingest_all L fs root
      (flat_map (fun d => snd d (join dirpath (fst d))) l2) out.
Proof.
  intros H. revert out.
  induction H as [| a b r1 r2 [Hn HR] _ IH]; intros out; simpl;
    [reflexivity |].
  rewrite ingest_all_app, HR, Hn.
  destruct (ingest_all L fs root (snd b (join dirpath (fst b))) out); simpl;
    [apply IH | reflexivity].
Qed.

(** The walk hands to [ingest_file] the paths of [py_paths], in order, and
    stops at the first call that raises. *)
Lemma walk_all t :
  forall dirpath out,
    walk L fs join root t dirpath out
    = ingest_all L fs root (py_paths join t dirpath) out.
Proof.
  induction t as [dirs files IH |] using dirtree_nested_ind;
    intros dirpath out; [| reflexivity].
  cbn [walk py_paths].
  rewrite ingest_all_app, ingest_filenames_all.
  destruct (ingest_all L fs root
              (map (join dirpath)
                   (filter (fun fn => endswith fn ".py") files)) out);
    simpl; [| reflexivity].
  apply walk_dirs_all.
  do 2 apply (remove_dir_Forall2
                (fun w pp => forall dp o,
                     w dp o = ingest_all L fs root (pp dp) o)).
  induction IH as [| d r Hd _ IHr]; simpl; constructor; [| exact IHr].
  split; [reflexivity | exact Hd].
Qed.

Lemma ingest_file_alone path out :
  (forall src, fs path = Some src -> ast_parse L src path <> OtherError) ->
  ingest_file L fs root path out
  = Returned (out ++ records_of L fs root path).
Proof.
  intros Hok. unfold records_of, ingest_file.
  destruct (fs path) as [src |];
    [destruct (ast_parse L src path) eqn:Hp |]; unfold written.
  - now rewrite !ingest_tree_stdout.
  - now rewrite app_nil_r.
  - now destruct (Hok src eq_refl).
  - now rewrite app_nil_r.
Qed.

Lemma ingest_file_output path out :
  exists w, output (ingest_file L fs root path out) = out ++ w.
Proof.
  unfold ingest_file.
  destruct (fs path) as [src |];
    [destruct (ast_parse L src path) eqn:Hp |]; unfold output.
  - rewrite ingest_tree_stdout. eauto.
  - exists []. now rewrite app_nil_r.
  - exists []. now rewrite app_nil_r.
  - exists []. now rewrite app_nil_r.
Qed.

Lemma ingest_all_output paths out :
  exists w, output (ingest_all L fs root paths out) = out ++ w.
Proof.
  revert out. induction paths as [| p r IH]; intros out; cbn [ingest_all].
  - exists []. simpl. now rewrite app_nil_r.
  - destruct (ingest_file_output p out) as (w & Hw).
    destruct (ingest_file L fs root p out) as [o | o]; simpl in Hw; subst o;
      unfold and_then.
    + destruct (IH (out ++ w)) as (w' & Hw').
      rewrite Hw', <- app_assoc. eauto.
    + simpl. eauto.
Qed.
End WalkProofs.

(** X15: [ingest_dir] only adds to the output: whether it returns or
    raises, what stood on the output before stands there unchanged, before
    what was written. *)
Theorem ingest_dir_appends L fs join root t out :
  exists w, output (ingest_dir L fs join root t out) = out ++ w.
Proof. unfold ingest_dir. rewrite walk_all. apply ingest_all_output. Qed.

(** X16: files whose names do not end in .py play no part: the walk of a
    directory is the walk of the directory without them. *)
Theorem walk_ignores_other_files L fs join root dirs files dirpath out :
  walk L fs join root (Dir dirs files) dirpath out
  = walk L fs join root
      (Dir dirs (filter (fun fn => endswith fn ".py") files)) dirpath out.
Proof.
  cbn [walk]. rewrite !ingest_filenames_all.
  now rewrite filter_filter_same.
Qed.

Lemma remove_dir_names {A} y (l : list (string * A)) n :
  In n (map fst (remove_dir y l)) -> In n (map fst l).
Proof.
  induction l as [| d r IH]; simpl; [tauto |].
  destruct (String.eqb (fst d) y); simpl; tauto.
Qed.

Lemma remove_dir_first {A} x (l1 : list (string * A)) a l2 :
  ~ In x (map fst l1) -> remove_dir x (l1 ++ (x, a) :: l2) = l1 ++ l2.
Proof.
  induction l1 as [| d r IH]; simpl; intros Hx.
  - now rewrite String.eqb_refl.
  - destruct (String.eqb_spec (fst d) x) as [E | _]; [tauto |].
    f_equal. apply IH. tauto.
Qed.

Lemma remove_dir_other {A} y x (l1 : list (string * A)) a l2 :
  x <> y ->
  remove_dir y (l1 ++ (x, a) :: l2)
  = if existsb (fun d => String.eqb (fst d) y) l1
    then remove_dir y l1 ++ (x, a) :: l2
    else l1 ++ (x, a) :: remove_dir y l2.
Proof.
  intros Hxy. induction l1 as [| d r IH]; simpl.
  - destruct (String.eqb_spec x y); [contradiction | reflexivity].
  - destruct (String.eqb (fst d) y); simpl; [reflexivity |].
    rewrite IH. now destruct (existsb (fun d0 => String.eqb (fst d0) y) r).
Qed.

Lemma remove_both_first {A} x (l1 : list (string * A)) a a' l2 :
  x = "node_modules" \/ x = ".git" ->
  ~ In x (map fst l1) ->
  remove_dir ".git" (remove_dir "node_modules" (l1 ++ (x, a) :: l2))
  = remove_dir ".git" (remove_dir "node_modules" (l1 ++ (x, a') :: l2)).
Proof.
  intros [-> | ->] Hx.
  - now rewrite !remove_dir_first.
  - rewrite !(remove_dir_other "node_modules" ".git") by discriminate.
    destruct (existsb (fun d => String.eqb (fst d) "node_modules") l1).
    + rewrite !remove_dir_first; [reflexivity | |];
        intros H; apply Hx; exact (remove_dir_names _ _ _ H).
    + now rewrite !remove_dir_first.
Qed.

(** X17: what stands below a directory named node_modules or .git (the
    first of that name in its parent) plays no part in the walk: with any
    other content there the walk writes the same. *)
Theorem walk_prunes L fs join root dirs1 x sub sub' dirs2 files dirpath out :
  x = "node_modules" \/ x = ".git" ->
  ~ In x (map fst dirs1) ->
  walk L fs join root (Dir (dirs1 ++ (x, sub) :: dirs2) files) dirpath out
  = walk L fs join root (Dir (dirs1 ++ (x, sub') :: dirs2) files) dirpath out.
Proof.
  intros Hx Hfirst. cbn [walk].
  rewrite !map_app. cbn [map fst snd].
  rewrite (remove_both_first x _ (walk L fs join root sub)
             (walk L fs join root sub')); [reflexivity | exact Hx |].
  now rewrite map_map.
Qed.

Lemma walk_prunes_witness :
  walk example_lib tree_fs posix_join "repo"
       (Dir ([] ++ ("node_modules", Dir [] ["x.py"])
                :: [("pkg", Dir [(".git", Dir [] ["hook.py"])] ["beta.py"])])
            ["a.src"; "call.py"; "notes.txt"]) "repo" []
  = walk example_lib tree_fs posix_join "repo"
         (Dir ([] ++ ("node_modules", Unlisted)
                  :: [("pkg", Dir [(".git", Dir [] ["hook.py"])] ["beta.py"])])
              ["a.src"; "call.py"; "notes.txt"]) "repo" [].
Proof.
  apply (walk_prunes example_lib tree_fs posix_join "repo" []
           "node_modules").
  - left. reflexivity.
  - simpl. tauto.
Defined.

(** ** The text on the output *)

Lemma json_nested_ind (P : json -> Prop) :
  P JNull ->
  (forall z, P (JInt z)) ->
  (forall s, P (JStr s)) ->
  (forall items, Forall P items -> P (JList items)) ->
  (forall items, Forall (fun kv => P (snd kv)) items -> P (JDict items)) ->
  forall j, P j.
Proof.
  intros HNull HInt HStr HList HDict. fix IH 1.
  intros [| z | s | items | items].
  - exact HNull.
  - apply HInt.
  - apply HStr.
  - apply HList.
    induction items as [| x r IHr]; constructor; [apply IH | exact IHr].
  - apply HDict.
    induction items as [| [k v] r IHr]; constructor; [apply IH | exact IHr].
Qed.

Lemma escape_char_no_newline c :
  string_forall not_newline (escape_char c) = true.
Proof. destruct c as [[] [] [] [] [] [] [] []]; reflexivity. Qed.

Lemma escape_no_newline s : string_forall not_newline (escape s) = true.
Proof.
  induction s as [| c r IH]; simpl; [reflexivity |].
  now rewrite string_forall_append, escape_char_no_newline, IH.
Qed.

Lemma json_string_no_newline s :
  string_forall not_newline (json_string s) = true.
Proof.
  unfold json_string. cbn [string_forall].
  now rewrite string_forall_append, escape_no_newline.
Qed.

Lemma string_of_uint_no_newline d :
  string_forall not_newline (NilEmpty.string_of_uint d) = true.
Proof. induction d; simpl; auto. Qed.

Lemma str_of_int_no_newline z :
  string_forall not_newline (str_of_int z) = true.
Proof.
  unfold str_of_int, NilZero.string_of_int, NilZero.string_of_uint.
  destruct (Z.to_int z) as [d | d]; destruct d; cbn [string_forall];
    try reflexivity; apply string_of_uint_no_newline.
Qed.

Lemma join_comma_no_newline l :
  Forall (fun x => string_forall not_newline x = true) l ->
  string_forall not_newline (join_comma l) = true.
Proof.
  induction 1 as [| x r Hx Hr IH]; [reflexivity |].
  cbn [join_comma]. destruct r as [| y r']; [exact Hx |].
  now rewrite !string_forall_append, Hx, IH.
Qed.

Lemma dumps_no_newline j : string_forall not_newline (dumps j) = true.
Proof.
  induction j as [| z | s | items IH | items IH] using json_nested_ind;
    cbn [dumps].
  - reflexivity.
  - apply str_of_int_no_newline.
  - apply json_string_no_newline.
  - rewrite !string_forall_append, join_comma_no_newline; [reflexivity |].
    induction IH as [| x r Hx _ IHr]; simpl; constructor; assumption.
  - rewrite !string_forall_append, join_comma_no_newline; [reflexivity |].
    induction IH as [| x r Hx _ IHr]; cbn [map]; constructor; [| assumption].
    now rewrite !string_forall_append, json_string_no_newline, Hx.
Qed.

Lemma lines_from_line body : forall acc rest,
  string_forall not_newline body = true ->
  lines_from acc (String.append body (String newline rest))
  = String.append acc body :: lines_from "" rest.
Proof.
  induction body as [| c r IH]; intros acc rest H; simpl.
  - now rewrite append_empty_r.
  - simpl in H. apply andb_prop in H as [Hc Hr].
    unfold not_newline in Hc. apply negb_true_iff in Hc. rewrite Hc.
    rewrite (IH _ _ Hr), append_assoc. reflexivity.
Qed.

(** X19: each record goes out as one line: the JSON text of a record holds
    no newline, whatever characters its names and paths have, so the lines
    of the output are the JSON texts of the records, one for one and in
    order. *)
Theorem stdout_one_line_per_record out :
  lines (stdout_text out) = map (fun r => dumps (record_json r)) out
  /\ Forall (fun line => string_forall not_newline line = true)
            (lines (stdout_text out)).
Proof.
  assert (H : lines (stdout_text out)
              = map (fun r => dumps (record_json r)) out).
  { unfold lines. induction out as [| r rest IH]; [reflexivity |].
    cbn [stdout_text map]. unfold emit_text.
    rewrite append_assoc. cbn [String.append].
    rewrite lines_from_line by apply dumps_no_newline.
    now rewrite IH. }
  split; [exact H |].
  rewrite H. apply Forall_forall. intros line Hin.
  apply in_map_iff in Hin as (r & <- & _). apply dumps_no_newline.
Qed.

(** ** Relative paths in the records *)

Lemma norm_path_no_backslash p :
  string_forall not_backslash (norm_path p) = true.
Proof.
  induction p as [| c r IH]; simpl; [reflexivity |].
  rewrite IH, andb_true_r. unfold not_backslash.
  destruct (Ascii.eqb c "\") eqn:E; [reflexivity | now rewrite E].
Qed.

(** X20: the path of the file stands in the records with no backslash in
    it: in the name and the file of the module symbol written first, in
    the file of every function, class, method and variable symbol, of
    every call and of the name index. *)
Theorem ingest_file_paths_normalised L fs root path out :
  let w := written out (ingest_file L fs root path out) in
  (forall sym rest,
      w = RSymbol sym :: rest ->
      string_forall not_backslash (name sym) = true
      /\ string_forall not_backslash (file sym) = true)
  /\ (forall sym,
         In (RSymbol sym) w -> kind sym <> "module" ->
         string_forall not_backslash (file sym) = true)
  /\ (forall c f m,
         In (RCall c f m) w -> string_forall not_backslash f = true)
  /\ (forall f idx,
         In (RNameIndex f idx) w -> string_forall not_backslash f = true).
Proof.
  intros w. subst w.
  destruct (written_cases L fs root path out) as [-> | (body & ->)].
  - repeat split; try discriminate; intros; contradiction.
  - split; [| split; [| split]].
    + intros sym rest E. unfold file_records in E. injection E as <- _.
      split; apply norm_path_no_backslash.
    + intros sym H Hk.
      apply file_records_visitor in H as [E | [H | (idx & E)]];
        [| | discriminate].
      * injection E as ->. now destruct Hk.
      * apply visitor_symbol_fields in H.
        destruct H as (_ & _ & _ & _ & Hf).
        rewrite (Hf Hk). apply norm_path_no_backslash.
    + intros c f m H.
      apply file_records_visitor in H as [E | [H | (idx & E)]];
        try discriminate.
      inversion H; subst. apply norm_path_no_backslash.
    + intros f idx H.
      apply file_records_visitor in H as [E | [H | (idx' & E)]];
        [discriminate | inversion H |].
      injection E as -> _. apply norm_path_no_backslash.
Qed.

Lemma ingest_file_paths_normalised_witness :
  string_forall not_backslash
    (file (function_symbol "a.src" "f" (pos_at 1 0 1 13))) = true.
Proof.
  apply (proj1 (proj2 (ingest_file_paths_normalised example_lib example_fs
                         "repo" "repo/a.src" []))).
  - right. left. reflexivity.
  - discriminate.
Defined.

(** ** The visit under the recursion limit *)

Lemma within_overflow a out : within Overflow a out.
Proof.
  intros st. exists [], out. split; [reflexivity | now rewrite app_nil_r].
Qed.

Lemma within_lift a out : within (lift a) a out.
Proof. intros st. reflexivity. Qed.

Lemma within_ext b a a' out :
  (forall st, a st = a' st) -> within b a' out -> within b a out.
Proof.
  intros E H st. specialize (H st).
  destruct (b st); [now rewrite E | exact H].
Qed.

Lemma within_out b a o o' : within b a o -> o = o' -> within b a o'.
Proof. now intros H <-. Qed.

Lemma within_then b1 a1 o1 i1 b2 a2 o2 :
  framed a1 o1 i1 -> within b1 a1 o1 -> within b2 a2 o2 ->
  within (b1 ;;; b2) (a1 ;; a2) (o1 ++ o2).
Proof.
  intros Hf H1 H2 st. unfold then_, seq.
  specialize (H1 st). destruct (b1 st) as [st1 | st1].
  - subst st1. specialize (H2 (a1 st)).
    destruct (b2 (a1 st)) as [st2 | st2]; [exact H2 |].
    destruct H2 as (w1 & w2 & -> & Hs).
    exists (o1 ++ w1), w2. split; [now rewrite app_assoc |].
    rewrite Hs, Hf. unfold run; simpl. now rewrite app_assoc.
  - destruct H1 as (w1 & w2 & -> & Hs).
    exists w1, (w2 ++ o2). split; [now rewrite app_assoc | exact Hs].
Qed.

Lemma within_for_each {A} (f : A -> bounded) (g : A -> action) fo fi l :
  Forall (fun x => framed (g x) (fo x) (fi x) /\ within (f x) (g x) (fo x)) l ->
  within (for_each_in f l) (for_each g l) (flat_map fo l).
Proof.
  induction 1 as [| x r [Hf Hw] _ IH]; simpl.
  - apply within_lift.
  - exact (within_then _ _ _ _ _ _ _ Hf Hw IH).
Qed.

Lemma completes_lift a : completes (lift a) a.
Proof. intros st. reflexivity. Qed.

Lemma completes_ext b a a' :
  (forall st, a st = a' st) -> completes b a' -> completes b a.
Proof. intros E H st. now rewrite H, E. Qed.

Lemma completes_then b1 a1 b2 a2 :
  completes b1 a1 -> completes b2 a2 -> completes (b1 ;;; b2) (a1 ;; a2).
Proof. intros H1 H2 st. unfold then_, seq. now rewrite H1, H2. Qed.

Lemma completes_for_each {A} (f : A -> bounded) (g : A -> action) l :
  Forall (fun x => completes (f x) (g x)) l ->
  completes (for_each_in f l) (for_each g l).
Proof.
  induction 1 as [| x r Hx _ IH]; simpl.
  - apply completes_lift.
  - now apply completes_then.
Qed.

Lemma overflows_first b1 b2 : overflows b1 -> overflows (b1 ;;; b2).
Proof.
  intros H st. unfold then_. destruct (H st) as (st' & ->). eauto.
Qed.

Lemma overflows_second b1 b2 : overflows b2 -> overflows (b1 ;;; b2).
Proof.
  intros H st. unfold then_. destruct (b1 st) as [st1 | st1]; eauto.
Qed.

Lemma overflows_for_each {A} (f : A -> bounded) l :
  Exists (fun x => overflows (f x)) l -> overflows (for_each_in f l).
Proof.
  induction 1 as [x r Hx | x r _ IH]; simpl.
  - now apply overflows_first.
  - now apply overflows_second.
Qed.

Lemma overflows_none : overflows Overflow.
Proof. intros st. eauto. Qed.

(** The depth of the deepest node of a list. *)
Lemma depth_all {A} (d : A -> nat) l r :
  (list_max (map d l) <= r)%nat -> Forall (fun x => (d x <= r)%nat) l.
Proof.
  intros H. apply list_max_le in H. now apply Forall_map in H.
Qed.

Lemma depth_some {A} (d : A -> nat) l r :
  (r < list_max (map d l))%nat -> Exists (fun x => (r < d x)%nat) l.
Proof.
  induction l as [| x l IH]; simpl; intros H; [lia |].
  destruct (Nat.max_spec (d x) (list_max (map d l))) as [[_ E] | [_ E]];
    rewrite E in H.
  - right. now apply IH.
  - now left.
Qed.

Section VisitorInRuns.
Variable file_rel : string.
Variable mod_id : string.

Lemma visit_exprs_within r l :
  (forall e, within (visit_expr_in file_rel mod_id r e)
               (visit_expr file_rel mod_id e) (expr_out file_rel mod_id e)) ->
  within (for_each_in (visit_expr_in file_rel mod_id r) l)
         (for_each (visit_expr file_rel mod_id) l)
         (flat_map (expr_out file_rel mod_id) l).
Proof.
  intros IH. apply (within_for_each _ _ _ (fun _ => [])), Forall_forall.
  intros e _. split; [apply visit_expr_framed | apply IH].
Qed.

Lemma visit_Call_head_framed func :
  framed (visit_Call file_rel mod_id skip func)
         (call_head_out file_rel mod_id func) [].
Proof.
  eapply framed_eq;
    [apply visit_Call_framed, framed_skip | apply app_nil_r | reflexivity].
Qed.

Lemma visit_expr_in_within r :
  forall e,
    within (visit_expr_in file_rel mod_id r e)
           (visit_expr file_rel mod_id e) (expr_out file_rel mod_id e).
Proof.
  induction r as [| r IH]; intros e; [apply within_overflow |].
  pose proof (fun l => visit_exprs_within r l IH) as Hl.
  destruct e as [i p | value a | func args | elts | value slice | children];
    cbn [visit_expr_in visit_expr expr_out].
  - apply within_lift.
  - apply IH.
  - apply (within_ext _ _
             (visit_Call file_rel mod_id skip func ;;
              visit_expr file_rel mod_id func ;;
              for_each (visit_expr file_rel mod_id) args));
      [intros st; reflexivity |].
    apply (within_then _ _ _ []);
      [apply visit_Call_head_framed | apply within_lift |].
    apply (within_then _ _ _ []);
      [apply visit_expr_framed | apply IH | apply Hl].
  - apply Hl.
  - apply (within_then _ _ _ []);
      [apply visit_expr_framed | apply IH | apply IH].
  - apply Hl.
Qed.

Lemma visit_FunctionDef_head_framed name p :
  framed (visit_FunctionDef file_rel mod_id skip name p)
         [RSymbol (function_symbol file_rel name p);
          REdge mod_id "defines" (id (function_symbol file_rel name p))]
         [(name, function_symbol file_rel name p)].
Proof.
  eapply framed_eq;
    [apply visit_FunctionDef_framed, framed_skip | reflexivity ..].
Qed.

Lemma visit_ClassDef_head_framed name p body :
  framed (visit_ClassDef file_rel mod_id skip name p body)
         ([RSymbol (class_symbol file_rel name p);
           REdge mod_id "defines" (id (class_symbol file_rel name p))]
          ++ flat_map (method_out file_rel (class_symbol file_rel name p)) body)
         (flat_map (method_idx file_rel (class_symbol file_rel name p)) body).
Proof.
  eapply framed_eq; [apply visit_ClassDef_framed, framed_skip | |].
  - now rewrite app_nil_r.
  - apply app_nil_r.
Qed.

Lemma visit_Assign_head_framed targets :
  framed (visit_Assign file_rel mod_id skip targets)
         (assign_head_out file_rel mod_id targets)
         (assign_head_idx file_rel targets).
Proof.
  eapply framed_eq;
    [apply visit_Assign_framed, framed_skip | apply app_nil_r | reflexivity].
Qed.

Lemma visit_stmts_within r l :
  (forall s, within (visit_stmt_in file_rel mod_id r s)
               (visit_stmt file_rel mod_id s) (stmt_out file_rel mod_id s)) ->
  within (for_each_in (visit_stmt_in file_rel mod_id r) l)
         (for_each (visit_stmt file_rel mod_id) l)
         (flat_map (stmt_out file_rel mod_id) l).
Proof.
  intros IH.
  apply (within_for_each _ _ _ (stmt_idx file_rel)), Forall_forall.
  intros s _. split; [apply visit_stmt_framed | apply IH].
Qed.

Lemma visit_stmt_in_within r :
  forall s,
    within (visit_stmt_in file_rel mod_id r s)
           (visit_stmt file_rel mod_id s) (stmt_out file_rel mod_id s).
Proof.
  induction r as [| r IH]; intros s; [apply within_overflow |].
  pose proof (fun l => visit_exprs_within r l (visit_expr_in_within r)) as He.
  pose proof (fun l => visit_stmts_within r l IH) as Hs.
  destruct s as [name p args body rest | name p bases body rest
                | targets value | names | module names level | children];
    cbn [visit_stmt_in].
  - apply (within_ext _ _
             (visit_FunctionDef file_rel mod_id skip name p ;;
              for_each (visit_expr file_rel mod_id) args ;;
              for_each (visit_stmt file_rel mod_id) body ;;
              for_each (visit_expr file_rel mod_id) rest));
      [intros st; reflexivity |].
    apply (within_out _ _
             ([RSymbol (function_symbol file_rel name p);
               REdge mod_id "defines" (id (function_symbol file_rel name p))]
              ++ flat_map (expr_out file_rel mod_id) args
              ++ flat_map (stmt_out file_rel mod_id) body
              ++ flat_map (expr_out file_rel mod_id) rest));
      [| reflexivity].
    eapply within_then;
      [apply visit_FunctionDef_head_framed | apply within_lift |].
    eapply within_then; [apply visit_exprs_framed | apply He |].
    eapply within_then; [apply visit_stmts_framed | apply Hs | apply He].
  - apply (within_ext _ _
             (visit_ClassDef file_rel mod_id skip name p body ;;
              for_each (visit_expr file_rel mod_id) bases ;;
              for_each (visit_stmt file_rel mod_id) body ;;
              for_each (visit_expr file_rel mod_id) rest));
      [intros st; reflexivity |].
    apply (within_out _ _
             (([RSymbol (class_symbol file_rel name p);
                REdge mod_id "defines" (id (class_symbol file_rel name p))]
               ++ flat_map (method_out file_rel (class_symbol file_rel name p))
                    body)
              ++ flat_map (expr_out file_rel mod_id) bases
              ++ flat_map (stmt_out file_rel mod_id) body
              ++ flat_map (expr_out file_rel mod_id) rest));
      [| reflexivity].
    eapply within_then;
      [apply visit_ClassDef_head_framed | apply within_lift |].
    eapply within_then; [apply visit_exprs_framed | apply He |].
    eapply within_then; [apply visit_stmts_framed | apply Hs | apply He].
  - apply (within_ext _ _
             (visit_Assign file_rel mod_id skip targets ;;
              for_each (visit_expr file_rel mod_id) targets ;;
              visit_expr file_rel mod_id value));
      [intros st; reflexivity |].
    apply (within_out _ _
             (assign_head_out file_rel mod_id targets
              ++ flat_map (expr_out file_rel mod_id) targets
              ++ expr_out file_rel mod_id value));
      [| reflexivity].
    eapply within_then;
      [apply visit_Assign_head_framed | apply within_lift |].
    eapply within_then;
      [apply visit_exprs_framed | apply He | apply visit_expr_in_within].
  - apply within_lift.
  - apply within_lift.
  - apply (within_out _ _ (flat_map (node_out file_rel mod_id) children));
      [| reflexivity].
    apply (within_ext _ _ (for_each (visit_node file_rel mod_id) children));
      [intros st; reflexivity |].
    apply (within_for_each _ _ _ (node_idx file_rel)), Forall_forall.
    intros [e | s] _; split.
    + apply visit_expr_framed.
    + apply visit_expr_in_within.
    + apply visit_stmt_framed.
    + apply IH.
Qed.

Lemma visit_Module_in_within r body :
  within (visit_Module_in file_rel mod_id r body)
         (for_each (visit_stmt file_rel mod_id) body)
         (flat_map (stmt_out file_rel mod_id) body).
Proof.
  destruct r as [| r]; [apply within_overflow |].
  apply visit_stmts_within, visit_stmt_in_within.
Qed.

(** With room for the depth of the node the visit runs to its end. *)
Lemma visit_expr_in_completes r :
  forall e,
    (expr_depth e <= r)%nat ->
    completes (visit_expr_in file_rel mod_id r e)
              (visit_expr file_rel mod_id e).
Proof.
  induction r as [| r IH]; intros e H;
    [destruct e; cbn [expr_depth] in H; lia |].
  assert (Hl : forall l,
             (list_max (map expr_depth l) <= r)%nat ->
             completes (for_each_in (visit_expr_in file_rel mod_id r) l)
                       (for_each (visit_expr file_rel mod_id) l)).
  { intros l Hd. apply completes_for_each.
    apply depth_all in Hd. revert Hd. apply Forall_impl. exact IH. }
  destruct e as [i p | value a | func args | elts | value slice | children];
    cbn [expr_depth] in H; apply le_S_n in H;
    cbn [visit_expr_in visit_expr].
  - apply completes_lift.
  - now apply IH.
  - apply (completes_ext _ _
             (visit_Call file_rel mod_id skip func ;;
              visit_expr file_rel mod_id func ;;
              for_each (visit_expr file_rel mod_id) args));
      [intros st; reflexivity |].
    apply completes_then; [apply completes_lift |].
    apply completes_then; [apply IH | apply Hl]; lia.
  - now apply Hl.
  - apply completes_then; apply IH; lia.
  - now apply Hl.
Qed.

Lemma visit_stmt_in_completes r :
  forall s,
    (stmt_depth s <= r)%nat ->
    completes (visit_stmt_in file_rel mod_id r s)
              (visit_stmt file_rel mod_id s).
Proof.
  induction r as [| r IH]; intros s H;
    [destruct s; cbn [stmt_depth] in H; lia |].
  assert (He : forall l,
             (list_max (map expr_depth l) <= r)%nat ->
             completes (for_each_in (visit_expr_in file_rel mod_id r) l)
                       (for_each (visit_expr file_rel mod_id) l)).
  { intros l Hd. apply completes_for_each.
    apply depth_all in Hd. revert Hd. apply Forall_impl.
    intros e. apply visit_expr_in_completes. }
  assert (Hs : forall l,
             (list_max (map stmt_depth l) <= r)%nat ->
             completes (for_each_in (visit_stmt_in file_rel mod_id r) l)
                       (for_each (visit_stmt file_rel mod_id) l)).
  { intros l Hd. apply completes_for_each.
    apply depth_all in Hd. revert Hd. apply Forall_impl. exact IH. }
  destruct s as [name p args body rest | name p bases body rest
                | targets value | names | module names level | children];
    cbn [stmt_depth] in H; apply le_S_n in H; cbn [visit_stmt_in].
  - apply (completes_ext _ _
             (visit_FunctionDef file_rel mod_id skip name p ;;
              for_each (visit_expr file_rel mod_id) args ;;
              for_each (visit_stmt file_rel mod_id) body ;;
              for_each (visit_expr file_rel mod_id) rest));
      [intros st; reflexivity |].
    apply completes_then; [apply completes_lift |].
    apply completes_then; [apply He; lia |].
    apply completes_then; [apply Hs | apply He]; lia.
  - apply (completes_ext _ _
             (visit_ClassDef file_rel mod_id skip name p body ;;
              for_each (visit_expr file_rel mod_id) bases ;;
              for_each (visit_stmt file_rel mod_id) body ;;
              for_each (visit_expr file_rel mod_id) rest));
      [intros st; reflexivity |].
    apply completes_then; [apply completes_lift |].
    apply completes_then; [apply He; lia |].
    apply completes_then; [apply Hs | apply He]; lia.
  - apply (completes_ext _ _
             (visit_Assign file_rel mod_id skip targets ;;
              for_each (visit_expr file_rel mod_id) targets ;;
              visit_expr file_rel mod_id value));
      [intros st; reflexivity |].
    apply completes_then; [apply completes_lift |].
    apply completes_then;
      [apply He | apply visit_expr_in_completes]; lia.
  - apply completes_lift.
  - apply completes_lift.
  - apply (completes_ext _ _ (for_each (visit_node file_rel mod_id) children));
      [intros st; reflexivity |].
    apply completes_for_each.
    apply depth_all in H. revert H. apply Forall_impl.
    intros [e | s] Hd; cbn [node_depth] in Hd.
    + now apply visit_expr_in_completes.
    + now apply IH.
Qed.

Lemma visit_Module_in_completes r body :
  (tree_depth body <= r)%nat ->
  completes (visit_Module_in file_rel mod_id r body)
            (for_each (visit_stmt file_rel mod_id) body).
Proof.
  unfold tree_depth. intros H.
  destruct r as [| r]; [lia |]. apply le_S_n in H.
  apply completes_for_each.
  apply depth_all in H. revert H. apply Forall_impl.
  intros s. apply visit_stmt_in_completes.
Qed.

(** Without room for the depth of the node the visit raises. *)
Lemma visit_expr_in_overflows r :
  forall e,
    (r < expr_depth e)%nat -> overflows (visit_expr_in file_rel mod_id r e).
Proof.
  induction r as [| r IH]; intros e H; [apply overflows_none |].
  assert (Hl : forall l,
             (r < list_max (map expr_depth l))%nat ->
             overflows (for_each_in (visit_expr_in file_rel mod_id r) l)).
  { intros l Hd. apply overflows_for_each.
    apply depth_some in Hd. revert Hd. apply Exists_impl. exact IH. }
  destruct e as [i p | value a | func args | elts | value slice | children];
    cbn [expr_depth] in H; apply Nat.succ_lt_mono in H;
    cbn [visit_expr_in].
  - lia.
  - now apply IH.
  - apply overflows_second.
    destruct (Nat.max_spec (expr_depth func) (list_max (map expr_depth args)))
      as [[_ E] | [_ E]]; rewrite E in H.
    + apply overflows_second. now apply Hl.
    + apply overflows_first. now apply IH.
  - now apply Hl.
  - destruct (Nat.max_spec (expr_depth value) (expr_depth slice))
      as [[_ E] | [_ E]]; rewrite E in H.
    + apply overflows_second. now apply IH.
    + apply overflows_first. now apply IH.
  - now apply Hl.
Qed.

Lemma visit_stmt_in_overflows r :
  forall s,
    (r < stmt_depth s)%nat -> overflows (visit_stmt_in file_rel mod_id r s).
Proof.
  induction r as [| r IH]; intros s H; [apply overflows_none |].
  assert (He : forall l,
             (r < list_max (map expr_depth l))%nat ->
             overflows (for_each_in (visit_expr_in file_rel mod_id r) l)).
  { intros l Hd. apply overflows_for_each.
    apply depth_some in Hd. revert Hd. apply Exists_impl.
    intros e. apply visit_expr_in_overflows. }
  assert (Hs : forall l,
             (r < list_max (map stmt_depth l))%nat ->
             overflows (for_each_in (visit_stmt_in file_rel mod_id r) l)).
  { intros l Hd. apply overflows_for_each.
    apply depth_some in Hd. revert Hd. apply Exists_impl. exact IH. }
  assert (Hbody : forall (head : bounded) l1 l2 l3,
             (r < Nat.max (list_max (map expr_depth l1))
                    (Nat.max (list_max (map stmt_depth l2))
                             (list_max (map expr_depth l3))))%nat ->
             overflows
               (head ;;;
                for_each_in (visit_expr_in file_rel mod_id r) l1 ;;;
                for_each_in (visit_stmt_in file_rel mod_id r) l2 ;;;
                for_each_in (visit_expr_in file_rel mod_id r) l3)).
  { intros head l1 l2 l3 Hd. apply overflows_second.
    destruct (Nat.lt_ge_cases r (list_max (map expr_depth l1))) as [H1 | H1];
      [apply overflows_first; now apply He |].
    apply overflows_second.
    destruct (Nat.lt_ge_cases r (list_max (map stmt_depth l2))) as [H2 | H2];
      [apply overflows_first; now apply Hs |].
    apply overflows_second. apply He. lia. }
  destruct s as [name p args body rest | name p bases body rest
                | targets value | names | module names level | children];
    cbn [stmt_depth] in H; apply Nat.succ_lt_mono in H; cbn [visit_stmt_in].
  - now apply Hbody.
  - now apply Hbody.
  - apply overflows_second.
    destruct (Nat.lt_ge_cases r (list_max (map expr_depth targets)))
      as [H1 | H1]; [apply overflows_first; now apply He |].
    apply overflows_second. apply visit_expr_in_overflows. lia.
  - lia.
  - lia.
  - apply overflows_for_each.
    apply depth_some in H. revert H. apply Exists_impl.
    intros [e | s] Hd; cbn [node_depth] in Hd.
    + now apply visit_expr_in_overflows.
    + now apply IH.
Qed.

Lemma visit_Module_in_overflows r body :
  (r < tree_depth body)%nat ->
  overflows (visit_Module_in file_rel mod_id r body).
Proof.
  unfold tree_depth. intros H.
  destruct r as [| r]; [apply overflows_none |].
  apply Nat.succ_lt_mono in H. cbn [visit_Module_in].
  apply overflows_for_each.
  apply depth_some in H. revert H. apply Exists_impl.
  intros s. apply visit_stmt_in_overflows.
Qed.
End VisitorInRuns.

(** *** ingest_file under the recursion limit *)

Lemma ingest_tree_in_completes rm file_rel body :
  (tree_depth body <= rm)%nat ->
  completes (ingest_tree_in rm file_rel body) (ingest_tree file_rel body).
Proof.
  intros H. unfold ingest_tree_in, ingest_tree.
  apply completes_then; [apply completes_lift |].
  apply completes_then;
    [now apply visit_Module_in_completes | apply completes_lift].
Qed.

Lemma ingest_tree_in_overflows rm file_rel body :
  (rm < tree_depth body)%nat -> overflows (ingest_tree_in rm file_rel body).
Proof.
  intros H. unfold ingest_tree_in.
  apply overflows_second, overflows_first.
  now apply visit_Module_in_overflows.
Qed.

(** A visit that is cut short has written the module symbol and a
    beginning of the records of the visitor. *)
Lemma ingest_tree_in_overflow rm file_rel body st st' :
  ingest_tree_in rm file_rel body st = Overflow st' ->
  exists w1 w2,
    flat_map (stmt_out file_rel (module_id file_rel)) body = w1 ++ w2
    /\ stdout st' = stdout st ++ RSymbol (module_symbol file_rel) :: w1.
Proof.
  unfold ingest_tree_in, then_, lift.
  pose proof (visit_Module_in_within file_rel (module_id file_rel) rm body
                (emit (RSymbol (module_symbol file_rel)) st)) as H.
  destruct (visit_Module_in file_rel (module_id file_rel) rm body
              (emit (RSymbol (module_symbol file_rel)) st)) as [st1 | st1];
    [discriminate |].
  intros [= <-]. destruct H as (w1 & w2 & E & Hs).
  exists w1, w2. split; [exact E |].
  rewrite Hs. unfold emit; simpl. now rewrite <- app_assoc.
Qed.

Lemma ingest_file_in_parsed rm L fs root path out src body :
  fs path = Some src ->
  ast_parse L src path = Parsed body ->
  encodable (norm_path (relpath L path root)) = true ->
  (tree_depth body <= rm)%nat ->
  ingest_file_in rm L fs root path out
  = Returned (out ++ file_records (norm_path (relpath L path root)) body).
Proof.
  intros Hr Hp He Hd. unfold ingest_file_in. rewrite Hr, Hp, He.
  rewrite (ingest_tree_in_completes _ _ _ Hd).
  now rewrite ingest_tree_stdout.
Qed.

Lemma ingest_file_in_full rm L fs root path out src body :
  fs path = Some src ->
  ast_parse L src path = Parsed body ->
  encodable (norm_path (relpath L path root)) = true ->
  (tree_depth body <= rm)%nat ->
  ingest_file_in rm L fs root path out = ingest_file L fs root path out.
Proof.
  intros Hr Hp He Hd.
  now rewrite (ingest_file_in_parsed _ _ _ _ _ _ _ _ Hr Hp He Hd),
    (ingest_file_parsed _ _ _ _ _ _ _ Hr Hp).
Qed.

Lemma ingest_file_in_runs rm L fs root path out :
  runs_through rm L fs root path = true ->
  ingest_file_in rm L fs root path out = ingest_file L fs root path out.
Proof.
  unfold runs_through. intros H.
  destruct (fs path) as [src |] eqn:Hr;
    [destruct (ast_parse L src path) as [body | |] eqn:Hp |].
  - apply andb_prop in H as [He Hd]. apply Nat.leb_le in Hd.
    exact (ingest_file_in_full _ _ _ _ _ _ _ _ Hr Hp He Hd).
  - unfold ingest_file_in, ingest_file. now rewrite Hr, Hp.
  - discriminate.
  - unfold ingest_file_in, ingest_file. now rewrite Hr.
Qed.

Lemma ingest_file_in_stops rm L fs root path out :
  runs_through rm L fs root path = false ->
  exists o, ingest_file_in rm L fs root path out = Raised o.
Proof.
  unfold runs_through, ingest_file_in. intros H.
  destruct (fs path) as [src |]; [| discriminate].
  destruct (ast_parse L src path) as [body | |]; [| discriminate | eauto].
  destruct (encodable (norm_path (relpath L path root))); [| eauto].
  rewrite andb_true_l in H. apply Nat.leb_gt in H.
  destruct (ingest_tree_in_overflows _ (norm_path (relpath L path root)) _ H
              {| stdout := out; name_index := [] |}) as (st' & ->).
  eauto.
Qed.

Lemma runs_through_parser rm L fs root path :
  runs_through rm L fs root path = true ->
  forall src, fs path = Some src -> ast_parse L src path <> OtherError.
Proof.
  unfold runs_through. intros H src Hr. rewrite Hr in H.
  destruct (ast_parse L src path); congruence.
Qed.

Lemma no_name_index_in_part m a b f i :
  paired m (a ++ b) -> ~ In (RNameIndex f i) a.
Proof.
  intros Hp Hin. apply (paired_no_name_index m (a ++ b) f i Hp).
  apply in_or_app. now left.
Qed.

(** What a call that does not run as on a stack with room has written. *)
Lemma ingest_file_in_cut rm L fs root path out :
  ingest_file_in rm L fs root path out = ingest_file L fs root path out
  \/ exists w1 w2,
       ingest_file_in rm L fs root path out = Raised (out ++ w1)
       /\ written out (ingest_file L fs root path out) = w1 ++ w2
       /\ w2 <> []
       /\ (forall f i, ~ In (RNameIndex f i) w1).
Proof.
  unfold ingest_file_in.
  destruct (fs path) as [src |] eqn:Hr;
    [destruct (ast_parse L src path) as [body | |] eqn:Hp |];
    try (left; unfold ingest_file; now rewrite Hr, ?Hp).
  rewrite (ingest_file_parsed _ _ _ _ _ _ _ Hr Hp).
  unfold written. rewrite written_app.
  set (file_rel := norm_path (relpath L path root)).
  destruct (encodable file_rel).
  - destruct (ingest_tree_in rm file_rel body
                {| stdout := out; name_index := [] |}) as [st | st] eqn:Ht.
    + left.
      destruct (Nat.le_gt_cases (tree_depth body) rm) as [Hd | Hd].
      * rewrite (ingest_tree_in_completes _ file_rel _ Hd) in Ht.
        injection Ht as <-. now rewrite ingest_tree_stdout.
      * destruct (ingest_tree_in_overflows _ file_rel _ Hd
                    {| stdout := out; name_index := [] |}) as (st' & E).
        congruence.
    + right.
      destruct (ingest_tree_in_overflow _ _ _ _ _ Ht) as (w1 & w2 & E & Hs).
      simpl in Hs.
      exists (RSymbol (module_symbol file_rel) :: w1),
        (w2 ++ [RNameIndex file_rel
                  (index_of (flat_map (stmt_idx file_rel) body))]).
      split; [now rewrite Hs |]. split; [| split].
      * unfold file_records. rewrite E, <- app_assoc. reflexivity.
      * intros Hnil. now apply app_eq_nil in Hnil as [_ Hnil].
      * intros f i [Hin | Hin]; [discriminate |].
        pose proof (file_records_paired file_rel body) as Hp'.
        rewrite E in Hp'.
        exact (no_name_index_in_part _ _ _ _ _ Hp' Hin).
  - right. exists [], (file_records file_rel body).
    split; [now rewrite app_nil_r |]. split; [reflexivity |].
    split; [discriminate | intros f i []].
Qed.

Lemma ingest_file_in_output rm L fs root path out :
  exists w, output (ingest_file_in rm L fs root path out) = out ++ w.
Proof.
  destruct (ingest_file_in_cut rm L fs root path out)
    as [-> | (w1 & w2 & -> & _)].
  - apply ingest_file_output.
  - simpl. eauto.
Qed.

Lemma ingest_file_in_alone rm L fs root path out :
  runs_through rm L fs root path = true ->
  ingest_file_in rm L fs root path out
  = Returned (out ++ records_of_in rm L fs root path).
Proof.
  intros H. unfold records_of_in.
  rewrite !(ingest_file_in_runs _ _ _ _ _ _ H).
  apply ingest_file_alone. exact (runs_through_parser _ _ _ _ _ H).
Qed.

Section WalkInProofs.
Variable rm : nat.
Variable L : Lib.
Variable fs : filesystem.
Variable join : string -> string -> string.
Variable root : string.

Lemma ingest_all_in_app a b out :
  ingest_all_in rm L fs root (a ++ b) out
  = and_then (ingest_all_in rm L fs root a out) (ingest_all_in rm L fs root b).
Proof.
  revert out. induction a as [| p r IH]; intros out; simpl; [reflexivity |].
  destruct (ingest_file_in rm L fs root p out); simpl;
    [apply IH | reflexivity].
Qed.

Lemma ingest_filenames_in_all dirpath filenames out :
  ingest_filenames_in rm L fs join root dirpath filenames out
  = ingest_all_in rm L fs root
      (map (join dirpath) (filter (fun fn => endswith fn ".py") filenames))
      out.
Proof.
  revert out.
  induction filenames as [| fn r IH]; intros out; simpl; [reflexivity |].
  destruct (endswith fn ".py"); simpl; [| apply IH].
  destruct (ingest_file_in rm L fs root (join dirpath fn) out); simpl;
    [apply IH | reflexivity].
Qed.

Lemma walk_dirs_in_all dirpath l1 l2 out :
  Forall2 (fun a b =>
             fst a = fst b
             /\ forall dp o,
                 snd a dp o = ingest_all_in rm L fs root (snd b dp) o)
          l1 l2 ->
  walk_dirs join dirpath l1 out
  = ingest_all_in rm L fs root
      (flat_map (fun d => snd d (join dirpath (fst d))) l2) out.
Proof.
  intros H. revert out.
  induction H as [| a b r1 r2 [Hn HR] _ IH]; intros out; simpl;
    [reflexivity |].
  rewrite ingest_all_in_app, HR, Hn.
  destruct (ingest_all_in rm L fs root (snd b (join dirpath (fst b))) out);
    simpl; [apply IH | reflexivity].
Qed.

(** The walk hands to [ingest_file] the paths of [py_paths], in order, and
    ends with the first call that raises. *)
Lemma walk_in_all t :
  forall dirpath out,
    walk_in rm L fs join root t dirpath out
    = ingest_all_in rm L fs root (py_paths join t dirpath) out.
Proof.
  induction t as [dirs files IH |] using dirtree_nested_ind;
    intros dirpath out; [| reflexivity].
  cbn [walk_in py_paths].
  rewrite ingest_all_in_app, ingest_filenames_in_all.
  destruct (ingest_all_in rm L fs root
              (map (join dirpath)
                   (filter (fun fn => endswith fn ".py") files)) out);
    simpl; [| reflexivity].
  apply walk_dirs_in_all.
  do 2 apply (remove_dir_Forall2
                (fun w pp => forall dp o,
                     w dp o = ingest_all_in rm L fs root (pp dp) o)).
  induction IH as [| d r Hd _ IHr]; simpl; constructor; [| exact IHr].
  split; [reflexivity | exact Hd].
Qed.

Lemma ingest_all_in_returns paths out :
  (forall path, In path paths -> runs_through rm L fs root path = true) ->
  ingest_all_in rm L fs root paths out
  = Returned (out ++ flat_map (records_of_in rm L fs root) paths).
Proof.
  revert out. induction paths as [| p r IH]; intros out Hok; simpl.
  - now rewrite app_nil_r.
  - rewrite ingest_file_in_alone by (apply Hok; now left).
    simpl. rewrite IH by (intros path Hin; apply Hok; now right).
    now rewrite app_assoc.
Qed.
End WalkInProofs.

(** *** The text that can be encoded *)

Example encodable_examples :
  encodable "pkg/beta.py" = true
  /\ encodable (String "195"%char (String "169"%char ".py")) = true
  /\ encodable latin1_name = false
  /\ encodable (String "237"%char (String "179"%char (String "169"%char "")))
     = false.
Proof. repeat split; reflexivity. Qed.

(** ** The range of every symbol (C9) *)

Section Declared.
Variable file_rel : string.
Variable mod_id : string.

(** Every symbol the visit of a statement writes is a pseudo-module or the
    symbol of one of the nodes of [decl_nodes], with the range [range_of]
    gives for the position of that node. *)
Lemma stmt_out_declared s sym :
  In (RSymbol sym) (stmt_out file_rel mod_id s) ->
  (exists spec, sym = pseudo_module spec)
  \/ exists n p,
       In (kind sym, n, p) (decl_nodes s)
       /\ name sym = n /\ range sym = range_of p.
Proof.
  revert sym.
  induction s as [n p args body rest IHb | n p bases body rest IHb
                 | targets value | names | module names level
                 | children IHc] using stmt_nested_ind; intros sym Hin.
  - change (stmt_out file_rel mod_id (FunctionDef n p args body rest))
      with ([RSymbol (function_symbol file_rel n p);
             REdge mod_id "defines" (id (function_symbol file_rel n p))]
            ++ flat_map (expr_out file_rel mod_id) args
            ++ flat_map (stmt_out file_rel mod_id) body
            ++ flat_map (expr_out file_rel mod_id) rest) in Hin.
    rewrite !in_app_iff in Hin.
    destruct Hin as [[E | [E | []]] | [H | [H | H]]].
    + injection E as <-. right. exists n, p.
      split; [now left | split; reflexivity].
    + discriminate.
    + now apply exprs_out_no_symbol in H.
    + apply in_flat_map in H as (s & Hs & H).
      rewrite Forall_forall in IHb.
      destruct (IHb s Hs sym H) as [Hps | (n' & p' & Hd & Hn & Hrg)];
        [now left |].
      right. exists n', p'. split; [| now split].
      cbn [decl_nodes]. right. apply in_flat_map. now exists s.
    + now apply exprs_out_no_symbol in H.
  - change (stmt_out file_rel mod_id (ClassDef n p bases body rest))
      with ([RSymbol (class_symbol file_rel n p);
             REdge mod_id "defines" (id (class_symbol file_rel n p))]
            ++ flat_map (method_out file_rel (class_symbol file_rel n p)) body
            ++ flat_map (expr_out file_rel mod_id) bases
            ++ flat_map (stmt_out file_rel mod_id) body
            ++ flat_map (expr_out file_rel mod_id) rest) in Hin.
    rewrite !in_app_iff in Hin.
    destruct Hin as [[E | [E | []]] | [H | [H | [H | H]]]].
    + injection E as <-. right. exists n, p.
      split; [now left | split; reflexivity].
    + discriminate.
    + apply in_flat_map in H as (b & Hb & H).
      destruct b as [mn mp ma mb mr | | | | |]; try contradiction.
      destruct H as [E | [E | []]]; [| discriminate].
      injection E as <-. right. exists mn, mp.
      split; [| split; reflexivity].
      cbn [decl_nodes]. right. apply in_or_app. left.
      apply in_flat_map. exists (FunctionDef mn mp ma mb mr).
      split; [exact Hb | now left].
    + now apply exprs_out_no_symbol in H.
    + apply in_flat_map in H as (s & Hs & H).
      rewrite Forall_forall in IHb.
      destruct (IHb s Hs sym H) as [Hps | (n' & p' & Hd & Hn & Hrg)];
        [now left |].
      right. exists n', p'. split; [| now split].
      cbn [decl_nodes]. right. apply in_or_app. right.
      apply in_flat_map. now exists s.
    + now apply exprs_out_no_symbol in H.
  - change (stmt_out file_rel mod_id (Assign targets value))
      with (assign_head_out file_rel mod_id targets
            ++ flat_map (expr_out file_rel mod_id) targets
            ++ expr_out file_rel mod_id value) in Hin.
    rewrite !in_app_iff in Hin. destruct Hin as [H | [H | H]].
    + destruct targets as [| [v pv | | | | |] ts]; try contradiction.
      destruct H as [E | [E | []]]; [| discriminate].
      injection E as <-. right. exists v, pv.
      split; [now left | split; reflexivity].
    + now apply exprs_out_no_symbol in H.
    + now apply expr_out_no_symbol in H.
  - change (stmt_out file_rel mod_id (Import names))
      with (flat_map (fun a => import_out mod_id (alias_name a)) names) in Hin.
    apply in_flat_map in Hin as (a & _ & [E | [E | []]]); [| discriminate].
    injection E as <-. left. eauto.
  - destruct Hin as [E | [E | []]]; [| discriminate].
    injection E as <-. left. eauto.
  - change (stmt_out file_rel mod_id (OtherStmt children))
      with (flat_map (node_out file_rel mod_id) children) in Hin.
    apply in_flat_map in Hin as ([e | s] & Hn & H).
    + now apply expr_out_no_symbol in H.
    + rewrite Forall_forall in IHc.
      destruct (IHc _ Hn sym H) as [Hps | (n' & p' & Hd & Hn' & Hrg)];
        [now left |].
      right. exists n', p'. split; [| now split].
      cbn [decl_nodes]. apply in_flat_map. now exists (NStmt s).
Qed.
End Declared.

(** The range [range_of] gives is the one of the node. *)
Lemma range_of_at p : range_at p (range_of p).
Proof.
  unfold range_at, range_of, getattr.
  split; [reflexivity |]. split; [reflexivity |]. split; reflexivity.
Qed.

(** C9: every symbol written for a file is a module symbol, with the
    range from line 1, column 1 to line 1, column 1, or the symbol of a
    node of the tree; then its range starts at the line of the node and at
    the column after the offset of the node (the parser counts lines from
    1 and offsets from 0), it ends where the parser says the node ends,
    and where the parser gives no end it ends at its start.  With the
    positions the parser gives (lines from 1, offsets from 0, end offsets
    one past the last character), all four fields are integers from 1
    on. *)
Theorem C9_ranges L fs root path out src body :
  fs path = Some src ->
  ast_parse L src path = Parsed body ->
  let w := written out (ingest_file L fs root path out) in
  (forall sym,
      In (RSymbol sym) w ->
      (kind sym = "module"
       /\ range sym = {| startLine := 1; startCol := 1;
                         endLine := Some 1; endCol := Some 1 |})
      \/ exists n p,
           In (kind sym, n, p) (flat_map decl_nodes body)
           /\ name sym = n
           /\ range_at p (range sym)
           /\ (end_lineno p = Missing -> end_col_offset p = Missing ->
               endLine (range sym) = Some (startLine (range sym))
               /\ endCol (range sym) = Some (startCol (range sym))))
  /\ (forallb (stmt_ok pos_ok) body = true ->
      Forall (fun sym => one_based (range sym)) (symbols w)).
Proof.
  intros Hr Hp. cbv zeta.
  rewrite (ingest_file_parsed _ _ _ _ _ _ _ Hr Hp).
  unfold written. rewrite written_app.
  set (file_rel := norm_path (relpath L path root)).
  split.
  - intros sym Hin. rewrite file_records_app in Hin.
    rewrite !in_app_iff in Hin. destruct Hin as [[E | []] | [H | [E | []]]].
    + injection E as <-. left. split; reflexivity.
    + apply in_flat_map in H as (t & Ht & H).
      destruct (stmt_out_declared file_rel (module_id file_rel) t sym H)
        as [(spec & ->) | (n & p & Hd & Hn & Hrg)].
      * left. split; reflexivity.
      * right. exists n, p.
        split; [apply in_flat_map; now exists t |].
        split; [exact Hn |]. rewrite Hrg.
        split; [apply range_of_at |].
        intros Hl Hc. now apply range_of_missing_end.
    + discriminate.
  - intros Hok. rewrite file_records_symbols.
    constructor; [apply range_1_1_one_based |].
    apply Forall_symbols.
    apply (stmts_out_records _ _ pos_ok); [| exact Hok].
    intros s. apply stmt_out_records; simpl;
      auto using range_of_one_based, range_1_1_one_based.
Qed.

Lemma C9_ranges_witness :
  let w := written [] (ingest_file example_lib example_fs
                         "repo" "repo/a.src" []) in
  (forall sym,
      In (RSymbol sym) w ->
      (kind sym = "module"
       /\ range sym = {| startLine := 1; startCol := 1;
                         endLine := Some 1; endCol := Some 1 |})
      \/ exists n p,
           In (kind sym, n, p) (flat_map decl_nodes scenario_tree)
           /\ name sym = n
           /\ range_at p (range sym)
           /\ (end_lineno p = Missing -> end_col_offset p = Missing ->
               endLine (range sym) = Some (startLine (range sym))
               /\ endCol (range sym) = Some (startCol (range sym))))
  /\ (forallb (stmt_ok pos_ok) scenario_tree = true ->
      Forall (fun sym => one_based (range sym)) (symbols w)).
Proof.
  exact (C9_ranges example_lib example_fs "repo" "repo/a.src" []
           "scenario" scenario_tree eq_refl eq_refl).
Defined.

(** The ranges written for the scenario and for a function at line 7,
    offset 4, whose node has no end position. *)
Example ranges_written :
  map range (symbols (written [] (ingest_file example_lib example_fs
                                    "repo" "repo/a.src" [])))
  = [ {| startLine := 1; startCol := 1; endLine := Some 1; endCol := Some 1 |};
      {| startLine := 1; startCol := 1; endLine := Some 1; endCol := Some 13 |};
      {| startLine := 2; startCol := 1; endLine := Some 3; endCol := Some 21 |};
      {| startLine := 3; startCol := 5; endLine := Some 3; endCol := Some 21 |};
      {| startLine := 3; startCol := 5; endLine := Some 3; endCol := Some 21 |} ]
  /\ map range (symbols (written [] (ingest_file no_end_lib nested_fs
                                       "repo" "repo/g.py" [])))
     = [ {| startLine := 1; startCol := 1; endLine := Some 1; endCol := Some 1 |};
         {| startLine := 7; startCol := 5; endLine := Some 7; endCol := Some 5 |} ].
Proof. split; vm_compute; reflexivity. Qed.

(** ** Methods are written twice, when the visit gets there (C10) *)




(** ** What a call writes, and when it is cut short *)

(** X6: when the path can be encoded and the stack has room for the tree,
    what [ingest_file] writes for a file that parses starts with the
    module symbol of the file and ends with its name index; there is no
    other name index record, and there is one edge for every symbol but
    the module symbol. *)
Theorem ingest_file_frame rm L fs root path out src body :
  fs path = Some src ->
  ast_parse L src path = Parsed body ->
  encodable (norm_path (relpath L path root)) = true ->
  (tree_depth body <= rm)%nat ->
  let file_rel := norm_path (relpath L path root) in
  exists mid idx,
    written out (ingest_file_in rm L fs root path out)
    = RSymbol (module_symbol file_rel) :: mid ++ [RNameIndex file_rel idx]
    /\ (forall f i, ~ In (RNameIndex f i) mid)
    /\ List.length (symbols (written out (ingest_file_in rm L fs root path out)))
       = S (List.length
              (edges (written out (ingest_file_in rm L fs root path out)))).
Proof.
  intros Hr Hp He Hd.
  rewrite (ingest_file_in_full _ _ _ _ _ out _ _ Hr Hp He Hd).
  exact (full_visit_frame L fs root path out src body Hr Hp).
Qed.

Lemma ingest_file_frame_witness :
  exists mid idx,
    written [] (ingest_file_in default_room example_lib example_fs
                  "repo" "repo/a.src" [])
    = RSymbol (module_symbol "a.src") :: mid ++ [RNameIndex "a.src" idx]
    /\ (forall f i, ~ In (RNameIndex f i) mid)
    /\ List.length
         (symbols (written [] (ingest_file_in default_room example_lib
                                 example_fs "repo" "repo/a.src" [])))
       = S (List.length
              (edges (written [] (ingest_file_in default_room example_lib
                                    example_fs "repo" "repo/a.src" [])))).
Proof.
  refine (ingest_file_frame default_room example_lib example_fs
            "repo" "repo/a.src" [] "scenario" scenario_tree
            eq_refl eq_refl eq_refl _).
  apply Nat.leb_le. reflexivity.
Defined.

(** X10: when the path can be encoded and the stack has room for the
    tree, the name index written at the end of a file holds, under each
    name, exactly the function, method and variable symbols of that name
    written before it, in the order they were written; a name without such
    a symbol has no entry; the keys are distinct and stand in the order in
    which the names first occur in the stream.  Class and module symbols
    never go into the index. *)
Theorem name_index_matches_stream rm L fs root path out src body :
  fs path = Some src ->
  ast_parse L src path = Parsed body ->
  encodable (norm_path (relpath L path root)) = true ->
  (tree_depth body <= rm)%nat ->
  let w := written out (ingest_file_in rm L fs root path out) in
  exists front idx,
    w = front ++ [RNameIndex (norm_path (relpath L path root)) idx]
    /\ (forall k,
           dict_get k idx
           = match declared k w with [] => None | l => Some l end)
    /\ keys idx
       = first_occurrences (map name (filter indexable (symbols w)))
    /\ NoDup (keys idx).
Proof.
  intros Hr Hp He Hd.
  rewrite (ingest_file_in_full _ _ _ _ _ out _ _ Hr Hp He Hd).
  exact (full_visit_name_index L fs root path out src body Hr Hp).
Qed.

Lemma name_index_matches_stream_witness :
  let w := written [] (ingest_file_in default_room example_lib example_fs
                         "repo" "repo/a.src" []) in
  exists front idx,
    w = front ++ [RNameIndex "a.src" idx]
    /\ (forall k,
           dict_get k idx
           = match declared k w with [] => None | l => Some l end)
    /\ keys idx
       = first_occurrences (map name (filter indexable (symbols w)))
    /\ NoDup (keys idx).
Proof.
  refine (name_index_matches_stream default_room example_lib example_fs
            "repo" "repo/a.src" [] "scenario" scenario_tree
            eq_refl eq_refl eq_refl _).
  apply Nat.leb_le. reflexivity.
Defined.



(** X13: when every call of [ingest_file] runs through (the parser raises
    nothing but syntax errors, the paths can be encoded, the stack has
    room for the trees), [ingest_dir] returns, and what it has written is,
    for the files ending in .py, directory by directory (the files of a
    directory, then its subdirectories, node_modules and .git left out),
    what [ingest_file] writes for each on its own: files that cannot be
    read or parsed add nothing and do not disturb the others. *)
Theorem ingest_dir_returns rm L fs join root t out :
  (forall path,
      In path (py_paths join t root) ->
      runs_through rm L fs root path = true) ->
  ingest_dir_in rm L fs join root t out
  = Returned (out ++ flat_map (records_of_in rm L fs root)
                              (py_paths join t root)).
Proof.
  intros Hok. unfold ingest_dir_in. rewrite walk_in_all.
  now apply ingest_all_in_returns.
Qed.

Lemma ingest_dir_returns_witness :
  ingest_dir_in default_room example_lib tree_fs posix_join "repo"
                example_tree []
  = Returned ([] ++ flat_map (records_of_in default_room example_lib tree_fs
                                "repo")
                             (py_paths posix_join example_tree "repo")).
Proof.
  apply (ingest_dir_returns default_room example_lib tree_fs posix_join
           "repo" example_tree []).
  intros path [<- | [<- | []]]; reflexivity.
Defined.

(** X14: a call of [ingest_file] that does not run through (the parser
    raises another exception than a syntax error, the path cannot be
    encoded, or the stack has no room for the tree) raises, and ends the
    whole walk with it: the files before it have been written, then what
    that call had written, and nothing for any file after it. *)
Theorem ingest_dir_raises rm L fs join root t out before path after :
  py_paths join t root = before ++ path :: after ->
  (forall p, In p before -> runs_through rm L fs root p = true) ->
  runs_through rm L fs root path = false ->
  exists w,
    ingest_file_in rm L fs root path
      (out ++ flat_map (records_of_in rm L fs root) before)
    = Raised (out ++ flat_map (records_of_in rm L fs root) before ++ w)
    /\ ingest_dir_in rm L fs join root t out
       = Raised (out ++ flat_map (records_of_in rm L fs root) before ++ w).
Proof.
  intros Hp Hok Hstop. unfold ingest_dir_in.
  rewrite walk_in_all, Hp, ingest_all_in_app,
    (ingest_all_in_returns _ _ _ _ _ _ Hok).
  cbn [and_then ingest_all_in].
  destruct (ingest_file_in_stops rm L fs root path
              (out ++ flat_map (records_of_in rm L fs root) before) Hstop)
    as (o & E).
  destruct (ingest_file_in_output rm L fs root path
              (out ++ flat_map (records_of_in rm L fs root) before))
    as (w & Hw).
  rewrite E in Hw. simpl in Hw. subst o. rewrite <- app_assoc in E.
  exists w. rewrite E. split; reflexivity.
Qed.

Lemma ingest_dir_raises_witness :
  exists w,
    ingest_file_in default_room deep_lib deep_fs "repo" "repo/pkg/deep.py"
      ([] ++ flat_map (records_of_in default_room deep_lib deep_fs "repo")
                      ["repo/call.py"])
    = Raised ([] ++ flat_map (records_of_in default_room deep_lib deep_fs
                                "repo")
                             ["repo/call.py"] ++ w)
    /\ ingest_dir_in default_room deep_lib deep_fs posix_join "repo"
                     deep_dir []
       = Raised ([] ++ flat_map (records_of_in default_room deep_lib deep_fs
                                   "repo")
                                ["repo/call.py"] ++ w).
Proof.
  apply (ingest_dir_raises default_room deep_lib deep_fs posix_join "repo"
           deep_dir [] ["repo/call.py"] "repo/pkg/deep.py"
           ["repo/pkg/late.py"]).
  - reflexivity.
  - intros p [<- | []]. reflexivity.
  - vm_compute. reflexivity.
Defined.

(** X18: nothing is remembered from one call of [ingest_file] to the
    next: when a call runs through, a second call on the same file writes
    all its records again, after those of the first. *)
Theorem ingest_file_twice rm L fs root path out :
  runs_through rm L fs root path = true ->
  and_then (ingest_file_in rm L fs root path out)
           (ingest_file_in rm L fs root path)
  = Returned (out ++ records_of_in rm L fs root path
                  ++ records_of_in rm L fs root path).
Proof.
  intros Hok. rewrite (ingest_file_in_alone _ _ _ _ _ _ Hok). simpl.
  rewrite (ingest_file_in_alone _ _ _ _ _ _ Hok). now rewrite app_assoc.
Qed.

Lemma ingest_file_twice_witness :
  and_then (ingest_file_in default_room example_lib example_fs
              "repo" "repo/a.src" [])
           (ingest_file_in default_room example_lib example_fs
              "repo" "repo/a.src")
  = Returned ([] ++ records_of_in default_room example_lib example_fs
                      "repo" "repo/a.src"
                 ++ records_of_in default_room example_lib example_fs
                      "repo" "repo/a.src").
Proof.
  apply (ingest_file_twice default_room example_lib example_fs
           "repo" "repo/a.src" []).
  reflexivity.
Defined.

(** X21: a call of [ingest_file] runs as on a stack with room for the
    whole tree, or it raises; then what it has written is a beginning of
    what it writes with room, something is missing at the end, and there
    is no name index record in it. *)
Theorem ingest_file_cut_short rm L fs root path out :
  ingest_file_in rm L fs root path out = ingest_file L fs root path out
  \/ exists w1 w2,
       ingest_file_in rm L fs root path out = Raised (out ++ w1)
       /\ written out (ingest_file L fs root path out) = w1 ++ w2
       /\ w2 <> []
       /\ (forall f i, ~ In (RNameIndex f i) w1).
Proof. apply ingest_file_in_cut. Qed.



